(** * Ordered binary decision diagrams: a model of [obdd.py] and [boolean.py]

    The development embeds the variable registry of [boolean.py] and the
    hash-consed node store, negation, restriction, if-then-else and the
    traversals of [obdd.py], and proves the properties the specification
    states about them.

    Python objects are modelled by their identity: an [OBDDNode] is a
    reference into the list of allocated node objects, and [is] is equality
    of references.  The two module-level tables [_NODES] and [_BDDS] are weak
    dictionaries in the source; reclamation only ever removes objects that
    nothing can reach any more, so the model lets the tables grow and never
    reclaims.  Recursive Python functions take the remaining recursion depth
    as their first argument and raise [RecursionError] when it is used up. *)

From stdpp Require Import gmap strings list fin_maps.
From Stdlib Require Import ZArith Lia.

Set Warnings "-register-all,-clear-no-such-hyp".

(** ** Python results *)

Inductive exn : Type :=
  | TypeError | ValueError | KeyError | AttributeError | RecursionError.

Inductive result (A : Type) : Type :=
  | Ok (a : A)
  | Raise (e : exn).
Arguments Ok {A} a.
Arguments Raise {A} e.

Global Instance exn_eq_dec : EqDecision exn.
Proof. solve_decision. Defined.

(** A computation over a mutable global state [S]: an exception leaves the
    state as it was when it was raised. *)
Definition M (S A : Type) : Type := S → result A * S.

Definition ret {S A} (a : A) : M S A := λ s, (Ok a, s).
Definition raise {S A} (e : exn) : M S A := λ s, (Raise e, s).
Definition bind {S A B} (m : M S A) (k : A → M S B) : M S B :=
  λ s, match m s with
       | (Ok a, s') => k a s'
       | (Raise e, s') => (Raise e, s')
       end.
Definition get {S} : M S S := λ s, (Ok s, s).
Definition put {S} (s : S) : M S unit := λ _, (Ok tt, s).
Definition lift {S A} (r : result A) : M S A := λ s, (r, s).

Declare Scope py_scope.
Delimit Scope py_scope with py.
Notation "x <- m ; k" := (bind m (λ x, k))
  (at level 20, m at level 100, k at level 200, only parsing) : py_scope.
Notation "' p <- m ; k" := (bind m (λ x, match x with p => k end))
  (at level 20, p pattern, m at level 100, k at level 200, only parsing) : py_scope.
Open Scope py_scope.

(** Values a caller may pass where the source inspects the dynamic type:
    [O] is the type of diagram objects, [PyOther] any other object. *)
Inductive pyval (O : Type) : Type :=
  | PyNone
  | PyBool (b : bool)
  | PyInt (z : Z)
  | PyStr (s : string)
  | PyTuple (l : list (pyval O))
  | PyObj (o : O)
  | PyOther (id : nat).
Arguments PyNone {O}.
Arguments PyBool {O} b.
Arguments PyInt {O} z.
Arguments PyStr {O} s.
Arguments PyTuple {O} l.
Arguments PyObj {O} o.
Arguments PyOther {O} id.

(** [isinstance(v, str)] and [isinstance(v, int)]; [bool] is a subclass of
    [int]. *)
Definition is_str {O} (v : pyval O) : bool :=
  match v with PyStr _ => true | _ => false end.
Definition is_int {O} (v : pyval O) : bool :=
  match v with PyInt _ | PyBool _ => true | _ => false end.
(** The integer an [int] instance denotes ([True] is 1, [False] is 0). *)
Definition int_val {O} (v : pyval O) : Z :=
  match v with PyInt z => z | PyBool b => Z.b2z b | _ => 0%Z end.
Definition str_val {O} (v : pyval O) : string :=
  match v with PyStr s => s | _ => EmptyString end.

(** ** Decision trees: the unfolding of a node *)

Inductive bdd : Type :=
  | Leaf (b : bool)
  | Node (v : Z) (l h : bdd).

Global Instance bdd_eq_dec : EqDecision bdd.
Proof. solve_decision. Defined.

Definition env : Type := Z → bool.

Fixpoint interp (t : bdd) (e : env) : bool :=
  match t with
  | Leaf b => b
  | Node v l h => if e v then interp h e else interp l e
  end.

Fixpoint depth (t : bdd) : nat :=
  match t with
  | Leaf _ => 0
  | Node _ l h => S (Nat.max (depth l) (depth h))
  end.

Fixpoint tsize (t : bdd) : nat :=
  match t with
  | Leaf _ => 1
  | Node _ l h => S (tsize l + tsize h)
  end.

(** [bounded k t]: the variables strictly increase along every path of [t]
    and are all above [k]. *)
Fixpoint bounded (k : Z) (t : bdd) : Prop :=
  match t with
  | Leaf _ => True
  | Node v l h => (k < v)%Z ∧ bounded v l ∧ bounded v h
  end.

Fixpoint reduced (t : bdd) : Prop :=
  match t with
  | Leaf _ => True
  | Node _ l h => l ≠ h ∧ reduced l ∧ reduced h
  end.

Definition robdd (t : bdd) : Prop := bounded 0 t ∧ reduced t.

(** The variables labelling a tree. *)
Fixpoint tvars (t : bdd) : list Z :=
  match t with
  | Leaf _ => []
  | Node v l h => v :: tvars l ++ tvars h
  end.

(** The tree a call of [_obddnode] stands for. *)
Definition mk (v : Z) (l h : bdd) : bdd :=
  if decide (l = h) then l else Node v l h.

Fixpoint tneg (t : bdd) : bdd :=
  match t with
  | Leaf b => Leaf (negb b)
  | Node v l h => mk v (tneg l) (tneg h)
  end.

Fixpoint trestrict (pt : Z → option bool) (t : bdd) : bdd :=
  match t with
  | Leaf b => Leaf b
  | Node v l h =>
      match pt v with
      | Some false => trestrict pt l
      | Some true => trestrict pt h
      | None => mk v (trestrict pt l) (trestrict pt h)
      end
  end.

(** The assignment [e] overridden by the point [pt]. *)
Definition override (pt : Z → option bool) (e : env) : env :=
  λ v, match pt v with Some b => b | None => e v end.

Definition upd (x : Z) (b : bool) (e : env) : env :=
  λ v, if decide (v = x) then b else e v.

Definition single (x : Z) (b : bool) : Z → option bool :=
  λ v, if decide (v = x) then Some b else None.

Section trees.
  Implicit Types (t l h : bdd) (e : env) (k v x : Z).

Lemma bounded_mono k k' t : (k' ≤ k)%Z → bounded k t → bounded k' t.
  Proof. destruct t; simpl; [done|]. intros ? (? & ? & ?). repeat split; [lia|done..]. Qed.

Lemma interp_ext t e1 e2 :
    (∀ v, v ∈ tvars t → e1 v = e2 v) → interp t e1 = interp t e2.
  Proof.
    induction t as [b|v l IHl h IHh]; simpl; [done|]. intros H.
    rewrite (H v) by set_solver.
    rewrite IHl, IHh; [done| |]; intros; apply H; set_solver.
  Qed.

Lemma bounded_tvars k t v : bounded k t → v ∈ tvars t → (k < v)%Z.
  Proof.
    revert k. induction t as [b|v0 l IHl h IHh]; simpl; intros k; [set_solver|].
    intros (? & Hl & Hh) Hin.
    apply elem_of_cons in Hin as [->|Hin]; [done|].
    apply elem_of_app in Hin as [Hin|Hin];
      [apply (IHl v0) in Hin|apply (IHh v0) in Hin]; auto; lia.
  Qed.

Lemma interp_upd k t e x b :
    bounded k t → (x ≤ k)%Z → interp t (upd x b e) = interp t e.
  Proof.
    intros Hb Hx. apply interp_ext. intros v Hv.
    apply (bounded_tvars _ _ _ Hb) in Hv. unfold upd. case_decide; [lia|done].
  Qed.

Lemma interp_mk v l h e :
    interp (mk v l h) e = if e v then interp h e else interp l e.
  Proof. unfold mk. case_decide; simpl; [subst; by destruct (e v)|done]. Qed.

Lemma bounded_mk k v l h :
    (k < v)%Z → bounded v l → bounded v h → bounded k (mk v l h).
  Proof.
    intros. unfold mk. case_decide; simpl; [|done].
    apply bounded_mono with v; [lia|done].
  Qed.

Lemma reduced_mk v l h : reduced l → reduced h → reduced (mk v l h).
  Proof. intros. unfold mk. case_decide; simpl; done. Qed.

Lemma depth_mk v l h : depth (mk v l h) ≤ S (Nat.max (depth l) (depth h)).
  Proof. unfold mk. case_decide; simpl; lia. Qed.

Lemma tvars_mk v l h x : x ∈ tvars (mk v l h) → x = v ∨ x ∈ tvars l ∨ x ∈ tvars h.
  Proof. unfold mk. case_decide; simpl; set_solver. Qed.
End trees.

(** ** Canonicity of reduced ordered trees *)

Section canonicity.
  Implicit Types (t l h : bdd) (e : env) (k v x : Z).

Lemma upd_same x b e : upd x b e x = b.
  Proof. unfold upd. by rewrite decide_True. Qed.

Lemma interp_node_upd v l h e b :
    bounded v l → bounded v h →
    interp (Node v l h) (upd v b e) = if b then interp h e else interp l e.
  Proof.
    intros Hl Hh. simpl. rewrite upd_same.
    destruct b; eapply interp_upd; eauto; lia.
  Qed.

  (** A node whose children differ on some assignment is not constant, and
      differs from any tree that does not mention its variable. *)
Lemma split_on_root v l h t e k :
    bounded v l → bounded v h → bounded k t → (v ≤ k)%Z →
    interp l e ≠ interp h e →
    ∃ e', interp (Node v l h) e' ≠ interp t e'.
  Proof.
    intros Hl Hh Ht Hk Hne.
    destruct (decide (interp l e = interp t e)) as [Heq|Hneq].
    - exists (upd v true e). rewrite interp_node_upd by done.
      rewrite (interp_upd k) by done. congruence.
    - exists (upd v false e). rewrite interp_node_upd by done.
      rewrite (interp_upd k) by done. congruence.
  Qed.

Lemma distinguish_n n : ∀ t1 t2 k1 k2,
    tsize t1 + tsize t2 ≤ n →
    bounded k1 t1 → reduced t1 → bounded k2 t2 → reduced t2 →
    t1 ≠ t2 → ∃ e, interp t1 e ≠ interp t2 e.
  Proof.
    induction n as [|n IH]; intros t1 t2 k1 k2 Hn Hb1 Hr1 Hb2 Hr2 Hne.
    { destruct t1; simpl in Hn; lia. }
    destruct t1 as [b1|v1 l1 h1], t2 as [b2|v2 l2 h2].
    - exists (λ _, false). simpl. congruence.
    - destruct Hb2 as (? & Hl & Hh), Hr2 as (Hlh & ? & ?).
      destruct (IH l2 h2 v2 v2) as [e He]; auto; [simpl in Hn; lia|].
      destruct (split_on_root v2 l2 h2 (Leaf b1) e v2) as [e' He']; simpl; auto; [lia|].
      exists e'. simpl in *. congruence.
    - destruct Hb1 as (? & Hl & Hh), Hr1 as (Hlh & ? & ?).
      destruct (IH l1 h1 v1 v1) as [e He]; auto; [simpl in Hn; lia|].
      destruct (split_on_root v1 l1 h1 (Leaf b2) e v1) as [e' He']; simpl; auto; [lia|].
      by exists e'.
    - destruct Hb1 as (? & Hl1 & Hh1), Hr1 as (Hlh1 & ? & ?).
      destruct Hb2 as (? & Hl2 & Hh2), Hr2 as (Hlh2 & ? & ?).
      simpl in Hn.
      destruct (Z.lt_trichotomy v1 v2) as [Hlt|[->|Hlt]].
      + destruct (IH l1 h1 v1 v1) as [e He]; auto; [lia|].
        apply (split_on_root v1 l1 h1 (Node v2 l2 h2) e v1); simpl; auto; lia.
      + destruct (decide (l1 = l2)) as [->|Hl].
        * assert (h1 ≠ h2) as Hh by congruence.
          destruct (IH h1 h2 v2 v2) as [e He]; auto; [lia|].
          exists (upd v2 true e). by rewrite !interp_node_upd.
        * destruct (IH l1 l2 v2 v2) as [e He]; auto; [lia|].
          exists (upd v2 false e). by rewrite !interp_node_upd.
      + destruct (IH l2 h2 v2 v2) as [e He]; auto; [lia|].
        destruct (split_on_root v2 l2 h2 (Node v1 l1 h1) e v2) as [e' He'];
          simpl; auto; [lia|].
        exists e'. simpl in *. congruence.
  Qed.

Lemma distinguish t1 t2 k1 k2 :
    bounded k1 t1 → reduced t1 → bounded k2 t2 → reduced t2 →
    t1 ≠ t2 → ∃ e, interp t1 e ≠ interp t2 e.
  Proof. intros. eapply (distinguish_n _ t1 t2); eauto. Qed.

Lemma tree_canonical t1 t2 k1 k2 :
    bounded k1 t1 → reduced t1 → bounded k2 t2 → reduced t2 →
    (∀ e, interp t1 e = interp t2 e) → t1 = t2.
  Proof.
    intros Hb1 Hr1 Hb2 Hr2 Heq.
    destruct (decide (t1 = t2)) as [|Hne]; [done|].
    destruct (distinguish t1 t2 k1 k2) as [e He]; auto.
    by destruct He.
  Qed.

Lemma interp_upd_upd t v x b c e k :
    bounded k t → (v ≤ k)%Z →
    interp t (upd x b (upd v c e)) = interp t (upd x b e).
  Proof.
    intros Hb Hv. apply interp_ext. intros w Hw.
    eapply bounded_tvars in Hw; eauto. unfold upd.
    repeat case_decide; auto; lia.
  Qed.

  (** Every variable labelling a reduced ordered tree is essential. *)
Lemma tvars_essential t k x :
    bounded k t → reduced t → x ∈ tvars t →
    ∃ e, interp t (upd x false e) ≠ interp t (upd x true e).
  Proof.
    revert k. induction t as [b|v l IHl h IHh]; simpl; intros k; [set_solver|].
    intros (Hk & Hbl & Hbh) (Hlh & Hrl & Hrh) Hin.
    apply elem_of_cons in Hin as [->|Hin].
    - destruct (distinguish l h v v) as [e He]; auto.
      exists e. rewrite !upd_same, !(interp_upd v) by (done || lia). done.
    - assert (v < x)%Z as Hvx.
      { apply elem_of_app in Hin as [Hin|Hin];
          eapply bounded_tvars in Hin; eauto. }
      assert (∀ b c e0, upd x b (upd v c e0) v = c) as Hv.
      { intros b c e0. unfold upd. rewrite decide_False by lia. by rewrite decide_True. }
      apply elem_of_app in Hin as [Hin|Hin].
      + destruct (IHl v) as [e He]; auto.
        exists (upd v false e). rewrite !Hv.
        by rewrite !(interp_upd_upd l v x _ _ e v) by (done || lia).
      + destruct (IHh v) as [e He]; auto.
        exists (upd v true e). rewrite !Hv.
        by rewrite !(interp_upd_upd h v x _ _ e v) by (done || lia).
  Qed.

  (** Conversely a tree does not depend on a variable it does not mention. *)
Lemma interp_upd_notin t x b e : x ∉ tvars t → interp t (upd x b e) = interp t e.
  Proof.
    intros Hx. apply interp_ext. intros v Hv. unfold upd.
    case_decide; [by subst|done].
  Qed.
End canonicity.

(** ** Negation and restriction on trees *)

Section tree_ops.
  Implicit Types (t l h : bdd) (e : env) (k v x : Z) (pt : Z → option bool).

Lemma interp_tneg t e : interp (tneg t) e = negb (interp t e).
  Proof.
    induction t as [b|v l IHl h IHh]; simpl; [done|].
    rewrite interp_mk, IHl, IHh. by destruct (e v).
  Qed.

Lemma bounded_tneg k t : bounded k t → bounded k (tneg t).
  Proof.
    revert k. induction t as [b|v l IHl h IHh]; simpl; intros k; [done|].
    intros (? & ? & ?). apply bounded_mk; auto.
  Qed.

Lemma reduced_tneg t : reduced t → reduced (tneg t).
  Proof.
    induction t as [b|v l IHl h IHh]; simpl; [done|].
    intros (? & ? & ?). apply reduced_mk; auto.
  Qed.

Lemma depth_tneg t : depth (tneg t) ≤ depth t.
  Proof.
    induction t as [b|v l IHl h IHh]; simpl; [done|].
    etrans; [apply depth_mk|]. lia.
  Qed.

Lemma tneg_involutive t k : bounded k t → reduced t → tneg (tneg t) = t.
  Proof.
    intros Hb Hr. eapply tree_canonical; eauto using bounded_tneg, reduced_tneg.
    intros e. rewrite !interp_tneg. by destruct (interp t e).
  Qed.

Lemma interp_trestrict pt t e :
    interp (trestrict pt t) e = interp t (override pt e).
  Proof.
    induction t as [b|v l IHl h IHh]; simpl; [done|].
    unfold override at 1. destruct (pt v) as [[|]|] eqn:Hv; auto.
    rewrite interp_mk. by rewrite IHl, IHh.
  Qed.

Lemma bounded_trestrict pt k t : bounded k t → bounded k (trestrict pt t).
  Proof.
    revert k. induction t as [b|v l IHl h IHh]; simpl; intros k; [done|].
    intros (? & ? & ?). destruct (pt v) as [[|]|].
    - apply IHh. eapply bounded_mono; [|done]. lia.
    - apply IHl. eapply bounded_mono; [|done]. lia.
    - apply bounded_mk; auto.
  Qed.

Lemma reduced_trestrict pt t : reduced t → reduced (trestrict pt t).
  Proof.
    induction t as [b|v l IHl h IHh]; simpl; [done|].
    intros (? & ? & ?). destruct (pt v) as [[|]|]; auto using reduced_mk.
  Qed.

Lemma depth_trestrict pt t : depth (trestrict pt t) ≤ depth t.
  Proof.
    induction t as [b|v l IHl h IHh]; simpl; [done|].
    destruct (pt v) as [[|]|]; [lia..|].
    etrans; [apply depth_mk|]. lia.
  Qed.

Lemma tvars_trestrict pt t x :
    x ∈ tvars (trestrict pt t) → x ∈ tvars t ∧ pt x = None.
  Proof.
    induction t as [b|v l IHl h IHh]; simpl; [set_solver|].
    destruct (pt v) as [[|]|] eqn:Hv.
    - intros Hin. apply IHh in Hin. set_solver.
    - intros Hin. apply IHl in Hin. set_solver.
    - intros Hin. apply tvars_mk in Hin as [->|[Hin|Hin]]; [set_solver|..].
      + apply IHl in Hin. set_solver.
      + apply IHh in Hin. set_solver.
  Qed.

  (** Restricting variables that do not occur changes nothing. *)
Lemma trestrict_fresh pt t :
    reduced t → (∀ x, x ∈ tvars t → pt x = None) → trestrict pt t = t.
  Proof.
    induction t as [b|v l IHl h IHh]; simpl; [done|].
    intros (Hlh & ? & ?) Hpt. rewrite (Hpt v) by set_solver.
    rewrite IHl, IHh; auto; [|intros; apply Hpt; set_solver..].
    unfold mk. by rewrite decide_False.
  Qed.

Lemma trestrict_idem pt pt' t :
    reduced t → (∀ x, pt x = None → pt' x = None) →
    trestrict pt' (trestrict pt t) = trestrict pt t.
  Proof.
    intros Hr Hpt. apply trestrict_fresh; [by apply reduced_trestrict|].
    intros x Hx. apply tvars_trestrict in Hx as [_ Hx]. auto.
  Qed.
End tree_ops.

(** ** The node store of [obdd.py] *)

(** The identity of an [OBDDNode] object: its position among the objects
    allocated so far. *)
Definition ref : Type := nat.

(** [class OBDDNode]: the children of the two terminal nodes are [None]. *)
Record OBDDNode : Type := mkOBDDNode {
  root : Z;
  lo : option ref;
  hi : option ref
}.

Global Instance OBDDNode_eq_dec : EqDecision OBDDNode.
Proof. solve_decision. Defined.

(** The allocated node objects and the table [_NODES], keyed by
    [(root, lo, hi)]; node objects hash by identity. *)
Record store : Type := mkStore {
  objs : list OBDDNode;
  _NODES : gmap (Z * option ref * option ref) ref
}.

Definition BDDNODEZERO : ref := 0.
Definition BDDNODEONE : ref := 1.

(** The store after the module is loaded: the two terminal nodes. *)
Definition store0 : store :=
  {| objs := [mkOBDDNode (-1) None None; mkOBDDNode (-2) None None];
     _NODES := <[((-2)%Z, None, None) := BDDNODEONE]>
                 (<[((-1)%Z, None, None) := BDDNODEZERO]> ∅) |}.

(** Reading the object behind a reference, and using a field that may hold
    [None] as a node. *)
Definition getobj (node : ref) : M store OBDDNode := λ s,
  match objs s !! node with
  | Some o => (Ok o, s)
  | None => (Raise AttributeError, s)
  end.

Definition the {S} (o : option ref) : M S ref :=
  match o with
  | Some r => ret r
  | None => raise AttributeError
  end.

(** [_obddnode(root, lo, hi)] *)
Definition _obddnode (root : Z) (lo hi : ref) : M store ref := λ s,
  if decide (lo = hi) then (Ok lo, s)
  else
    let key := (root, Some lo, Some hi) in
    match _NODES s !! key with
    | Some node => (Ok node, s)
    | None =>
        let node := length (objs s) in
        (Ok node,
         {| objs := objs s ++ [mkOBDDNode root (Some lo) (Some hi)];
            _NODES := <[key := node]> (_NODES s) |})
    end.

(** [_neg(node)] *)
Fixpoint _neg (lim : nat) (node : ref) : M store ref :=
  match lim with
  | O => raise RecursionError
  | S lim =>
      if decide (node = BDDNODEZERO) then ret BDDNODEONE
      else if decide (node = BDDNODEONE) then ret BDDNODEZERO
      else
        o <- getobj node;
        l <- the (lo o);
        nl <- _neg lim l;
        h <- the (hi o);
        nh <- _neg lim h;
        _obddnode (root o) nl nh
  end.

(** [_restrict(node, npoint, cache)]: [cache] is [None] for the default
    argument; the dictionary the call works on is returned with the node,
    since the callee's insertions are visible to the caller. *)
Fixpoint _restrict (lim : nat) (node : ref) (npoint : gmap Z ref)
    (cache : option (gmap ref ref)) : M store (ref * gmap ref ref) :=
  match lim with
  | O => raise RecursionError
  | S lim =>
      if decide (node = BDDNODEZERO ∨ node = BDDNODEONE)
      then ret (node, default ∅ cache)
      else
        let cache := default ∅ cache in
        match cache !! node with
        | Some r => ret (r, cache)
        | None =>
            o <- getobj node;
            '(r, cache) <-
              match npoint !! root o with
              | None =>
                  l <- the (lo o);
                  '(nl, cache) <- _restrict lim l npoint (Some cache);
                  h <- the (hi o);
                  '(nh, cache) <- _restrict lim h npoint (Some cache);
                  r <- _obddnode (root o) nl nh;
                  ret (r, cache)
              | Some val =>
                  child <-
                    (if decide (val = BDDNODEZERO) then ret (lo o)
                     else if decide (val = BDDNODEONE) then ret (hi o)
                     else raise KeyError);
                  child <- the child;
                  _restrict lim child npoint (Some cache)
              end;
            ret (r, <[node := r]> cache)
        end
  end.

(** [min] of a sequence: [ValueError] when it is empty. *)
Definition pymin (l : list Z) : result Z :=
  match l with
  | [] => Raise ValueError
  | x :: l => Ok (foldl Z.min x l)
  end.

Definition attr_root (node : ref) : M store Z :=
  o <- getobj node; ret (root o).

(** [_ite(f, g, h)] *)
Fixpoint _ite (lim : nat) (f g h : ref) : M store ref :=
  match lim with
  | O => raise RecursionError
  | S lim =>
      if decide (g = BDDNODEONE ∧ h = BDDNODEZERO) then ret f
      else if decide (g = BDDNODEZERO ∧ h = BDDNODEONE) then _neg lim f
      else if decide (f = BDDNODEONE) then ret g
      else if decide (f = BDDNODEZERO) then ret h
      else if decide (g = h) then ret g
      else
        rf <- attr_root f;
        rg <- attr_root g;
        rh <- attr_root h;
        root <- lift (pymin (filter (λ r, (r > 0)%Z) [rf; rg; rh]));
        let npoint0 : gmap Z ref := {[ root := BDDNODEZERO ]} in
        let npoint1 : gmap Z ref := {[ root := BDDNODEONE ]} in
        '(fv0, _) <- _restrict lim f npoint0 None;
        '(gv0, _) <- _restrict lim g npoint0 None;
        '(hv0, _) <- _restrict lim h npoint0 None;
        '(fv1, _) <- _restrict lim f npoint1 None;
        '(gv1, _) <- _restrict lim g npoint1 None;
        '(hv1, _) <- _restrict lim h npoint1 None;
        r0 <- _ite lim fv0 gv0 hv0;
        r1 <- _ite lim fv1 gv1 hv1;
        _obddnode root r0 r1
  end.

(** [_dfs_postorder(node, visited)]: the nodes the generator yields, in
    order, and the set [visited] as the traversal leaves it. *)
Fixpoint _dfs_postorder (lim : nat) (node : ref) (visited : gset ref)
    : M store (list ref * gset ref) :=
  match lim with
  | O => raise RecursionError
  | S lim =>
      o <- getobj node;
      '(ys1, visited) <-
        match lo o with
        | Some l => _dfs_postorder lim l visited
        | None => ret ([], visited)
        end;
      '(ys2, visited) <-
        match hi o with
        | Some h => _dfs_postorder lim h visited
        | None => ret ([], visited)
        end;
      if decide (node ∈ visited) then ret (ys1 ++ ys2, visited)
      else ret (ys1 ++ ys2 ++ [node], {[ node ]} ∪ visited)
  end.

(** [_dfs_preorder(node, visited)] *)
Fixpoint _dfs_preorder (lim : nat) (node : ref) (visited : gset ref)
    : M store (list ref * gset ref) :=
  match lim with
  | O => raise RecursionError
  | S lim =>
      '(ys0, visited) <-
        (if decide (node ∈ visited) then ret ([], visited)
         else ret ([node], {[ node ]} ∪ visited));
      o <- getobj node;
      '(ys1, visited) <-
        match lo o with
        | Some l => _dfs_preorder lim l visited
        | None => ret ([], visited)
        end;
      '(ys2, visited) <-
        match hi o with
        | Some h => _dfs_preorder lim h visited
        | None => ret ([], visited)
        end;
      ret (ys0 ++ ys1 ++ ys2, visited)
  end.

(** *** The Boolean function of a node *)

(** Following [lo] when the root variable is false and [hi] when it is
    true; the walk is as long as there are objects at most. *)
Fixpoint eval_walk (n : nat) (s : store) (node : ref) (e : env) : bool :=
  match n with
  | O => false
  | S n =>
      if decide (node = BDDNODEZERO) then false
      else if decide (node = BDDNODEONE) then true
      else match objs s !! node with
           | Some (mkOBDDNode v (Some l) (Some h)) =>
               if e v then eval_walk n s h e else eval_walk n s l e
           | _ => false
           end
  end.

Definition eval (s : store) (node : ref) (e : env) : bool :=
  eval_walk (length (objs s)) s node e.

(** [denotes s node t]: the graph below [node] unfolds to the tree [t]. *)
Inductive denotes (s : store) : ref → bdd → Prop :=
  | denotes_zero : denotes s BDDNODEZERO (Leaf false)
  | denotes_one : denotes s BDDNODEONE (Leaf true)
  | denotes_node a v l h tl th :
      a ≠ BDDNODEZERO → a ≠ BDDNODEONE →
      objs s !! a = Some (mkOBDDNode v (Some l) (Some h)) →
      denotes s l tl → denotes s h th →
      denotes s a (Node v tl th).

(** The invariant of the store. *)
Record wf (s : store) : Prop := mkWf {
  wf_zero : objs s !! BDDNODEZERO = Some (mkOBDDNode (-1) None None);
  wf_one : objs s !! BDDNODEONE = Some (mkOBDDNode (-2) None None);
  wf_table : ∀ k a,
    _NODES s !! k = Some a ↔ objs s !! a = Some (mkOBDDNode k.1.1 k.1.2 k.2);
  wf_lower : ∀ a o c,
    objs s !! a = Some o → lo o = Some c ∨ hi o = Some c → c < a;
  wf_den : ∀ a, a < length (objs s) → ∃ t, denotes s a t ∧ robdd t
}.

(** [root_in s v]: some node object of [s] has root [v]. *)
Definition root_in (s : store) (v : Z) : Prop :=
  ∃ a o, objs s !! a = Some o ∧ root o = v.

(** [grows s s']: every object of [s] is an object of [s']. *)
Definition grows (s s' : store) : Prop := objs s `prefix_of` objs s'.

(** [s ⊑ s']: [s'] has the objects of [s] and no root that [s] has not. *)
Definition extends (s s' : store) : Prop :=
  grows s s' ∧ ∀ v, root_in s' v → root_in s v.
Infix "⊑" := extends (at level 70).

(** *** Basic facts about the store *)

Global Instance extends_preorder : PreOrder extends.
Proof.
  split; unfold extends, grows.
  - intros s. split; [reflexivity|auto].
  - intros s1 s2 s3 [H12 R12] [H23 R23]. split; [by etrans|auto].
Qed.

Lemma grows_lookup s s' a o :
  grows s s' → objs s !! a = Some o → objs s' !! a = Some o.
Proof. intros Hs Ha. eapply prefix_lookup_Some; eauto. Qed.

Lemma extends_lookup s s' a o :
  s ⊑ s' → objs s !! a = Some o → objs s' !! a = Some o.
Proof. intros [Hs _]. by apply grows_lookup. Qed.

Lemma extends_length s s' : s ⊑ s' → length (objs s) ≤ length (objs s').
Proof. intros [Hs _]. by apply prefix_length. Qed.

Lemma root_in_extends s s' v : s ⊑ s' → root_in s v → root_in s' v.
Proof. intros Hs (a & o & Ha & Hv). exists a, o. eauto using extends_lookup. Qed.

Lemma denotes_grows s s' a t : grows s s' → denotes s a t → denotes s' a t.
Proof.
  intros Hs. induction 1; [constructor..|].
  econstructor; eauto using grows_lookup.
Qed.

Lemma denotes_extends s s' a t : s ⊑ s' → denotes s a t → denotes s' a t.
Proof. intros [Hs _]. by apply denotes_grows. Qed.

Lemma denotes_fun s a t1 t2 : denotes s a t1 → denotes s a t2 → t1 = t2.
Proof.
  intros H1. revert t2. induction H1; intros t2 H2; inversion H2; subst;
    try done.
  match goal with
  | H1 : objs s !! a = Some _, H2 : objs s !! a = Some _ |- _ =>
      rewrite H1 in H2; injection H2 as -> -> ->
  end.
  f_equal; auto.
Qed.

Lemma denotes_lt s a t : wf s → denotes s a t → a < length (objs s).
Proof.
  intros Hwf. destruct 1.
  - eapply lookup_lt_Some, wf_zero; eauto.
  - eapply lookup_lt_Some, wf_one; eauto.
  - eapply lookup_lt_Some; eauto.
Qed.

Lemma denotes_robdd s a t : wf s → denotes s a t → robdd t.
Proof.
  intros Hwf Ha. destruct (wf_den s Hwf a) as (t' & Ht' & Hr).
  { eapply denotes_lt; eauto. }
  by rewrite (denotes_fun _ _ _ _ Ha Ht').
Qed.

Lemma denotes_inj s a b t : wf s → denotes s a t → denotes s b t → a = b.
Proof.
  intros Hwf Ha. revert b. induction Ha; intros b Hb; inversion Hb; subst; try done.
  match goal with
  | Hl : denotes s ?l' tl, Hh : denotes s ?h' th |- _ =>
      apply IHHa1 in Hl; apply IHHa2 in Hh; subst l' h'
  end.
  match goal with
  | H1 : objs s !! a = Some ?o, H2 : objs s !! b = Some ?o |- _ =>
      apply (wf_table s Hwf (root o, lo o, hi o)) in H1;
      apply (wf_table s Hwf (root o, lo o, hi o)) in H2
  end.
  congruence.
Qed.

Lemma denotes_depth s a t : wf s → denotes s a t → depth t ≤ a.
Proof.
  intros Hwf. induction 1; simpl; [lia..|].
  assert (l < a) by (eapply (wf_lower s Hwf); eauto).
  assert (h < a) by (eapply (wf_lower s Hwf); eauto).
  lia.
Qed.

Lemma eval_walk_interp s a t e n :
  denotes s a t → depth t < n → eval_walk n s a e = interp t e.
Proof.
  intros Ha. revert n. induction Ha; intros n Hn.
  - destruct n; [lia|done].
  - destruct n; [lia|done].
  - destruct n; [lia|]. simpl in *.
    rewrite !decide_False by done.
    match goal with H : objs s !! a = Some _ |- _ => rewrite H end.
    rewrite IHHa1, IHHa2 by lia. done.
Qed.

Lemma eval_interp s a t e : wf s → denotes s a t → eval s a e = interp t e.
Proof.
  intros Hwf Ha. apply eval_walk_interp; [done|].
  pose proof (denotes_depth _ _ _ Hwf Ha). pose proof (denotes_lt _ _ _ Hwf Ha). lia.
Qed.

Lemma eval_extends s s' a e :
  wf s → wf s' → s ⊑ s' → a < length (objs s) → eval s' a e = eval s a e.
Proof.
  intros Hwf Hwf' Hs Ha. destruct (wf_den s Hwf a Ha) as (t & Ht & _).
  rewrite (eval_interp s a t), (eval_interp s' a t); eauto using denotes_extends.
Qed.

(** Canonicity of the store: two nodes with the same Boolean function are
    the same object. *)
Lemma store_canonical s a b :
  wf s → a < length (objs s) → b < length (objs s) →
  (∀ e, eval s a e = eval s b e) → a = b.
Proof.
  intros Hwf Ha Hb Heq.
  destruct (wf_den s Hwf a Ha) as (ta & Hta & Hra1 & Hra2).
  destruct (wf_den s Hwf b Hb) as (tb & Htb & Hrb1 & Hrb2).
  assert (ta = tb) as ->.
  { eapply tree_canonical; eauto. intros e.
    rewrite <- (eval_interp s a ta), <- (eval_interp s b tb); auto. }
  eapply denotes_inj; eauto.
Qed.

Lemma wf_store0 : wf store0.
Proof.
  split.
  - done.
  - done.
  - intros [[r l] h] a. unfold store0. simpl. split.
    + intros Hk. apply lookup_insert_Some in Hk as [[Hk <-]|[Hne Hk]].
      { by injection Hk as <- <- <-. }
      apply lookup_insert_Some in Hk as [[Hk <-]|[Hne' Hk]]; [|done].
      by injection Hk as <- <- <-.
    + intros Ha. destruct a as [|[|a]]; simpl in Ha; [| |done].
      * injection Ha as <- <- <-. done.
      * injection Ha as <- <- <-. done.
  - intros a o c Ha Hc. destruct a as [|[|a]]; simpl in Ha; [| |done];
      injection Ha as <-; simpl in Hc; by destruct Hc.
  - intros a Ha. destruct a as [|[|a]]; simpl in Ha; [| |lia].
    + exists (Leaf false). repeat split; constructor.
    + exists (Leaf true). repeat split; constructor.
Qed.

(** *** Outcomes of store computations *)

(** [post s out Q E]: the computation that started in [s] left a well-formed
    store extending [s]; its value satisfies [Q], or its exception [E]. *)
Definition post {A} (s : store) (out : result A * store)
    (Q : A → store → Prop) (E : exn → Prop) : Prop :=
  wf out.2 ∧ s ⊑ out.2 ∧
  match out.1 with Ok a => Q a out.2 | Raise e => E e end.

Lemma post_intro {A} s (r : result A) s' (Q : A → store → Prop) E :
  wf s' → s ⊑ s' → match r with Ok a => Q a s' | Raise e => E e end →
  post s (r, s') Q E.
Proof. by split. Qed.

Lemma post_ret {A} s (a : A) (Q : A → store → Prop) E :
  wf s → Q a s → post s (ret a s) Q E.
Proof. intros. by apply post_intro. Qed.

Lemma post_raise {A} s e (Q : A → store → Prop) (E : exn → Prop) :
  wf s → E e → post s (raise e s) Q E.
Proof. intros. by apply post_intro. Qed.

Lemma post_bind {A B} s (m : M store A) (k : A → M store B) Q1 Q2 E :
  post s (m s) Q1 E →
  (∀ a s1, wf s1 → s ⊑ s1 → Q1 a s1 → post s1 (k a s1) Q2 E) →
  post s (bind m k s) Q2 E.
Proof.
  unfold post, bind. destruct (m s) as [[a|e] s1]; simpl.
  - intros (Hwf & Hs & HQ) Hk. destruct (Hk a s1 Hwf Hs HQ) as (? & ? & ?).
    split; [done|]. split; [by etrans|done].
  - intros (Hwf & Hs & HE) _. by split.
Qed.

Lemma post_mono {A} s out (Q Q' : A → store → Prop) (E E' : exn → Prop) :
  post s out Q E →
  (∀ a s', wf s' → s ⊑ s' → Q a s' → Q' a s') → (∀ e, E e → E' e) →
  post s out Q' E'.
Proof.
  unfold post. destruct out as [[a|e] s']; simpl; intros (? & ? & ?) HQ HE;
    (split; [done|]); (split; [done|]); auto.
Qed.

Lemma post_getobj s a o (Q : OBDDNode → store → Prop) E :
  wf s → objs s !! a = Some o → Q o s → post s (getobj a s) Q E.
Proof. intros Hwf Ha HQ. unfold getobj. rewrite Ha. by apply post_intro. Qed.

Lemma obj_eta o : mkOBDDNode (root o) (lo o) (hi o) = o.
Proof. by destruct o. Qed.

(** [_obddnode] returns the node of [mk v tl th] and keeps the store
    well formed; the only root it may add is [v]. *)
Lemma obddnode_core s v l h tl th :
  wf s → denotes s l tl → denotes s h th →
  (0 < v)%Z → bounded v tl → bounded v th →
  ∃ r s', _obddnode v l h s = (Ok r, s') ∧ wf s' ∧ grows s s' ∧
          denotes s' r (mk v tl th) ∧
          ∀ w, root_in s' w → root_in s w ∨ w = v.
Proof.
  intros Hwf Hl Hh Hv Hbl Hbh. unfold _obddnode, mk.
  destruct (decide (l = h)) as [->|Hlh].
  { rewrite (denotes_fun _ _ _ _ Hl Hh), decide_True by done.
    exists h, s. split; [done|]. split; [done|]. split; [by unfold grows|].
    split; [done|auto]. }
  assert (tl ≠ th) as Hne.
  { intros ->. apply Hlh. eapply denotes_inj; eauto. }
  rewrite decide_False by done.
  destruct (_NODES s !! (v, Some l, Some h)) as [node|] eqn:Hk.
  - exists node, s. split; [done|]. split; [done|]. split; [by unfold grows|].
    split; [|auto].
    apply (wf_table s Hwf) in Hk. simpl in Hk.
    econstructor; eauto.
    + intros ->. by rewrite (wf_zero s Hwf) in Hk.
    + intros ->. by rewrite (wf_one s Hwf) in Hk.
  - set (o := mkOBDDNode v (Some l) (Some h)).
    set (s' := {| objs := objs s ++ [o];
                  _NODES := <[(v, Some l, Some h) := length (objs s)]> (_NODES s) |}).
    assert (grows s s') as Hs by (by apply prefix_app_r).
    assert (objs s' !! length (objs s) = Some o) as Hnew.
    { simpl. rewrite lookup_app_r by lia. by rewrite Nat.sub_diag. }
    pose proof (lookup_lt_Some _ _ _ (wf_zero s Hwf)) as Hlen0.
    pose proof (lookup_lt_Some _ _ _ (wf_one s Hwf)) as Hlen1.
    unfold BDDNODEZERO, BDDNODEONE in Hlen0, Hlen1.
    assert (denotes s' (length (objs s)) (Node v tl th)) as Hden.
    { econstructor; eauto using denotes_grows;
        unfold BDDNODEZERO, BDDNODEONE; lia. }
    assert (∀ a o', objs s' !! a = Some o' →
              objs s !! a = Some o' ∨ (a = length (objs s) ∧ o' = o)) as Hcases.
    { intros a o' Ha. destruct (decide (a < length (objs s))) as [Hlt|Hge].
      { left. simpl in Ha. by rewrite lookup_app_l in Ha. }
      right. pose proof (lookup_lt_Some _ _ _ Ha) as Hlt.
      simpl in Hlt. rewrite length_app in Hlt. simpl in Hlt.
      assert (a = length (objs s)) as -> by lia.
      rewrite Hnew in Ha. by injection Ha as <-. }
    exists (length (objs s)), s'. split; [done|]. split; [|split; [done|split; [done|]]].
    2:{ intros w (a & o' & Ha & Hw). apply Hcases in Ha as [Ha|[_ ->]].
        - left. by exists a, o'.
        - by right. }
    split.
    + apply (grows_lookup s s'); [done|]. apply (wf_zero s Hwf).
    + apply (grows_lookup s s'); [done|]. apply (wf_one s Hwf).
    + intros [[r kl] kh] a.
      change (_NODES s') with (<[(v, Some l, Some h) := length (objs s)]> (_NODES s)).
      cbn [fst snd].
      destruct (decide ((v, Some l, Some h) = (r, kl, kh))) as [Heq|Hneq].
      * injection Heq as <- <- <-. rewrite lookup_insert_eq.
        split; [intros [= <-]; apply Hnew|].
        intros Ha. apply Hcases in Ha as [Ha|[-> _]]; [|done].
        apply (wf_table s Hwf (v, Some l, Some h)) in Ha. congruence.
      * rewrite lookup_insert_ne by done.
        rewrite (wf_table s Hwf (r, kl, kh) a). cbn [fst snd].
        split; [apply (grows_lookup s s'); done|].
        intros Ha. apply Hcases in Ha as [Ha|[_ Ha]]; [done|].
        unfold o in Ha. injection Ha as -> -> ->. done.
    + intros a o' c Ha Hc. apply Hcases in Ha as [Ha|[-> ->]].
      { eapply (wf_lower s Hwf); eauto. }
      simpl in Hc.
      destruct Hc as [[= <-]|[= <-]]; eapply denotes_lt; eauto.
    + intros a Ha. simpl in Ha. rewrite length_app in Ha. simpl in Ha.
      destruct (decide (a < length (objs s))) as [Hlt|Hge].
      { destruct (wf_den s Hwf a Hlt) as (t & Ht & Hr).
        exists t. split; [|done]. by apply (denotes_grows s s'). }
      assert (a = length (objs s)) as -> by lia.
      exists (Node v tl th). split; [done|].
      destruct (denotes_robdd _ _ _ Hwf Hl), (denotes_robdd _ _ _ Hwf Hh).
      repeat split; auto.
Qed.

Lemma obddnode_spec s v l h tl th E :
  wf s → denotes s l tl → denotes s h th →
  (0 < v)%Z → bounded v tl → bounded v th → root_in s v →
  post s (_obddnode v l h s) (λ r s', denotes s' r (mk v tl th)) E.
Proof.
  intros Hwf Hl Hh Hv Hbl Hbh Hin.
  destruct (obddnode_core s v l h tl th) as (r & s' & -> & Hwf' & Hg & Hr & Hroots);
    auto.
  apply post_intro; [done| |done]. split; [done|].
  intros w Hw. destruct (Hroots w Hw) as [?| ->]; done.
Qed.

Lemma bind_getobj {B} s a o (k : OBDDNode → M store B) :
  objs s !! a = Some o → bind (getobj a) k s = k o s.
Proof. intros Ha. unfold bind, getobj. by rewrite Ha. Qed.

Lemma bind_ret {S A B} (a : A) (k : A → M S B) s : bind (ret a) k s = k a s.
Proof. done. Qed.

Lemma bind_the {S B} (r : ref) (k : ref → M S B) s :
  bind (the (Some r)) k s = k r s.
Proof. done. Qed.

Lemma bind_attr_root {B} s a o (k : Z → M store B) :
  objs s !! a = Some o → bind (attr_root a) k s = k (root o) s.
Proof. intros Ha. unfold attr_root, bind, getobj. by rewrite Ha. Qed.

(** *** Negation *)

Lemma neg_spec lim : ∀ s a t,
  wf s → denotes s a t →
  post s (_neg lim a s) (λ r s', denotes s' r (tneg t))
    (λ e, e = RecursionError ∧ lim ≤ depth t).
Proof.
  induction lim as [|lim IH]; intros s a t Hwf Ha.
  { apply post_raise; [done|]. split; [done|lia]. }
  simpl. destruct Ha as [| |a v l h tl th Hz Ho Hobj Hl Hh].
  - apply post_ret; [done|constructor].
  - apply post_ret; [done|constructor].
  - rewrite !decide_False by done.
    rewrite (bind_getobj _ _ _ _ Hobj). simpl lo. rewrite bind_the.
    destruct (denotes_robdd _ _ _ Hwf (denotes_node s a v l h tl th Hz Ho Hobj Hl Hh))
      as [(Hv & Hbl & Hbh) _].
    eapply post_bind.
    { eapply post_mono; [apply (IH s l tl Hwf Hl)|..].
      - intros r s' _ _ Hr. exact Hr.
      - simpl. intros e [-> ?]. split; [done|lia]. }
    intros nl s1 Hwf1 Hs1 Hnl. simpl hi. rewrite bind_the.
    eapply post_bind.
    { eapply post_mono; [apply (IH s1 h th Hwf1); by eapply denotes_extends|..].
      - intros r s' _ Hs' Hr. exact (conj Hr Hs').
      - simpl. intros e [-> ?]. split; [done|lia]. }
    intros nh s2 Hwf2 Hs2 [Hnh Hs12]. simpl root.
    apply obddnode_spec; eauto using denotes_extends, bounded_tneg.
    apply (root_in_extends s s2); [by etrans|]. by eexists a, _.
Qed.

(** *** Restriction *)

(** The point a dictionary [npoint] stands for: a variable mapped to a
    terminal node is assigned, any other is left alone. *)
Definition pt_of (npoint : gmap Z ref) : Z → option bool :=
  λ v, match npoint !! v with
       | Some val =>
           if decide (val = BDDNODEZERO) then Some false
           else if decide (val = BDDNODEONE) then Some true
           else None
       | None => None
       end.

Definition npoint_ok (npoint : gmap Z ref) : Prop :=
  ∀ v val, npoint !! v = Some val → val = BDDNODEZERO ∨ val = BDDNODEONE.

Definition cache_ok (s : store) (pt : Z → option bool) (cache : gmap ref ref) : Prop :=
  ∀ a r, cache !! a = Some r →
    ∃ t, denotes s a t ∧ denotes s r (trestrict pt t).

Lemma cache_ok_extends s s' pt cache :
  s ⊑ s' → cache_ok s pt cache → cache_ok s' pt cache.
Proof.
  intros Hs Hc a r Ha. destruct (Hc a r Ha) as (t & ? & ?).
  exists t. eauto using denotes_extends.
Qed.

Lemma cache_ok_empty s pt : cache_ok s pt ∅.
Proof. intros a r Ha. by rewrite lookup_empty in Ha. Qed.

Lemma cache_ok_insert s pt cache a r t :
  cache_ok s pt cache → denotes s a t → denotes s r (trestrict pt t) →
  cache_ok s pt (<[a := r]> cache).
Proof.
  intros Hc Ha Hr a' r' Hl. apply lookup_insert_Some in Hl as [[<- <-]|[_ Hl]]; eauto.
Qed.

(** The exceptions of [_restrict]: the recursion limit, or a variable of the
    diagram that the point maps to a node that is not a terminal. *)
Definition restrict_exn (lim : nat) (t : bdd) (npoint : gmap Z ref) (e : exn) : Prop :=
  (e = RecursionError ∧ lim ≤ depth t) ∨
  (e = KeyError ∧ ∃ v val, v ∈ tvars t ∧ npoint !! v = Some val ∧
                           val ≠ BDDNODEZERO ∧ val ≠ BDDNODEONE).

Lemma restrict_exn_lo lim v tl th npoint e :
  restrict_exn lim tl npoint e → restrict_exn (S lim) (Node v tl th) npoint e.
Proof.
  intros [[-> ?]|[-> (w & val & Hw & ?)]]; [left|right].
  - split; [done|simpl; lia].
  - split; [done|]. exists w, val. split; [|done]. simpl. set_solver.
Qed.

Lemma restrict_exn_hi lim v tl th npoint e :
  restrict_exn lim th npoint e → restrict_exn (S lim) (Node v tl th) npoint e.
Proof.
  intros [[-> ?]|[-> (w & val & Hw & ?)]]; [left|right].
  - split; [done|simpl; lia].
  - split; [done|]. exists w, val. split; [|done]. simpl. set_solver.
Qed.

Lemma restrict_spec lim : ∀ s a t npoint cache,
  wf s → denotes s a t →
  cache_ok s (pt_of npoint) (default ∅ cache) →
  post s (_restrict lim a npoint cache s)
    (λ rc s', denotes s' rc.1 (trestrict (pt_of npoint) t) ∧
              cache_ok s' (pt_of npoint) rc.2)
    (restrict_exn lim t npoint).
Proof.
  induction lim as [|lim IH]; intros s a t npoint cache Hwf Ha Hc.
  { apply post_raise; [done|]. left. split; [done|lia]. }
  simpl. pose proof Ha as Hat.
  destruct Ha as [| |a v l h tl th Hz Ho Hobj Hl Hh].
  - rewrite decide_True by auto. apply post_ret; [done|]. split; [constructor|done].
  - rewrite decide_True by auto. apply post_ret; [done|]. split; [constructor|done].
  - rewrite decide_False by (intros [?|?]; done).
    destruct (default ∅ cache !! a) as [r|] eqn:Hca.
    { apply post_ret; [done|]. split; [|done].
      destruct (Hc a r Hca) as (t' & Ht' & Hr).
      rewrite <- (denotes_fun _ _ _ _ Hat Ht') in Hr. exact Hr. }
    rewrite (bind_getobj _ _ _ _ Hobj). simpl root. simpl lo. simpl hi.
    destruct (denotes_robdd _ _ _ Hwf Hat) as [(Hv & Hbl & Hbh) _].
    eapply post_bind with
      (Q1 := λ rc s', denotes s' rc.1 (trestrict (pt_of npoint) (Node v tl th)) ∧
                      cache_ok s' (pt_of npoint) rc.2).
    2:{ intros [r c] s1 Hwf1 Hs1 [Hr Hc1]. apply post_ret; [done|]. simpl in *.
        split; [done|]. eapply cache_ok_insert; eauto using denotes_extends. }
    simpl trestrict. unfold pt_of at 1 3.
    destruct (npoint !! v) as [val|] eqn:Hval.
    + destruct (decide (val = BDDNODEZERO)) as [->|Hv0];
        [|destruct (decide (val = BDDNODEONE)) as [->|Hv1]].
      * rewrite bind_ret, bind_the.
        eapply post_mono; [apply (IH s l tl npoint (Some (default ∅ cache))); auto|..].
        -- intros [r c] s' _ _ HQ. exact HQ.
        -- apply restrict_exn_lo.
      * rewrite bind_ret, bind_the.
        eapply post_mono; [apply (IH s h th npoint (Some (default ∅ cache))); auto|..].
        -- intros [r c] s' _ _ HQ. exact HQ.
        -- apply restrict_exn_hi.
      * apply post_raise; [done|]. right. split; [done|].
        exists v, val. split; [simpl; set_solver|done].
    + rewrite bind_the.
      eapply post_bind.
      { eapply post_mono; [apply (IH s l tl npoint (Some (default ∅ cache))); auto|..].
        - intros rc s' _ _ HQ. exact HQ.
        - apply restrict_exn_lo. }
      intros [nl c1] s1 Hwf1 Hs1 [Hnl Hc1]. simpl in Hnl, Hc1. rewrite bind_the.
      eapply post_bind.
      { eapply post_mono;
          [apply (IH s1 h th npoint (Some c1)); eauto using denotes_extends|..].
        - intros rc s' _ Hs' HQ. exact (conj HQ Hs').
        - apply restrict_exn_hi. }
      intros [nh c2] s2 Hwf2 Hs2 [[Hnh Hc2] Hs12]. simpl in Hnh, Hc2.
      eapply post_bind.
      { apply (obddnode_spec s2 v nl nh (trestrict (pt_of npoint) tl)
                 (trestrict (pt_of npoint) th));
          eauto using denotes_extends, bounded_trestrict.
        apply (root_in_extends s s2); [by etrans|]. by eexists a, _. }
      intros r s3 Hwf3 Hs3 Hr. apply post_ret; [done|]. simpl.
      split; [done|]. eauto using cache_ok_extends.
Qed.

(** *** If-then-else *)

(** The [root] attribute of the node of a tree. *)
Definition troot (t : bdd) : Z :=
  match t with
  | Leaf false => -1
  | Leaf true => -2
  | Node v _ _ => v
  end.

(** [above x t]: the root variable of [t], if it has one, is not below [x]. *)
Definition above (x : Z) (t : bdd) : Prop :=
  match t with
  | Leaf _ => True
  | Node v _ _ => (x ≤ v)%Z
  end.

(** The cofactor of a tree whose root variable is not below [x]. *)
Definition cof (x : Z) (b : bool) (t : bdd) : bdd :=
  match t with
  | Leaf _ => t
  | Node v l h => if decide (v = x) then (if b then h else l) else t
  end.

Definition term (b : bool) : ref := if b then BDDNODEONE else BDDNODEZERO.

Lemma denotes_root s a t :
  wf s → denotes s a t → ∃ o, objs s !! a = Some o ∧ root o = troot t.
Proof.
  intros Hwf. destruct 1.
  - eexists. split; [apply (wf_zero s Hwf)|done].
  - eexists. split; [apply (wf_one s Hwf)|done].
  - eexists. split; [done|done].
Qed.

Lemma denotes_zero_inv s t : denotes s BDDNODEZERO t → t = Leaf false.
Proof. intros H. eapply denotes_fun; [done|constructor]. Qed.

Lemma denotes_one_inv s t : denotes s BDDNODEONE t → t = Leaf true.
Proof. intros H. eapply denotes_fun; [done|constructor]. Qed.

Lemma denotes_leaf_inv s a b : denotes s a (Leaf b) → a = term b.
Proof. by inversion 1. Qed.

Lemma trestrict_ext pt pt' t :
  (∀ v, pt v = pt' v) → trestrict pt t = trestrict pt' t.
Proof.
  intros Hpt. induction t as [b|v l IHl h IHh]; simpl; [done|].
  by rewrite Hpt, IHl, IHh.
Qed.

Lemma pt_of_singleton x b v : pt_of {[ x := term b ]} v = single x b v.
Proof.
  unfold pt_of, single. destruct (decide (v = x)) as [->|Hne].
  - rewrite lookup_singleton_eq. by destruct b.
  - by rewrite lookup_singleton_ne.
Qed.

Lemma npoint_ok_singleton x b : npoint_ok {[ x := term b ]}.
Proof.
  intros v val Hv. apply lookup_singleton_Some in Hv as [_ <-].
  destruct b; auto.
Qed.

Lemma trestrict_single_cof x b t k :
  bounded k t → reduced t → above x t → trestrict (single x b) t = cof x b t.
Proof.
  destruct t as [c|v l h]; simpl; [done|].
  intros (Hk & Hbl & Hbh) (Hlh & Hrl & Hrh) Hx.
  assert (∀ t', reduced t' → bounded v t' → trestrict (single x b) t' = t') as Hfresh.
  { intros t' Hr Hb. apply trestrict_fresh; [done|]. intros w Hw.
    eapply bounded_tvars in Hw; eauto. unfold single. apply decide_False. lia. }
  unfold single at 1. destruct (decide (v = x)) as [->|Hne].
  - destruct b; auto.
  - rewrite !Hfresh by done. unfold mk. by rewrite decide_False.
Qed.

Lemma bounded_cof x b t k : bounded k t → above x t → bounded x (cof x b t).
Proof.
  destruct t as [c|v l h]; simpl; [done|]. intros (Hk & Hbl & Hbh) Hx.
  destruct (decide (v = x)) as [->|Hne]; [by destruct b|].
  simpl. repeat split; [lia|done..].
Qed.

Lemma above_bounded x t k : bounded k t → above x t → bounded (x - 1) t.
Proof.
  destruct t as [c|v l h]; simpl; [done|]. intros (Hk & Hbl & Hbh) Hx.
  repeat split; [lia|done..].
Qed.

Lemma depth_cof x b t : depth (cof x b t) ≤ depth t.
Proof.
  destruct t as [c|v l h]; simpl; [done|].
  destruct (decide (v = x)); [destruct b|]; simpl; lia.
Qed.

Lemma depth_cof_lt (x : Z) b t :
  (0 < x)%Z → troot t = x → depth (cof x b t) < depth t.
Proof.
  destruct t as [[|]|v l h]; simpl; [lia..|]. intros _ ->.
  rewrite decide_True by done. destruct b; lia.
Qed.

Lemma interp_cof x b t k e :
  bounded k t → reduced t → above x t → e x = b →
  interp (cof x b t) e = interp t e.
Proof.
  intros Hb Hr Hx He. rewrite <- (trestrict_single_cof x b t k) by done.
  rewrite interp_trestrict. apply interp_ext. intros v _.
  unfold override, single. case_decide; by subst.
Qed.

(** The splitting variable: the least positive root. *)
Lemma minroot_spec tf tg th v l h :
  tf = Node v l h → robdd tf → robdd tg → robdd th →
  ∃ x, pymin (filter (λ r, (r > 0)%Z) [troot tf; troot tg; troot th]) = Ok x ∧
       (0 < x)%Z ∧ above x tf ∧ above x tg ∧ above x th ∧
       (troot tf = x ∨ troot tg = x ∨ troot th = x).
Proof.
  intros -> [(Hv & _) _] [Hg _] [Hh _]. simpl troot at 1.
  rewrite filter_cons_True by lia.
  destruct tg as [[|]|vg lg hg], th as [[|]|vh lh hh]; simpl in Hg, Hh;
    destruct_and?; simpl troot;
    repeat (first [rewrite filter_cons_False by lia|rewrite filter_cons_True by lia]);
    rewrite ?filter_nil; simpl; eexists; (split; [reflexivity|]); lia.
Qed.

Lemma restrict_cof_spec lim s a t x b :
  wf s → denotes s a t → above x t →
  post s (_restrict lim a {[ x := term b ]} None s)
    (λ rc s', denotes s' rc.1 (cof x b t))
    (λ e, e = RecursionError ∧ lim ≤ depth t).
Proof.
  intros Hwf Ha Hx. destruct (denotes_robdd _ _ _ Hwf Ha) as [Hb Hr].
  eapply post_mono; [apply (restrict_spec lim s a t {[ x := term b ]} None); auto|..].
  - apply cache_ok_empty.
  - intros rc s' _ _ [Hrc _].
    rewrite (trestrict_ext _ (single x b)) in Hrc by apply pt_of_singleton.
    by rewrite (trestrict_single_cof x b t 0) in Hrc.
  - intros e [?|[_ (v & val & _ & Hv & H0 & H1)]]; [done|].
    destruct (npoint_ok_singleton x b v val Hv); done.
Qed.

Lemma post_bind' {A B} s (m : M store A) (k : A → M store B) Q1 Q2 (E1 E : exn → Prop) :
  post s (m s) Q1 E1 →
  (∀ e, E1 e → E e) →
  (∀ a s1, wf s1 → s ⊑ s1 → Q1 a s1 → post s1 (k a s1) Q2 E) →
  post s (bind m k s) Q2 E.
Proof.
  intros Hm HE Hk. eapply post_bind; [|exact Hk].
  eapply post_mono; [exact Hm|auto..].
Qed.

Lemma bind_lift_ok {S A B} (a : A) (k : A → M S B) s : bind (lift (Ok a)) k s = k a s.
Proof. done. Qed.

Lemma bounded_troot k t x : bounded k t → troot t = x → (0 < x)%Z → (k < x)%Z.
Proof. destruct t as [[|]|v l h]; simpl; [lia..|]. intros (? & _) <- _. done. Qed.

(** Moving what is known about a node to a later store. *)
Ltac fwd :=
  repeat match goal with
  | H : denotes ?s ?a ?t, Hs : ?s ⊑ ?s' |- _ =>
      apply (denotes_extends s s' a t Hs) in H
  | H : root_in ?s ?v, Hs : ?s ⊑ ?s' |- _ =>
      apply (root_in_extends s s' v Hs) in H
  end.

Definition ite_sem (tf tg th tr : bdd) : Prop :=
  ∀ e, interp tr e = if interp tf e then interp tg e else interp th e.

Definition ite_post (tf tg th : bdd) (r : ref) (s' : store) : Prop :=
  ∃ tr, denotes s' r tr ∧ ite_sem tf tg th tr ∧
        (∀ k, bounded k tf → bounded k tg → bounded k th → bounded k tr) ∧
        depth tr ≤ depth tf + depth tg + depth th.

Lemma ite_spec lim : ∀ s f g h tf tg th,
  wf s → denotes s f tf → denotes s g tg → denotes s h th →
  post s (_ite lim f g h s) (ite_post tf tg th)
    (λ e, e = RecursionError ∧ lim ≤ depth tf + depth tg + depth th + 1).
Proof.
  induction lim as [|lim IH]; intros s f g h tf tg th Hwf Hf Hg Hh.
  { apply post_raise; [done|]. split; [done|lia]. }
  simpl.
  destruct (decide (g = BDDNODEONE ∧ h = BDDNODEZERO)) as [[-> ->]|H1].
  { apply denotes_one_inv in Hg as ->. apply denotes_zero_inv in Hh as ->.
    apply post_ret; [done|]. exists tf. split; [done|]. split; [|split; [auto|lia]].
    intros e. simpl. by destruct (interp tf e). }
  destruct (decide (g = BDDNODEZERO ∧ h = BDDNODEONE)) as [[-> ->]|H2].
  { apply denotes_zero_inv in Hg as ->. apply denotes_one_inv in Hh as ->.
    eapply post_mono; [apply (neg_spec lim s f tf); auto|..].
    - intros r s' _ _ Hr. exists (tneg tf). split; [done|]. split; [|split].
      + intros e. rewrite interp_tneg. simpl. by destruct (interp tf e).
      + intros k Hk _ _. by apply bounded_tneg.
      + pose proof (depth_tneg tf). lia.
    - intros e [-> ?]. split; [done|lia]. }
  destruct (decide (f = BDDNODEONE)) as [->|H3].
  { apply denotes_one_inv in Hf as ->. apply post_ret; [done|].
    exists tg. split; [done|]. split; [by intros e|split; [auto|simpl; lia]]. }
  destruct (decide (f = BDDNODEZERO)) as [->|H4].
  { apply denotes_zero_inv in Hf as ->. apply post_ret; [done|].
    exists th. split; [done|]. split; [by intros e|split; [auto|simpl; lia]]. }
  destruct (decide (g = h)) as [->|H5].
  { rewrite (denotes_fun _ _ _ _ Hh Hg). apply post_ret; [done|].
    exists tg. split; [done|]. split; [|split; [auto|lia]].
    intros e. by destruct (interp tf e). }
  destruct (denotes_robdd _ _ _ Hwf Hf) as [Hbf Hrf].
  destruct (denotes_robdd _ _ _ Hwf Hg) as [Hbg Hrg].
  destruct (denotes_robdd _ _ _ Hwf Hh) as [Hbh Hrh].
  destruct (denotes_root _ _ _ Hwf Hf) as (obf & Hof & Hrootf).
  destruct (denotes_root _ _ _ Hwf Hg) as (og & Hog & Hrootg).
  destruct (denotes_root _ _ _ Hwf Hh) as (oh & Hoh & Hrooth).
  rewrite (bind_attr_root _ _ _ _ Hof), (bind_attr_root _ _ _ _ Hog),
    (bind_attr_root _ _ _ _ Hoh), Hrootf, Hrootg, Hrooth.
  assert (∃ v l r, tf = Node v l r) as (v & tl & tr & Htf).
  { destruct Hf; [done|done|eauto]. }
  destruct (minroot_spec tf tg th v tl tr Htf) as (x & -> & Hx & Haf & Hag & Hah & Hmin);
    [done..|].
  rewrite bind_lift_ok. clear Htf v tl tr.
  assert (root_in s x) as Hrx.
  { destruct Hmin as [<-|[<-|<-]]; eexists _, _; eauto. }
  assert (∀ b, depth (cof x b tf) + depth (cof x b tg) + depth (cof x b th)
               < depth tf + depth tg + depth th) as Hdepth.
  { intros b. pose proof (depth_cof x b tf). pose proof (depth_cof x b tg).
    pose proof (depth_cof x b th).
    destruct Hmin as [Hm|[Hm|Hm]]; pose proof (depth_cof_lt x b _ Hx Hm); lia. }
  pose proof (depth_cof x false tf). pose proof (depth_cof x false tg).
  pose proof (depth_cof x false th).
  eapply post_bind'; [apply (restrict_cof_spec lim s f tf x false); auto
    |intros e [-> ?]; split; [done|lia]|].
  intros [fv0 ?] s1 Hwf1 Hs1 Hfv0. simpl in Hfv0. fwd.
  eapply post_bind'; [apply (restrict_cof_spec lim s1 g tg x false); auto
    |intros e [-> ?]; split; [done|lia]|].
  intros [gv0 ?] s2 Hwf2 Hs2 Hgv0. simpl in Hgv0. fwd.
  eapply post_bind'; [apply (restrict_cof_spec lim s2 h th x false); auto
    |intros e [-> ?]; split; [done|lia]|].
  intros [hv0 ?] s3 Hwf3 Hs3 Hhv0. simpl in Hhv0. fwd.
  eapply post_bind'; [apply (restrict_cof_spec lim s3 f tf x true); auto
    |intros e [-> ?]; split; [done|lia]|].
  intros [fv1 ?] s4 Hwf4 Hs4 Hfv1. simpl in Hfv1. fwd.
  eapply post_bind'; [apply (restrict_cof_spec lim s4 g tg x true); auto
    |intros e [-> ?]; split; [done|lia]|].
  intros [gv1 ?] s5 Hwf5 Hs5 Hgv1. simpl in Hgv1. fwd.
  eapply post_bind'; [apply (restrict_cof_spec lim s5 h th x true); auto
    |intros e [-> ?]; split; [done|lia]|].
  intros [hv1 ?] s6 Hwf6 Hs6 Hhv1. simpl in Hhv1. fwd.
  eapply post_bind'; [apply (IH s6 fv0 gv0 hv0 _ _ _ Hwf6 Hfv0 Hgv0 Hhv0)
    |intros e [-> ?]; split; [done|specialize (Hdepth false); lia]|].
  intros r0 s7 Hwf7 Hs7 (tr0 & Hr0 & Hsem0 & Hbd0 & Hd0). fwd.
  eapply post_bind'; [apply (IH s7 fv1 gv1 hv1 _ _ _ Hwf7 Hfv1 Hgv1 Hhv1)
    |intros e [-> ?]; split; [done|specialize (Hdepth true); lia]|].
  intros r1 s8 Hwf8 Hs8 (tr1 & Hr1 & Hsem1 & Hbd1 & Hd1). fwd.
  assert (bounded x tr0) as Hb0 by (apply Hbd0; eapply bounded_cof; eauto).
  assert (bounded x tr1) as Hb1 by (apply Hbd1; eapply bounded_cof; eauto).
  eapply post_mono;
    [apply (obddnode_spec s8 x r0 r1 tr0 tr1 (λ _, False)); auto|..];
    [|by intros e []].
  intros r s9 _ _ Hr. exists (mk x tr0 tr1). split; [done|]. split; [|split].
  3:{ pose proof (depth_mk x tr0 tr1). pose proof (Hdepth false).
      pose proof (Hdepth true). lia. }
  - intros e. rewrite interp_mk. destruct (e x) eqn:Hex.
    + rewrite Hsem1. by rewrite !(interp_cof x true _ 0).
    + rewrite Hsem0. by rewrite !(interp_cof x false _ 0).
  - intros k Hkf Hkg Hkh. apply bounded_mk; [|done..].
    destruct Hmin as [Hm|[Hm|Hm]];
      [apply (bounded_troot k tf)|apply (bounded_troot k tg)
      |apply (bounded_troot k th)]; done.
Qed.

(** ** The variable registry of [boolean.py] *)

(** The fields of a [Variable] object.  A variable's identity is the pair
    [(names, indices)] as a dictionary key compares it: names as strings,
    indices as integers ([True] and [1] are the same key). *)
Record BoolVariable : Type := mkVariable {
  uniqid : Z;
  names : list string;
  indices : list Z
}.

Global Instance BoolVariable_eq_dec : EqDecision BoolVariable.
Proof. solve_decision. Defined.

(** The module state: the [Variable] objects [var] has created (a
    reference is a position in [vobjs]), the dictionaries [VARIABLES] and
    [_UNIQIDS], and the counter [_COUNT]. *)
Record registry : Type := mkRegistry {
  vobjs : list BoolVariable;
  VARIABLES : gmap (list string * list Z) nat;
  _UNIQIDS : gmap (list string * list Z) Z;
  _COUNT : Z
}.

Definition registry0 : registry :=
  {| vobjs := []; VARIABLES := ∅; _UNIQIDS := ∅; _COUNT := 1 |}.

(** [Variable.__init__(self, names, indices)]: the fields it gives [self]. *)
Definition Variable__init__ (names : list string) (indices : list Z)
    : M registry BoolVariable := λ r,
  let uniqid := default (_COUNT r) (_UNIQIDS r !! (names, indices)) in
  let r' :=
    if decide (uniqid = _COUNT r)
    then {| vobjs := vobjs r; VARIABLES := VARIABLES r;
            _UNIQIDS := <[(names, indices) := uniqid]> (_UNIQIDS r);
            _COUNT := (_COUNT r + 1)%Z |}
    else r in
  (Ok (mkVariable uniqid names indices), r').

Section var.
Context {O : Type}.

(** The sequence [names] that [var] derives from its argument [name], and
    the sequence [indices] from [index]; [None] where the source raises
    [TypeError]. *)
Definition names_of (name : pyval O) : option (list (pyval O)) :=
  match name with
  | PyStr _ => Some [name]
  | PyTuple l => Some l
  | _ => None
  end.

Definition indices_of (index : pyval O) : option (list (pyval O)) :=
  match index with
  | PyNone => Some []
  | PyInt _ | PyBool _ => Some [index]
  | PyTuple l => Some l
  | _ => None
  end.

(** [for name_ in names: ...] *)
Fixpoint check_names (l : list (pyval O)) : result unit :=
  match l with
  | [] => Ok tt
  | n :: l => if is_str n then check_names l else Raise TypeError
  end.

(** [for index_ in indices: ...] *)
Fixpoint check_indices (l : list (pyval O)) : result unit :=
  match l with
  | [] => Ok tt
  | i :: l =>
      if is_int i
      then if decide (int_val i < 0)%Z then Raise ValueError else check_indices l
      else Raise TypeError
  end.

(** [var(name, index=None)]: the reference of the [Variable] returned. *)
Definition var (name index : pyval O) : M registry nat :=
  names <- lift (match names_of name with
                 | Some l => Ok l
                 | None => Raise TypeError
                 end);
  _ <- lift (match names with [] => Raise ValueError | _ => Ok tt end);
  _ <- lift (check_names names);
  indices <- lift (match indices_of index with
                   | Some l => Ok l
                   | None => Raise TypeError
                   end);
  _ <- lift (check_indices indices);
  let key := (str_val <$> names, int_val <$> indices) in
  r <- get;
  match VARIABLES r !! key with
  | Some v => ret v
  | None =>
      fields <- Variable__init__ key.1 key.2;
      r <- get;
      let v := length (vobjs r) in
      _ <- put {| vobjs := vobjs r ++ [fields];
                  VARIABLES := <[key := v]> (VARIABLES r);
                  _UNIQIDS := _UNIQIDS r; _COUNT := _COUNT r |};
      ret v
  end.

(** The identity a well-formed request names. *)
Definition key_of (name index : pyval O) : list string * list Z :=
  (str_val <$> default [] (names_of name),
   int_val <$> default [] (indices_of index)).

(** What the specification calls a malformed identifier: a name or index
    argument of the wrong type, no name at all, a name that is not a
    string, an index that is not an integer or is negative. *)
Definition invalid_identifier (name index : pyval O) : Prop :=
  match names_of name, indices_of index with
  | Some ns, Some ix =>
      ns = [] ∨ (∃ n, n ∈ ns ∧ is_str n = false) ∨
      (∃ i, i ∈ ix ∧ (is_int i = false ∨ (int_val i < 0)%Z))
  | _, _ => True
  end.
End var.

(** *** Validation of identifiers *)

Section var_valid.
Context {O : Type}.
Implicit Types (name index : pyval O) (l : list (pyval O)) (r : registry).

Lemma check_names_Ok l : check_names l = Ok tt → ∀ n, n ∈ l → is_str n = true.
Proof.
  induction l as [|x l IH]; simpl; intros Hc n Hn; [by apply elem_of_nil in Hn|].
  destruct (is_str x) eqn:Hx; [|done].
  apply elem_of_cons in Hn as [->|Hn]; auto.
Qed.

Lemma check_names_Raise l e :
  check_names l = Raise e → e = TypeError ∧ ∃ n, n ∈ l ∧ is_str n = false.
Proof.
  induction l as [|x l IH]; simpl; [done|].
  destruct (is_str x) eqn:Hx.
  - intros Hc. destruct (IH Hc) as (-> & n & Hn & Hs).
    split; [done|]. exists n. split; [by apply elem_of_cons; right|done].
  - intros [= <-]. split; [done|]. exists x. split; [apply elem_of_cons; by left|done].
Qed.

Lemma check_indices_Ok l :
  check_indices l = Ok tt →
  ∀ i, i ∈ l → is_int i = true ∧ ¬ (int_val i < 0)%Z.
Proof.
  induction l as [|x l IH]; simpl; intros Hc i Hi; [by apply elem_of_nil in Hi|].
  destruct (is_int x) eqn:Hx; [|done]. case_decide; [done|].
  apply elem_of_cons in Hi as [->|Hi]; auto.
Qed.

Lemma check_indices_Raise l e :
  check_indices l = Raise e →
  (e = TypeError ∨ e = ValueError) ∧
  ∃ i, i ∈ l ∧ (is_int i = false ∨ (int_val i < 0)%Z).
Proof.
  induction l as [|x l IH]; simpl; [done|].
  destruct (is_int x) eqn:Hx; [case_decide|].
  - intros [= <-]. split; [by right|]. exists x.
    split; [apply elem_of_cons; by left|by right].
  - intros Hc. destruct (IH Hc) as (He & i & Hi & Hb).
    split; [done|]. exists i. split; [by apply elem_of_cons; right|done].
  - intros [= <-]. split; [by left|]. exists x.
    split; [apply elem_of_cons; by left|by left].
Qed.

Lemma check_unit (c : result unit) : (∃ e, c = Raise e) ∨ c = Ok tt.
Proof. destruct c as [[]|e]; eauto. Qed.

(** [var] on a well-formed request: what it returns and how it changes the
    registry. *)
Lemma var_valid_eq name index r ns ix :
  names_of name = Some ns → ns ≠ [] → check_names ns = Ok tt →
  indices_of index = Some ix → check_indices ix = Ok tt →
  var name index r =
    match VARIABLES r !! key_of name index with
    | Some v => (Ok v, r)
    | None =>
        let key := key_of name index in
        let out := Variable__init__ key.1 key.2 r in
        (Ok (length (vobjs out.2)),
         {| vobjs := vobjs out.2 ++
                       [mkVariable (default (_COUNT r) (_UNIQIDS r !! key)) key.1 key.2];
            VARIABLES := <[key := length (vobjs out.2)]> (VARIABLES out.2);
            _UNIQIDS := _UNIQIDS out.2; _COUNT := _COUNT out.2 |})
    end.
Proof.
  intros Hn Hne Hcn Hi Hci. unfold var, key_of, bind, lift, get, put, ret.
  rewrite Hn, Hi. simpl. destruct ns as [|n ns]; [done|].
  rewrite Hcn, Hci.
  destruct (VARIABLES r !! _) as [v|] eqn:Hv; [done|].
  unfold Variable__init__. simpl. by destruct (decide _).
Qed.

Lemma var_invalid_eq name index r :
  invalid_identifier name index →
  ∃ e, (e = TypeError ∨ e = ValueError) ∧ var name index r = (Raise e, r).
Proof.
  unfold invalid_identifier, var, bind, lift, get, put, ret.
  destruct (names_of name) as [ns|] eqn:Hn; [|eauto].
  destruct ns as [|n ns]; [eauto|].
  destruct (check_unit (check_names (n :: ns))) as [[e He]|Hcn].
  { rewrite He. apply check_names_Raise in He as [-> _]. eauto. }
  rewrite Hcn.
  destruct (indices_of index) as [ix|] eqn:Hi; [|eauto].
  destruct (check_unit (check_indices ix)) as [[e He]|Hci].
  { rewrite He. apply check_indices_Raise in He as [He _]. eauto. }
  intros [?|[(m & Hm & Hs)|(i & Hi' & Hb)]]; [done|..].
  - rewrite (check_names_Ok _ Hcn m Hm) in Hs. done.
  - destruct (check_indices_Ok _ Hci i Hi') as [Hint Hpos].
    destruct Hb as [Hb|Hb]; [by rewrite Hint in Hb|done].
Qed.

Lemma valid_args name index :
  ¬ invalid_identifier name index →
  ∃ ns ix, names_of name = Some ns ∧ ns ≠ [] ∧ check_names ns = Ok tt ∧
           indices_of index = Some ix ∧ check_indices ix = Ok tt.
Proof.
  unfold invalid_identifier. intros Hv.
  destruct (names_of name) as [ns|]; [|by destruct Hv].
  destruct (indices_of index) as [ix|]; [|by destruct Hv].
  exists ns, ix. split; [done|].
  split; [intros ->; apply Hv; by left|].
  split; [|split; [done|]].
  - destruct (check_unit (check_names ns)) as [[e He]|?]; [|done].
    apply check_names_Raise in He as [_ ?]. destruct Hv. auto.
  - destruct (check_unit (check_indices ix)) as [[e He]|?]; [|done].
    apply check_indices_Raise in He as [_ ?]. destruct Hv. auto.
Qed.

Lemma var_valid_Ok name index r :
  ¬ invalid_identifier name index → ∃ v, (var name index r).1 = Ok v.
Proof.
  intros Hv. destruct (valid_args name index Hv) as (ns & ix & ? & ? & ? & ? & ?).
  rewrite (var_valid_eq name index r ns ix) by done.
  destruct (VARIABLES r !! _); simpl; eauto.
Qed.

Lemma var_Raise_invalid name index r e :
  (var name index r).1 = Raise e → invalid_identifier name index.
Proof.
  intros He. unfold invalid_identifier.
  destruct (names_of name) as [ns|] eqn:Hn; [|done].
  destruct (indices_of index) as [ix|] eqn:Hi; [|done].
  destruct ns as [|n ns]; [by left|].
  destruct (check_unit (check_names (n :: ns))) as [[e' He']|Hcn].
  { apply check_names_Raise in He' as [_ ?]. auto. }
  destruct (check_unit (check_indices ix)) as [[e' He']|Hci].
  { apply check_indices_Raise in He' as [_ ?]. auto. }
  rewrite (var_valid_eq name index r (n :: ns) ix) in He by done.
  destruct (VARIABLES r !! _); done.
Qed.

(** C7. [var] raises an exception exactly on a malformed identifier: the
    name or index argument has the wrong type, there is no name, some name
    is not a string, some index is not an integer or is negative.  The
    exception is a [TypeError] or a [ValueError], and the registry is left
    as it was; every other request returns a variable. *)
Theorem var_raises_iff_invalid name index r :
  ((∃ e, (var name index r).1 = Raise e) ↔ invalid_identifier name index) ∧
  (∀ e, (var name index r).1 = Raise e →
        (e = TypeError ∨ e = ValueError) ∧ (var name index r).2 = r) ∧
  (¬ invalid_identifier name index → ∃ v, (var name index r).1 = Ok v).
Proof.
  split; [split|split].
  - intros [e He]. by eapply var_Raise_invalid.
  - intros Hi. destruct (var_invalid_eq name index r Hi) as (e & _ & ->). eauto.
  - intros e He.
    destruct (var_invalid_eq name index r (var_Raise_invalid name index r e He))
      as (e' & He' & Heq).
    rewrite Heq in He |- *. simpl in *. by injection He as <-.
  - apply var_valid_Ok.
Qed.
End var_valid.

(** *** Memoization and allocation of identifiers *)

Record reg_inv (r : registry) : Prop := mkRegInv {
  ri_count : _COUNT r = (1 + Z.of_nat (size (_UNIQIDS r)))%Z;
  ri_range : ∀ k u, _UNIQIDS r !! k = Some u → (1 ≤ u < _COUNT r)%Z;
  ri_inj : ∀ k1 k2 u,
    _UNIQIDS r !! k1 = Some u → _UNIQIDS r !! k2 = Some u → k1 = k2;
  ri_vars : ∀ k v, VARIABLES r !! k = Some v →
    ∃ u, _UNIQIDS r !! k = Some u ∧ vobjs r !! v = Some (mkVariable u k.1 k.2);
  ri_objs : ∀ v o, vobjs r !! v = Some o →
    VARIABLES r !! (names o, indices o) = Some v
}.

(** The registry only grows. *)
Record reg_le (r r' : registry) : Prop := mkRegLe {
  rl_objs : vobjs r `prefix_of` vobjs r';
  rl_vars : VARIABLES r ⊆ VARIABLES r';
  rl_ids : _UNIQIDS r ⊆ _UNIQIDS r';
  rl_count : (_COUNT r ≤ _COUNT r')%Z
}.

Global Instance reg_le_preorder : PreOrder reg_le.
Proof.
  split.
  - intros r. by split.
  - intros r1 r2 r3 [] []. split; by etrans.
Qed.

Lemma reg_inv0 : reg_inv registry0.
Proof. by split. Qed.

Lemma Variable_init_spec ns ix r :
  reg_inv r →
  ∃ u r', Variable__init__ ns ix r = (Ok (mkVariable u ns ix), r') ∧
          reg_inv r' ∧ reg_le r r' ∧
          _UNIQIDS r' !! (ns, ix) = Some u ∧
          vobjs r' = vobjs r ∧ VARIABLES r' = VARIABLES r ∧
          (∀ k, k ≠ (ns, ix) → _UNIQIDS r' !! k = _UNIQIDS r !! k) ∧
          (is_Some (_UNIQIDS r !! (ns, ix)) → r' = r) ∧
          (_UNIQIDS r !! (ns, ix) = None → u = _COUNT r).
Proof.
  intros Hinv. unfold Variable__init__.
  destruct (_UNIQIDS r !! (ns, ix)) as [u|] eqn:Hu; simpl.
  - pose proof (ri_range r Hinv _ _ Hu).
    rewrite decide_False by lia.
    exists u, r. by split_and!.
  - rewrite decide_True by done. eexists _, _. split_and!; try done.
    + split; simpl.
      * rewrite map_size_insert_None by done. rewrite (ri_count r Hinv). lia.
      * intros k u Hk. apply lookup_insert_Some in Hk as [[_ <-]|[_ Hk]]; [|].
        -- pose proof (ri_count r Hinv). lia.
        -- apply (ri_range r Hinv) in Hk. lia.
      * intros k1 k2 u H1 H2.
        apply lookup_insert_Some in H1 as [[<- <-]|[Hn1 H1]];
          apply lookup_insert_Some in H2 as [[<- Heq]|[Hn2 H2]]; try done.
        -- apply (ri_range r Hinv) in H2. lia.
        -- apply (ri_range r Hinv) in H1. lia.
        -- eapply (ri_inj r Hinv); eauto.
      * intros k v Hk. destruct (ri_vars r Hinv k v Hk) as (u & Hku & Hv).
        exists u. split; [|done]. rewrite lookup_insert_ne; [done|].
        intros <-. congruence.
      * apply (ri_objs r Hinv).
    + split; simpl; [done|done| |lia]. by apply insert_subseteq.
    + simpl. apply lookup_insert_eq.
    + intros k Hk. simpl. by rewrite lookup_insert_ne.
Qed.

Section var_memo.
Context {O : Type}.
Implicit Types (name index : pyval O) (r : registry).

Lemma var_spec name index r :
  reg_inv r → ¬ invalid_identifier name index →
  let key := key_of name index in
  ∃ v u r', var name index r = (Ok v, r') ∧ reg_inv r' ∧ reg_le r r' ∧
            VARIABLES r' !! key = Some v ∧ _UNIQIDS r' !! key = Some u ∧
            vobjs r' !! v = Some (mkVariable u key.1 key.2) ∧
            (∀ k, k ≠ key → _UNIQIDS r' !! k = _UNIQIDS r !! k) ∧
            (is_Some (VARIABLES r !! key) → r' = r) ∧
            (_UNIQIDS r !! key = None → u = _COUNT r).
Proof.
  intros Hinv Hv key.
  destruct (valid_args name index Hv) as (ns & ix & ? & ? & ? & ? & ?).
  rewrite (var_valid_eq name index r ns ix) by done. fold key.
  destruct (VARIABLES r !! key) as [v|] eqn:Hk.
  - destruct (ri_vars r Hinv key v Hk) as (u & Hu & Hobj).
    exists v, u, r. split_and!; try done. intros Hn. congruence.
  - destruct (Variable_init_spec key.1 key.2 r Hinv)
      as (u & r1 & Heq & Hinv1 & Hle1 & Hu & Hobjs & Hvars & Hother & Hsame & Hnew).
    rewrite <- surjective_pairing in Hu, Hother, Hsame, Hnew.
    cbv zeta. rewrite Heq. cbn [fst snd].
    assert (default (_COUNT r) (_UNIQIDS r !! key) = u) as ->.
    { unfold Variable__init__ in Heq. by injection Heq as <- _. }
    eexists _, u, _. split; [done|].
    assert (vobjs r1 !! length (vobjs r1) = None) as Hfresh.
    { apply lookup_ge_None. lia. }
    split_and!; try done.
    + split; cbn.
      * apply (ri_count r1 Hinv1).
      * apply (ri_range r1 Hinv1).
      * apply (ri_inj r1 Hinv1).
      * intros k v Hkv. apply lookup_insert_Some in Hkv as [[<- <-]|[Hne Hkv]].
        -- exists u. split; [done|]. rewrite lookup_app_r by lia.
           by rewrite Nat.sub_diag.
        -- destruct (ri_vars r1 Hinv1 k v Hkv) as (u' & ? & Hv').
           exists u'. split; [done|].
           rewrite lookup_app_l; [done|]. by eapply lookup_lt_Some.
      * intros v o Hvo.
        destruct (decide (v < length (vobjs r1))) as [Hlt|Hge].
        -- rewrite lookup_app_l in Hvo by done.
           pose proof (ri_objs r1 Hinv1 v o Hvo) as Hreg.
           rewrite lookup_insert_ne; [done|]. intros Heqk.
           rewrite <- Heqk, Hvars in Hreg. congruence.
        -- pose proof (lookup_lt_Some _ _ _ Hvo) as Hlt.
           rewrite length_app in Hlt. simpl in Hlt.
           assert (v = length (vobjs r1)) as -> by lia.
           rewrite lookup_app_r, Nat.sub_diag in Hvo by lia.
           injection Hvo as <-. cbn [names indices].
           apply lookup_insert_eq.
    + etrans; [exact Hle1|]. split; cbn; [by apply prefix_app_r| |done|done].
      apply insert_subseteq. by rewrite Hvars.
    + cbn. apply lookup_insert_eq.
    + cbn. rewrite lookup_app_r, Nat.sub_diag by lia. done.
Qed.

(** A sequence of requests to [var], from a given registry: the outcome of
    each request and the registry at the end. *)
Fixpoint run_var (reqs : list (pyval O * pyval O)) (r : registry)
    : list (result nat) * registry :=
  match reqs with
  | [] => ([], r)
  | (name, index) :: reqs =>
      let out := var name index r in
      let rest := run_var reqs out.2 in
      (out.1 :: rest.1, rest.2)
  end.

(** The request at position [j] names an identity no earlier valid request
    of [reqs] names. *)
Definition first_request (reqs : list (pyval O * pyval O)) (j : nat)
    (key : list string * list Z) : Prop :=
  ∀ i name index, i < j → reqs !! i = Some (name, index) →
    ¬ invalid_identifier name index → key_of name index ≠ key.

Lemma var_any name index r :
  reg_inv r →
  reg_inv (var name index r).2 ∧ reg_le r (var name index r).2 ∧
  (invalid_identifier name index ∨ ¬ invalid_identifier name index) ∧
  (invalid_identifier name index → (var name index r).2 = r).
Proof.
  intros Hinv.
  destruct (var name index r) as [[v|e] r'] eqn:Hout; simpl in *.
  - assert (¬ invalid_identifier name index) as Hv.
    { intros Hi. destruct (var_invalid_eq name index r Hi) as (e & _ & Heq).
      by rewrite Hout in Heq. }
    destruct (var_spec name index r Hinv Hv) as (v' & u & r'' & Heq & ? & ? & _).
    rewrite Hout in Heq. injection Heq as <- <-.
    split_and!; [done|done|by right|done].
  - assert (invalid_identifier name index) as Hi.
    { apply (var_Raise_invalid name index r e). by rewrite Hout. }
    destruct (var_invalid_eq name index r Hi) as (e' & _ & Heq).
    rewrite Hout in Heq. injection Heq as _ ->.
    split_and!; [done|done|by left|done].
Qed.

Lemma run_var_spec reqs : ∀ r0, reg_inv r0 →
  let outs := (run_var reqs r0).1 in
  let r := (run_var reqs r0).2 in
  reg_inv r ∧ reg_le r0 r ∧
  (∀ i name index, reqs !! i = Some (name, index) →
     ¬ invalid_identifier name index →
     ∃ v u, outs !! i = Some (Ok v) ∧
            VARIABLES r !! key_of name index = Some v ∧
            _UNIQIDS r !! key_of name index = Some u ∧
            vobjs r !! v = Some (mkVariable u (key_of name index).1
                                              (key_of name index).2)) ∧
  (∀ j name index u, reqs !! j = Some (name, index) →
     ¬ invalid_identifier name index →
     _UNIQIDS r0 !! key_of name index = None →
     first_request reqs j (key_of name index) →
     _UNIQIDS r !! key_of name index = Some u → (_COUNT r0 ≤ u)%Z) ∧
  (∀ i j ni xi nj xj ui uj, i < j →
     reqs !! i = Some (ni, xi) → reqs !! j = Some (nj, xj) →
     ¬ invalid_identifier ni xi → ¬ invalid_identifier nj xj →
     _UNIQIDS r0 !! key_of nj xj = None →
     first_request reqs j (key_of nj xj) →
     _UNIQIDS r !! key_of ni xi = Some ui →
     _UNIQIDS r !! key_of nj xj = Some uj → (ui < uj)%Z).
Proof.
  induction reqs as [|[n0 x0] reqs IH]; intros r0 Hinv0; cbv zeta.
  { simpl. split_and!; try done; intros *; by rewrite lookup_nil. }
  cbn [run_var]. cbv zeta. cbn [fst snd].
  destruct (var_any n0 x0 r0 Hinv0) as (Hinv1 & Hle1 & Hdec & Hsame).
  set (r1 := (var n0 x0 r0).2) in *.
  destruct (IH r1 Hinv1) as (Hinv & Hle & Hreq & Hfirst & Horder).
  set (r := (run_var reqs r1).2) in *.
  assert (∀ j key, first_request ((n0, x0) :: reqs) (S j) key →
            first_request reqs j key) as Hshift.
  { intros j key Hf i name index Hi Hl. apply (Hf (S i)); [lia|done]. }
  assert (∀ j key, first_request ((n0, x0) :: reqs) (S j) key →
            _UNIQIDS r0 !! key = None → _UNIQIDS r1 !! key = None) as Hnone.
  { intros j key Hf Hk. destruct Hdec as [Hi|Hv].
    - by rewrite (Hsame Hi).
    - destruct (var_spec n0 x0 r0 Hinv0 Hv) as (v & u & r' & Heq & _ & _ & _ & _ & _ & Ho & _).
      unfold r1. rewrite Heq. cbn [snd]. rewrite Ho; [done|].
      intros ->. by apply (Hf 0 n0 x0); [lia|..]. }
  split_and!.
  - done.
  - by etrans.
  - intros [|i] name index Hl Hv; simpl in Hl.
    + injection Hl as -> ->.
      destruct (var_spec name index r0 Hinv0 Hv)
        as (v & u & r' & Heq & _ & _ & Hkv & Hku & Hobj & _).
      assert (r1 = r') as Hr1 by (unfold r1; by rewrite Heq). subst r'.
      exists v, u. split_and!.
      * simpl. by rewrite Heq.
      * eapply lookup_weaken; [exact Hkv|apply (rl_vars _ _ Hle)].
      * eapply lookup_weaken; [exact Hku|apply (rl_ids _ _ Hle)].
      * eapply prefix_lookup_Some; [exact Hobj|apply (rl_objs _ _ Hle)].
    + destruct (Hreq i name index Hl Hv) as (v & u & ? & ? & ? & ?).
      exists v, u. by split_and!.
  - intros [|j] name index u Hl Hv Hk0 Hf Hu; simpl in Hl.
    + injection Hl as -> ->.
      destruct (var_spec name index r0 Hinv0 Hv)
        as (v & u' & r' & Heq & _ & _ & _ & Hku & _ & _ & _ & Hnew).
      assert (r1 = r') as Hr1 by (unfold r1; by rewrite Heq). subst r'.
      pose proof (lookup_weaken _ _ _ _ Hku (rl_ids _ _ Hle)) as Hu'.
      rewrite Hu in Hu'. injection Hu' as ->. rewrite (Hnew Hk0). lia.
    + pose proof (Hfirst j name index u Hl Hv (Hnone j _ Hf Hk0) (Hshift j _ Hf) Hu).
      pose proof (rl_count _ _ Hle1). lia.
  - intros [|i] [|j] ni xi nj xj ui uj Hij Hli Hlj Hvi Hvj Hk0 Hf Hui Huj;
      simpl in Hli, Hlj; [lia| |lia|].
    + injection Hli as -> ->.
      destruct (var_spec ni xi r0 Hinv0 Hvi)
        as (v & u' & r' & Heq & _ & _ & _ & Hku & _).
      assert (r1 = r') as Hr1 by (unfold r1; by rewrite Heq). subst r'.
      pose proof (lookup_weaken _ _ _ _ Hku (rl_ids _ _ Hle)) as Hu'.
      rewrite Hui in Hu'. injection Hu' as ->.
      pose proof (ri_range r1 Hinv1 _ _ Hku).
      pose proof (Hfirst j nj xj uj Hlj Hvj (Hnone j _ Hf Hk0) (Hshift j _ Hf) Huj).
      lia.
    + apply (Horder i j ni xi nj xj ui uj); eauto. lia.
Qed.

Lemma run_var_app reqs more r0 :
  (run_var (reqs ++ more) r0).2 = (run_var more (run_var reqs r0).2).2.
Proof.
  revert r0. induction reqs as [|[n x] reqs IH]; intros r0; [done|].
  simpl. apply IH.
Qed.

Lemma run_var_inv reqs r0 : reg_inv r0 → reg_inv (run_var reqs r0).2.
Proof. intros H. by destruct (run_var_spec reqs r0 H) as (? & _). Qed.

(** C8. Over any sequence of requests to [var] from the empty registry: a
    valid request returns the [Variable] instance registered for its
    identity, whose [uniqid] is the one recorded for that identity, so the
    same identity always yields the same instance and the same id; distinct
    identities have distinct ids; the ids handed out are 1, 2, ..., one for
    each identity; an identity requested for the first time gets an id above
    those of all earlier requests; and later requests never change an id
    that was assigned. *)
Theorem registry_memo_bijection (reqs : list (pyval O * pyval O)) :
  let outs := (run_var reqs registry0).1 in
  let r := (run_var reqs registry0).2 in
  (∀ i name index, reqs !! i = Some (name, index) →
     ¬ invalid_identifier name index →
     ∃ v u, outs !! i = Some (Ok v) ∧
            VARIABLES r !! key_of name index = Some v ∧
            _UNIQIDS r !! key_of name index = Some u ∧
            vobjs r !! v = Some (mkVariable u (key_of name index).1
                                              (key_of name index).2)) ∧
  (∀ k1 k2 u,
     _UNIQIDS r !! k1 = Some u → _UNIQIDS r !! k2 = Some u → k1 = k2) ∧
  (_COUNT registry0 = 1%Z ∧
   _COUNT r = (1 + Z.of_nat (size (_UNIQIDS r)))%Z ∧
   ∀ k u, _UNIQIDS r !! k = Some u → (1 ≤ u < _COUNT r)%Z) ∧
  (∀ i j ni xi nj xj ui uj, i < j →
     reqs !! i = Some (ni, xi) → reqs !! j = Some (nj, xj) →
     ¬ invalid_identifier ni xi → ¬ invalid_identifier nj xj →
     first_request reqs j (key_of nj xj) →
     _UNIQIDS r !! key_of ni xi = Some ui →
     _UNIQIDS r !! key_of nj xj = Some uj → (ui < uj)%Z) ∧
  (∀ more k u, _UNIQIDS r !! k = Some u →
     _UNIQIDS (run_var (reqs ++ more) registry0).2 !! k = Some u).
Proof.
  cbv zeta.
  destruct (run_var_spec reqs registry0 reg_inv0) as (Hinv & Hle & Hreq & _ & Horder).
  split_and!.
  - exact Hreq.
  - apply (ri_inj _ Hinv).
  - done.
  - apply (ri_count _ Hinv).
  - apply (ri_range _ Hinv).
  - intros i j ni xi nj xj ui uj Hij Hli Hlj Hvi Hvj Hf Hui Huj.
    by apply (Horder i j ni xi nj xj ui uj).
  - intros more k u Hk. rewrite run_var_app.
    destruct (run_var_spec more _ Hinv) as (_ & Hle' & _).
    eapply lookup_weaken; [exact Hk|apply (rl_ids _ _ Hle')].
Qed.
End var_memo.

(** ** Diagrams *)

(** Diagram objects: [OrderedBinaryDecisionDiagram(node)],
    [BDDConstant(node, value)] and [OBDDVariable(bvar)], which also carries
    the fields [Variable.__init__] gives it.  The tables [_BDDS] and [_VARS]
    hold one diagram object for a node, so a diagram object is modelled by
    its fields. *)
Inductive obdd : Type :=
  | Diagram (node : ref)
  | BDDConstant (node : ref) (value : Z)
  | OBDDVariable (bvar : BoolVariable) (node : ref).

Global Instance obdd_eq_dec : EqDecision obdd.
Proof. solve_decision. Defined.

(** [self.node] *)
Definition node_of (d : obdd) : ref :=
  match d with
  | Diagram n | BDDConstant n _ | OBDDVariable _ n => n
  end.

(** The state of the two modules. *)
Record state : Type := mkState {
  reg : registry;
  nodes : store;
  _VARS : gmap Z obdd;
  _BDDS : gmap ref obdd
}.

Definition BDDZERO : obdd := BDDConstant BDDNODEZERO 0.
Definition BDDONE : obdd := BDDConstant BDDNODEONE 1.

Definition state0 : state :=
  {| reg := registry0; nodes := store0; _VARS := ∅;
     _BDDS := <[BDDNODEONE := BDDONE]> (<[BDDNODEZERO := BDDZERO]> ∅) |}.

Definition on_nodes {A} (m : M store A) : M state A := λ st,
  let out := m (nodes st) in
  (out.1, {| reg := reg st; nodes := out.2; _VARS := _VARS st; _BDDS := _BDDS st |}).

Definition on_reg {A} (m : M registry A) : M state A := λ st,
  let out := m (reg st) in
  (out.1, {| reg := out.2; nodes := nodes st; _VARS := _VARS st; _BDDS := _BDDS st |}).

(** [OBDDVariable.__init__(self, bvar)] *)
Definition OBDDVariable__init__ (bvar : BoolVariable) : M state obdd :=
  fields <- on_reg (Variable__init__ (names bvar) (indices bvar));
  node <- on_nodes (_obddnode (uniqid bvar) BDDNODEZERO BDDNODEONE);
  ret (OBDDVariable fields node).

(** [obddvar(name, index=None)] *)
Definition obddvar (name index : pyval obdd) : M state obdd :=
  v <- on_reg (var name index);
  st <- get;
  match vobjs (reg st) !! v with
  | None => raise AttributeError
  | Some bvar =>
      match _VARS st !! uniqid bvar with
      | Some var => ret var
      | None =>
          var <- OBDDVariable__init__ bvar;
          st <- get;
          _ <- put {| reg := reg st; nodes := nodes st;
                      _VARS := <[uniqid bvar := var]> (_VARS st);
                      _BDDS := <[node_of var := var]> (_BDDS st) |};
          ret var
      end
  end.

(** [_obdd(node)] *)
Definition _obdd (node : ref) : M state obdd := λ st,
  match _BDDS st !! node with
  | Some bdd => (Ok bdd, st)
  | None =>
      let bdd := Diagram node in
      (Ok bdd, {| reg := reg st; nodes := nodes st; _VARS := _VARS st;
                  _BDDS := <[node := bdd]> (_BDDS st) |})
  end.

(** [==] against an integer or a string literal, as [obj in (0, "0")] uses
    it on an object that is not a diagram. *)
Definition py_eq_int (obj : pyval obdd) (z : Z) : bool :=
  match obj with
  | PyInt n => bool_decide (n = z)
  | PyBool b => bool_decide (Z.b2z b = z)
  | _ => false
  end.

Definition py_eq_str (obj : pyval obdd) (s : string) : bool :=
  match obj with
  | PyStr t => bool_decide (t = s)
  | _ => false
  end.

(** [boolean(obj)]: in [obdd.py] the name [boolean] is the module that
    [import boolean] binds, and calling a module raises [TypeError]. *)
Definition boolean_call {S} (obj : pyval obdd) : M S bool := raise TypeError.

(** [OrderedBinaryDecisionDiagram.box(obj)] *)
Definition box {S} (obj : pyval obdd) : M S obdd :=
  match obj with
  | PyObj d => ret d
  | _ =>
      if py_eq_int obj 0 || py_eq_str obj "0" then ret BDDZERO
      else if py_eq_int obj 1 || py_eq_str obj "1" then ret BDDONE
      else b <- boolean_call obj; ret (if b then BDDONE else BDDZERO)
  end.

(** [BDDConstant.__bool__(self)] and [__int__] *)
Definition BDDConstant__bool__ {S} (self : obdd) : M S bool :=
  match self with
  | BDDConstant _ value => boolean_call (PyInt value)
  | _ => raise AttributeError
  end.

(** The operators [~], [|], [&], [^], [>>] and the reflected [>>]. *)
Definition __invert__ (lim : nat) (self : obdd) : M state obdd :=
  n <- on_nodes (_neg lim (node_of self));
  _obdd n.

Definition __or__ (lim : nat) (self : obdd) (other : pyval obdd) : M state obdd :=
  o <- box other;
  n <- on_nodes (_ite lim (node_of self) BDDNODEONE (node_of o));
  _obdd n.

Definition __and__ (lim : nat) (self : obdd) (other : pyval obdd) : M state obdd :=
  o <- box other;
  n <- on_nodes (_ite lim (node_of self) (node_of o) BDDNODEZERO);
  _obdd n.

Definition __xor__ (lim : nat) (self : obdd) (other : pyval obdd) : M state obdd :=
  o <- box other;
  ng <- on_nodes (_neg lim (node_of o));
  n <- on_nodes (_ite lim (node_of self) ng (node_of o));
  _obdd n.

Definition __rshift__ (lim : nat) (self : obdd) (other : pyval obdd) : M state obdd :=
  o <- box other;
  nf <- on_nodes (_neg lim (node_of self));
  n <- on_nodes (_ite lim nf BDDNODEONE (node_of o));
  _obdd n.

Definition __rrshift__ (lim : nat) (self : obdd) (other : pyval obdd) : M state obdd :=
  o <- box other;
  no <- on_nodes (_neg lim (node_of o));
  n <- on_nodes (_ite lim no BDDNODEONE (node_of self));
  _obdd n.

(** The dictionary comprehension of [restrict]: the items of [point] in
    order, a later item overriding an earlier one with the same root. *)
Fixpoint npoint_of (items : list (obdd * pyval obdd)) (acc : gmap Z ref)
    : M state (gmap Z ref) :=
  match items with
  | [] => ret acc
  | (v, val) :: items =>
      k <- on_nodes (attr_root (node_of v));
      d <- box val;
      npoint_of items (<[k := node_of d]> acc)
  end.

(** [restrict(self, point)] *)
Definition restrict (lim : nat) (self : obdd) (point : list (obdd * pyval obdd))
    : M state obdd :=
  npoint <- npoint_of point ∅;
  rc <- on_nodes (_restrict lim (node_of self) npoint None);
  _obdd rc.1.

Definition is_zero (self : obdd) : bool := bool_decide (node_of self = BDDNODEZERO).
Definition is_one (self : obdd) : bool := bool_decide (node_of self = BDDNODEONE).

(** [equivalent(self, other)] *)
Definition equivalent {S} (self : obdd) (other : pyval obdd) : M S bool :=
  o <- box other;
  ret (bool_decide (node_of self = node_of o)).

(** The loop of [inputs] over the nodes the traversal yields. *)
Fixpoint collect_inputs (ys : list ref) (inputs_ : list obdd) : M state (list obdd) :=
  match ys with
  | [] => ret inputs_
  | node :: ys =>
      r <- on_nodes (attr_root node);
      if decide (r > 0)%Z then
        st <- get;
        match _VARS st !! r with
        | None => raise KeyError
        | Some v =>
            if decide (v ∈ inputs_) then collect_inputs ys inputs_
            else collect_inputs ys (inputs_ ++ [v])
        end
      else collect_inputs ys inputs_
  end.

(** [inputs] (the support) and [top] *)
Definition inputs (lim : nat) (self : obdd) : M state (list obdd) :=
  yv <- on_nodes (_dfs_postorder lim (node_of self) ∅);
  inputs_ <- collect_inputs yv.1 [];
  ret (reverse inputs_).

Definition top (lim : nat) (self : obdd) : M state (option obdd) :=
  ins <- inputs lim self;
  ret (head ins).

(** *** The invariant of the state *)

(** A diagram the caller can hold: the one [_BDDS] has for its node. *)
Definition known (st : state) (d : obdd) : Prop :=
  _BDDS st !! node_of d = Some d.

Record wf_state (st : state) : Prop := mkWfState {
  ws_nodes : wf (nodes st);
  ws_reg : reg_inv (reg st);
  ws_bdds : ∀ n d, _BDDS st !! n = Some d →
    node_of d = n ∧ n < length (objs (nodes st));
  ws_zero : _BDDS st !! BDDNODEZERO = Some BDDZERO;
  ws_one : _BDDS st !! BDDNODEONE = Some BDDONE;
  ws_vars : ∀ u v, _VARS st !! u = Some v →
    ∃ bvar n, v = OBDDVariable bvar n ∧ uniqid bvar = u ∧ (0 < u)%Z ∧
              denotes (nodes st) n (Node u (Leaf false) (Leaf true)) ∧
              _BDDS st !! n = Some v;
  ws_roots : ∀ u, root_in (nodes st) u → (0 < u)%Z → is_Some (_VARS st !! u)
}.

Record state_le (st st' : state) : Prop := mkStateLe {
  sl_nodes : grows (nodes st) (nodes st');
  sl_reg : reg_le (reg st) (reg st');
  sl_vars : _VARS st ⊆ _VARS st';
  sl_bdds : _BDDS st ⊆ _BDDS st'
}.
Infix "≼" := state_le (at level 70).

Global Instance state_le_preorder : PreOrder state_le.
Proof.
  split.
  - intros st. split; try done. by unfold grows.
  - intros s1 s2 s3 [] []. split; try (by etrans). unfold grows in *. by etrans.
Qed.

Lemma known_le st st' d : st ≼ st' → known st d → known st' d.
Proof. intros Hle Hd. eapply lookup_weaken; [exact Hd|apply (sl_bdds _ _ Hle)]. Qed.

Lemma known_inj st d1 d2 :
  known st d1 → known st d2 → node_of d1 = node_of d2 → d1 = d2.
Proof. unfold known. intros H1 H2 Heq. rewrite Heq in H1. congruence. Qed.

Lemma known_lt st d : wf_state st → known st d → node_of d < length (objs (nodes st)).
Proof. intros Hwf Hd. by destruct (ws_bdds st Hwf _ _ Hd). Qed.

Lemma known_denotes st d :
  wf_state st → known st d → ∃ t, denotes (nodes st) (node_of d) t ∧ robdd t.
Proof. intros Hwf Hd. apply (wf_den _ (ws_nodes st Hwf)). by apply known_lt. Qed.

Lemma known_zero st : wf_state st → known st BDDZERO.
Proof. intros Hwf. apply (ws_zero st Hwf). Qed.

Lemma known_one st : wf_state st → known st BDDONE.
Proof. intros Hwf. apply (ws_one st Hwf). Qed.

Lemma wf_state0 : wf_state state0.
Proof.
  split.
  - apply wf_store0.
  - apply reg_inv0.
  - intros n d Hn. simpl in Hn.
    apply lookup_insert_Some in Hn as [[<- <-]|[_ Hn]]; [split; [done|cbv; lia]|].
    apply lookup_insert_Some in Hn as [[<- <-]|[_ Hn]]; [split; [done|cbv; lia]|].
    done.
  - done.
  - done.
  - intros u v Hu. done.
  - intros u (a & o & Ha & Hu) Hpos. destruct a as [|[|a]]; simpl in Ha; [| |done];
      injection Ha as <-; simpl in Hu; lia.
Qed.

(** [dpost st out Q E]: as [post], for computations over the whole state. *)
Definition dpost {A} (st : state) (out : result A * state)
    (Q : A → state → Prop) (E : exn → Prop) : Prop :=
  wf_state out.2 ∧ st ≼ out.2 ∧
  match out.1 with Ok a => Q a out.2 | Raise e => E e end.

Lemma dpost_intro {A} st (r : result A) st' (Q : A → state → Prop) E :
  wf_state st' → st ≼ st' → match r with Ok a => Q a st' | Raise e => E e end →
  dpost st (r, st') Q E.
Proof. by split. Qed.

Lemma dpost_ret {A} st (a : A) (Q : A → state → Prop) E :
  wf_state st → Q a st → dpost st (ret a st) Q E.
Proof. intros. by apply dpost_intro. Qed.

Lemma dpost_raise {A} st e (Q : A → state → Prop) (E : exn → Prop) :
  wf_state st → E e → dpost st (raise e st) Q E.
Proof. intros. by apply dpost_intro. Qed.

Lemma dpost_bind {A B} st (m : M state A) (k : A → M state B) Q1 Q2 (E1 E : exn → Prop) :
  dpost st (m st) Q1 E1 →
  (∀ e, E1 e → E e) →
  (∀ a st1, wf_state st1 → st ≼ st1 → Q1 a st1 → dpost st1 (k a st1) Q2 E) →
  dpost st (bind m k st) Q2 E.
Proof.
  unfold dpost, bind. destruct (m st) as [[a|e] st1]; simpl.
  - intros (Hwf & Hs & HQ) _ Hk. destruct (Hk a st1 Hwf Hs HQ) as (? & ? & ?).
    split; [done|]. split; [by etrans|done].
  - intros (Hwf & Hs & HE) HE' _. split; [done|]. split; [done|auto].
Qed.

Lemma dpost_mono {A} st out (Q Q' : A → state → Prop) (E E' : exn → Prop) :
  dpost st out Q E →
  (∀ a st', wf_state st' → st ≼ st' → Q a st' → Q' a st') → (∀ e, E e → E' e) →
  dpost st out Q' E'.
Proof.
  unfold dpost. destruct out as [[a|e] st']; simpl; intros (? & ? & ?) HQ HE;
    (split; [done|]); (split; [done|]); auto.
Qed.

(** A computation on the node store, run on the state. *)
Definition frame (st st' : state) : Prop :=
  reg st' = reg st ∧ _VARS st' = _VARS st ∧ _BDDS st' = _BDDS st ∧
  nodes st ⊑ nodes st'.

Lemma dpost_on_nodes {A} st (m : M store A) (Q : A → store → Prop) E :
  wf_state st → post (nodes st) (m (nodes st)) Q E →
  dpost st (on_nodes m st) (λ a st', Q a (nodes st') ∧ frame st st') E.
Proof.
  intros Hwf (Hwf' & Hext & Hres). unfold on_nodes.
  destruct (m (nodes st)) as [r s'] eqn:Hm. simpl in *.
  apply dpost_intro.
  - split; simpl.
    + done.
    + apply (ws_reg st Hwf).
    + intros n d Hn. destruct (ws_bdds st Hwf n d Hn) as [? ?].
      split; [done|]. pose proof (extends_length _ _ Hext). lia.
    + apply (ws_zero st Hwf).
    + apply (ws_one st Hwf).
    + intros u v Hu. destruct (ws_vars st Hwf u v Hu) as (bvar & n & ? & ? & ? & ? & ?).
      exists bvar, n. split_and!; try done. by eapply denotes_extends.
    + intros u Hu Hpos. apply (ws_roots st Hwf); [|done]. by apply Hext.
  - split; simpl; try done. apply Hext.
  - destruct r; [|done]. split; [done|]. by split_and!.
Qed.

Lemma on_nodes_bind {A B C} (m : M store A) (k : A → M store B)
    (c : B → M state C) st :
  bind (on_nodes m) (λ a, bind (on_nodes (k a)) c) st =
  bind (on_nodes (bind m k)) c st.
Proof.
  unfold bind, on_nodes. destruct (m (nodes st)) as [[a|e] s1]; simpl; [|done].
  by destruct (k a s1) as [[b|e] s2].
Qed.

(** [_obdd] returns the diagram of a node. *)
Lemma obdd_spec st (n : ref) E :
  wf_state st → n < length (objs (nodes st)) →
  dpost st (_obdd n st)
    (λ d st', known st' d ∧ node_of d = n ∧ nodes st' = nodes st ∧
              reg st' = reg st ∧ _VARS st' = _VARS st) E.
Proof.
  intros Hwf Hn. unfold _obdd. destruct (_BDDS st !! n) as [d|] eqn:Hd.
  - destruct (ws_bdds st Hwf n d Hd) as [Hnd _].
    apply dpost_intro; [done..|]. split_and!; try done.
    unfold known. by rewrite Hnd.
  - apply dpost_intro.
    + split; simpl; try apply Hwf.
      * intros n' d' Hn'. apply lookup_insert_Some in Hn' as [[<- <-]|[_ Hn']]; [done|].
        by apply (ws_bdds st Hwf).
      * rewrite lookup_insert_ne; [apply (ws_zero st Hwf)|].
        intros ->. by rewrite (ws_zero st Hwf) in Hd.
      * rewrite lookup_insert_ne; [apply (ws_one st Hwf)|].
        intros ->. by rewrite (ws_one st Hwf) in Hd.
      * intros u v Hu. destruct (ws_vars st Hwf u v Hu) as (bvar & n' & ? & ? & ? & ? & Hb).
        exists bvar, n'. split_and!; try done.
        rewrite lookup_insert_ne; [done|]. intros ->. congruence.
    + split; simpl; try done; [by unfold grows|]. by apply insert_subseteq.
    + split_and!; try done. unfold known. simpl. apply lookup_insert_eq.
Qed.

(** A node computation followed by [_obdd]. *)
Lemma lift_obdd_spec st (m : M store ref) (Q : ref → store → Prop) E :
  wf_state st →
  post (nodes st) (m (nodes st)) (λ r s', Q r s' ∧ r < length (objs s')) E →
  dpost st (bind (on_nodes m) _obdd st)
    (λ d st', known st' d ∧ Q (node_of d) (nodes st') ∧
              nodes st ⊑ nodes st' ∧ reg st' = reg st ∧ _VARS st' = _VARS st) E.
Proof.
  intros Hwf Hm. eapply dpost_bind; [by apply dpost_on_nodes|done|].
  intros n st1 Hwf1 Hle1 [[HQ Hn] (Hreg & Hvars & Hbdds & Hext)].
  eapply dpost_mono; [apply (obdd_spec st1 n (λ _, False)); done|..]; [|by intros ? []].
  intros d st2 _ _ (Hk & <- & Hnodes & Hreg2 & Hvars2).
  rewrite Hnodes. split_and!; try done; congruence.
Qed.

(** *** The operators *)

(** The diagram [box] returns, when it returns one. *)
Definition boxed (obj : pyval obdd) : option obdd :=
  match obj with
  | PyObj d => Some d
  | _ =>
      if py_eq_int obj 0 || py_eq_str obj "0" then Some BDDZERO
      else if py_eq_int obj 1 || py_eq_str obj "1" then Some BDDONE
      else None
  end.

Lemma box_eq {S} (obj : pyval obdd) (s : S) :
  box obj s = match boxed obj with
              | Some d => (Ok d, s)
              | None => (Raise TypeError, s)
              end.
Proof.
  unfold box, boxed. destruct obj; try done;
    repeat (match goal with |- context [if ?b then _ else _] => destruct b end; try done).
Qed.

Lemma bind_box {S B} (obj : pyval obdd) (k : obdd → M S B) s :
  bind (box obj) k s = match boxed obj with
                       | Some d => k d s
                       | None => (Raise TypeError, s)
                       end.
Proof. unfold bind. rewrite box_eq. by destruct (boxed obj). Qed.

(** The diagrams inside an argument are diagrams the caller holds. *)
Definition pv_known (st : state) (obj : pyval obdd) : Prop :=
  match obj with
  | PyObj d => known st d
  | _ => True
  end.

Lemma boxed_known st obj d :
  wf_state st → pv_known st obj → boxed obj = Some d → known st d.
Proof.
  intros Hwf Hk. unfold boxed.
  destruct obj; simpl in *;
    repeat (match goal with |- context [if ?b then _ else _] => destruct b end);
    intros [= <-]; auto using known_zero, known_one.
Qed.

(** What an operator returns: a known diagram whose Boolean function is [F]
    and whose depth is at most [bound]; only nodes were added. *)
Definition op_post (st : state) (F : env → bool) (bound : nat)
    (d : obdd) (st' : state) : Prop :=
  known st' d ∧ nodes st ⊑ nodes st' ∧ reg st' = reg st ∧ _VARS st' = _VARS st ∧
  ∃ t, denotes (nodes st') (node_of d) t ∧ (∀ e, interp t e = F e) ∧
       depth t ≤ bound.

Definition limit_exn (lim bound : nat) (e : exn) : Prop :=
  e = RecursionError ∧ lim ≤ bound.

Lemma invert_spec lim st f tf :
  wf_state st → denotes (nodes st) (node_of f) tf →
  dpost st (__invert__ lim f st)
    (op_post st (λ e, negb (interp tf e)) (depth tf))
    (limit_exn lim (depth tf)).
Proof.
  intros Hwf Hf. unfold __invert__.
  eapply dpost_mono;
    [apply (lift_obdd_spec st _ (λ r s', denotes s' r (tneg tf))
              (limit_exn lim (depth tf)) Hwf)|..].
  - eapply post_mono; [apply (neg_spec lim _ _ tf (ws_nodes st Hwf) Hf)|..]; [|done].
    intros r s' Hwf' _ Hr. simpl in Hr. split; [done|]. by eapply denotes_lt.
  - intros d st' _ _ (Hk & Hd & Hext & Hreg & Hvars). split_and!; try done.
    exists (tneg tf). split_and!; [done|apply interp_tneg|apply depth_tneg].
  - done.
Qed.

(** The three shapes of operator built on [_ite]. *)
Lemma ite_op_spec lim st f g h tf tg th :
  wf_state st →
  denotes (nodes st) f tf → denotes (nodes st) g tg → denotes (nodes st) h th →
  dpost st (bind (on_nodes (_ite lim f g h)) _obdd st)
    (op_post st (λ e, if interp tf e then interp tg e else interp th e)
       (depth tf + depth tg + depth th))
    (limit_exn lim (depth tf + depth tg + depth th + 1)).
Proof.
  intros Hwf Hf Hg Hh.
  eapply dpost_mono;
    [apply (lift_obdd_spec st _ (ite_post tf tg th)
              (limit_exn lim (depth tf + depth tg + depth th + 1)) Hwf)|..].
  - eapply post_mono;
      [apply (ite_spec lim _ f g h tf tg th (ws_nodes st Hwf) Hf Hg Hh)|..]; [|done].
    intros r s' Hwf' _ Hr. simpl in Hr. split; [done|].
    destruct Hr as (tr & Hr & _). by eapply denotes_lt.
  - intros d st' _ _ (Hk & (tr & Hd & Hsem & _ & Hdep) & Hext & Hreg & Hvars).
    split_and!; try done. by exists tr.
  - done.
Qed.

Lemma neg_ite_op_spec lim st (a : ref) ta
    (pick : ref → ref * ref * ref) (F : bool → env → bool) bound :
  wf_state st → denotes (nodes st) a ta →
  (∀ s' na, nodes st ⊑ s' → denotes s' na (tneg ta) →
     ∃ t1 t2 t3, denotes s' (pick na).1.1 t1 ∧ denotes s' (pick na).1.2 t2 ∧
                 denotes s' (pick na).2 t3 ∧
                 depth t1 + depth t2 + depth t3 ≤ bound ∧
                 ∀ e, (if interp t1 e then interp t2 e else interp t3 e)
                      = F (interp ta e) e) →
  depth ta ≤ bound →
  dpost st
    (bind (on_nodes (_neg lim a))
       (λ na, bind (on_nodes (_ite lim (pick na).1.1 (pick na).1.2 (pick na).2)) _obdd) st)
    (op_post st (λ e, F (interp ta e) e) bound)
    (limit_exn lim (bound + 1)).
Proof.
  intros Hwf Ha Hpick Hbound. rewrite on_nodes_bind.
  eapply dpost_mono;
    [apply (lift_obdd_spec st _
              (λ r s', ∃ t, denotes s' r t ∧ (∀ e, interp t e = F (interp ta e) e) ∧
                            depth t ≤ bound)
              (limit_exn lim (bound + 1)) Hwf)|..].
  - eapply post_bind'; [apply (neg_spec lim _ a ta (ws_nodes st Hwf) Ha)|..].
    { intros e [-> ?]. split; [done|lia]. }
    intros na s1 Hwf1 Hs1 Hna.
    destruct (Hpick s1 na Hs1 Hna) as (t1 & t2 & t3 & H1 & H2 & H3 & Hd & Hsem).
    eapply post_mono; [apply (ite_spec lim s1 _ _ _ t1 t2 t3 Hwf1 H1 H2 H3)|..].
    + intros r s' Hwf' _ (tr & Hr & Hs & _ & Hdr). split; [|by eapply denotes_lt].
      exists tr. split_and!; [done| |lia]. intros e. by rewrite Hs, Hsem.
    + intros e [-> ?]. split; [done|lia].
  - intros d st' _ _ (Hk & Ht & Hext & Hreg & Hvars). by split_and!.
  - done.
Qed.

Lemma or_spec lim st f other g tf tg :
  wf_state st → boxed other = Some g →
  denotes (nodes st) (node_of f) tf → denotes (nodes st) (node_of g) tg →
  dpost st (__or__ lim f other st)
    (op_post st (λ e, interp tf e || interp tg e) (depth tf + depth tg))
    (limit_exn lim (depth tf + depth tg + 1)).
Proof.
  intros Hwf Hb Hf Hg. unfold __or__. rewrite bind_box, Hb.
  eapply dpost_mono;
    [apply (ite_op_spec lim st _ _ _ tf (Leaf true) tg Hwf Hf (denotes_one _) Hg)|..].
  - intros d st' _ _ (? & ? & ? & ? & t & ? & Hs & ?). split_and!; try done.
    exists t. split_and!; [done| |simpl in *; lia].
    intros e. rewrite Hs. simpl. by destruct (interp tf e).
  - intros e [-> ?]. split; [done|simpl in *; lia].
Qed.

Lemma and_spec lim st f other g tf tg :
  wf_state st → boxed other = Some g →
  denotes (nodes st) (node_of f) tf → denotes (nodes st) (node_of g) tg →
  dpost st (__and__ lim f other st)
    (op_post st (λ e, interp tf e && interp tg e) (depth tf + depth tg))
    (limit_exn lim (depth tf + depth tg + 1)).
Proof.
  intros Hwf Hb Hf Hg. unfold __and__. rewrite bind_box, Hb.
  eapply dpost_mono;
    [apply (ite_op_spec lim st _ _ _ tf tg (Leaf false) Hwf Hf Hg (denotes_zero _))|..].
  - intros d st' _ _ (? & ? & ? & ? & t & ? & Hs & ?). split_and!; try done.
    exists t. split_and!; [done| |simpl in *; lia].
    intros e. rewrite Hs. simpl. by destruct (interp tf e).
  - intros e [-> ?]. split; [done|simpl in *; lia].
Qed.

Lemma xor_spec lim st f other g tf tg :
  wf_state st → boxed other = Some g →
  denotes (nodes st) (node_of f) tf → denotes (nodes st) (node_of g) tg →
  dpost st (__xor__ lim f other st)
    (op_post st (λ e, xorb (interp tf e) (interp tg e)) (depth tf + 2 * depth tg))
    (limit_exn lim (depth tf + 2 * depth tg + 1)).
Proof.
  intros Hwf Hb Hf Hg. unfold __xor__. rewrite bind_box, Hb.
  eapply dpost_mono;
    [apply (neg_ite_op_spec lim st (node_of g) tg
              (λ na, (node_of f, na, node_of g))
              (λ b e, if interp tf e then negb b else b)
              (depth tf + 2 * depth tg) Hwf Hg)|..].
  - intros s' na Hs' Hna. exists tf, (tneg tg), tg. cbn [fst snd].
    split_and!; eauto using denotes_extends.
    + pose proof (depth_tneg tg). lia.
    + intros e. by rewrite interp_tneg.
  - lia.
  - intros d st' _ _ (? & ? & ? & ? & t & ? & Hs & ?). split_and!; try done.
    exists t. split_and!; [done| |done].
    intros e. rewrite Hs. by destruct (interp tf e), (interp tg e).
  - done.
Qed.

Lemma rshift_spec lim st f other g tf tg :
  wf_state st → boxed other = Some g →
  denotes (nodes st) (node_of f) tf → denotes (nodes st) (node_of g) tg →
  dpost st (__rshift__ lim f other st)
    (op_post st (λ e, implb (interp tf e) (interp tg e)) (depth tf + depth tg))
    (limit_exn lim (depth tf + depth tg + 1)).
Proof.
  intros Hwf Hb Hf Hg. unfold __rshift__. rewrite bind_box, Hb.
  eapply dpost_mono;
    [apply (neg_ite_op_spec lim st (node_of f) tf
              (λ na, (na, BDDNODEONE, node_of g))
              (λ b e, implb b (interp tg e))
              (depth tf + depth tg) Hwf Hf)|..].
  - intros s' na Hs' Hna. exists (tneg tf), (Leaf true), tg. cbn [fst snd].
    split_and!; eauto using denotes_extends, denotes_one.
    + pose proof (depth_tneg tf). simpl. lia.
    + intros e. rewrite interp_tneg. simpl. by destruct (interp tf e).
  - lia.
  - done.
  - done.
Qed.

Lemma rrshift_spec lim st f other g tf tg :
  wf_state st → boxed other = Some g →
  denotes (nodes st) (node_of f) tf → denotes (nodes st) (node_of g) tg →
  dpost st (__rrshift__ lim f other st)
    (op_post st (λ e, implb (interp tg e) (interp tf e)) (depth tf + depth tg))
    (limit_exn lim (depth tf + depth tg + 1)).
Proof.
  intros Hwf Hb Hf Hg. unfold __rrshift__. rewrite bind_box, Hb.
  eapply dpost_mono;
    [apply (neg_ite_op_spec lim st (node_of g) tg
              (λ na, (na, BDDNODEONE, node_of f))
              (λ b e, implb b (interp tf e))
              (depth tf + depth tg) Hwf Hg)|..].
  - intros s' na Hs' Hna. exists (tneg tg), (Leaf true), tf. cbn [fst snd].
    split_and!; eauto using denotes_extends, denotes_one.
    + pose proof (depth_tneg tg). simpl. lia.
    + intros e. rewrite interp_tneg. simpl. by destruct (interp tg e).
  - lia.
  - done.
  - done.
Qed.

(** *** [restrict] on diagrams *)

Lemma lookup_ref (s : store) (a : ref) :
  a < length (objs s) → ∃ o, objs s !! a = Some o.
Proof. intros Hlt. by apply lookup_lt_is_Some_2. Qed.

Lemma state_eta st :
  {| reg := reg st; nodes := nodes st; _VARS := _VARS st; _BDDS := _BDDS st |} = st.
Proof. by destruct st. Qed.

Lemma bind_on_nodes_root {B} st (a : ref) o (k : Z → M state B) :
  objs (nodes st) !! a = Some o →
  bind (on_nodes (attr_root a)) k st = k (root o) st.
Proof.
  intros Ha. unfold bind at 1. unfold on_nodes, attr_root.
  rewrite (bind_getobj _ _ _ _ Ha). simpl. by rewrite state_eta.
Qed.

(** The dictionary [restrict] builds from its argument, when every value
    can be boxed. *)
Fixpoint npoint_pure (s : store) (items : list (obdd * pyval obdd))
    (acc : gmap Z ref) : option (gmap Z ref) :=
  match items with
  | [] => Some acc
  | (v, val) :: items =>
      match objs s !! node_of v, boxed val with
      | Some o, Some d => npoint_pure s items (<[root o := node_of d]> acc)
      | _, _ => None
      end
  end.

Definition point_known (st : state) (point : list (obdd * pyval obdd)) : Prop :=
  ∀ v val, (v, val) ∈ point → known st v ∧ pv_known st val.

Lemma npoint_of_eq st point acc :
  wf_state st → point_known st point →
  npoint_of point acc st =
    match npoint_pure (nodes st) point acc with
    | Some np => (Ok np, st)
    | None => (Raise TypeError, st)
    end.
Proof.
  intros Hwf. revert acc. induction point as [|[v val] point IH]; intros acc Hk; [done|].
  assert (known st v) as Hv by (apply (Hk v val); left).
  pose proof (known_lt st v Hwf Hv) as Hlt.
  destruct (lookup_ref _ _ Hlt) as [o Ho].
  cbn [npoint_of npoint_pure]. rewrite (bind_on_nodes_root st _ o) by done.
  rewrite bind_box, Ho. destruct (boxed val) as [d|]; [|done].
  apply IH. intros v' val' Hin. apply Hk. by right.
Qed.

Lemma restrict_d_spec lim st f point np tf :
  wf_state st → point_known st point →
  npoint_pure (nodes st) point ∅ = Some np →
  denotes (nodes st) (node_of f) tf →
  dpost st (restrict lim f point st)
    (λ d st', known st' d ∧ nodes st ⊑ nodes st' ∧ reg st' = reg st ∧
              _VARS st' = _VARS st ∧
              denotes (nodes st') (node_of d) (trestrict (pt_of np) tf))
    (restrict_exn lim tf np).
Proof.
  intros Hwf Hk Hnp Hf. unfold restrict. unfold bind at 1.
  rewrite (npoint_of_eq st point ∅ Hwf Hk), Hnp.
  eapply dpost_bind.
  { apply dpost_on_nodes; [done|].
    apply (restrict_spec lim _ _ tf np None (ws_nodes st Hwf) Hf).
    apply cache_ok_empty. }
  { done. }
  intros [r c] st1 Hwf1 Hle1 [[Hr _] (Hreg & Hvars & Hbdds & Hext)]. simpl in Hr.
  eapply dpost_mono; [apply (obdd_spec st1 r (λ _, False)); [done|]|..].
  - eapply denotes_lt; [apply (ws_nodes st1 Hwf1)|done].
  - intros d st2 _ _ (Hkd & Hd & Hnodes & Hreg2 & Hvars2). simpl in Hd.
    rewrite Hnodes, Hd. split_and!; try done; congruence.
  - by intros ? [].
Qed.

(** *** Variable diagrams *)

Definition var_post (name index : pyval obdd) (d : obdd) (st' : state) : Prop :=
  known st' d ∧
  ∃ bvar n, d = OBDDVariable bvar n ∧ _VARS st' !! uniqid bvar = Some d ∧
            denotes (nodes st') n (Node (uniqid bvar) (Leaf false) (Leaf true)) ∧
            _UNIQIDS (reg st') !! key_of name index = Some (uniqid bvar).

Lemma obddvar_spec name index st :
  wf_state st →
  dpost st (obddvar name index st) (var_post name index)
    (λ e, (e = TypeError ∨ e = ValueError) ∧ invalid_identifier name index).
Proof.
  intros Hwf. unfold obddvar. unfold bind at 1. unfold on_reg at 1.
  pose proof (ws_reg st Hwf) as Hreg.
  destruct (var_any name index (reg st) Hreg) as (_ & _ & [Hi|Hv] & _).
  { destruct (var_invalid_eq name index (reg st) Hi) as (e & He & ->).
    cbn [fst snd]. rewrite state_eta. by apply dpost_intro. }
  destruct (var_spec name index (reg st) Hreg Hv)
    as (v & u & r' & -> & Hreg' & Hle' & Hkv & Hku & Hobj & _).
  cbn [fst snd]. set (key := key_of name index) in *.
  set (st1 := {| reg := r'; nodes := nodes st; _VARS := _VARS st; _BDDS := _BDDS st |}).
  assert (wf_state st1) as Hwf1.
  { split; try apply Hwf. exact Hreg'. }
  assert (st ≼ st1) as Hle1.
  { split; try done. by unfold grows. }
  unfold bind at 1, get. cbn [reg st1]. rewrite Hobj. cbn [uniqid _VARS st1].
  pose proof (ri_range r' Hreg' _ _ Hku) as Hupos.
  destruct (_VARS st !! u) as [var|] eqn:Hvar.
  { apply dpost_intro; [done..|].
    destruct (ws_vars st Hwf u var Hvar) as (bvar & n & -> & Hu & _ & Hden & Hb).
    split; [exact Hb|]. exists bvar, n. rewrite Hu. by split_and!. }
  unfold OBDDVariable__init__. cbn [names indices uniqid].
  destruct (Variable_init_spec key.1 key.2 r' Hreg')
    as (u' & r'' & Hinit & _ & _ & Hu' & _ & _ & _ & Hsame & _).
  rewrite <- surjective_pairing in Hu', Hsame.
  rewrite (Hsame (ex_intro _ u Hku)) in Hinit, Hu'.
  assert (u' = u) as -> by congruence.
  pose proof (ws_nodes st Hwf) as Hwfn.
  destruct (obddnode_core (nodes st) u BDDNODEZERO BDDNODEONE (Leaf false) (Leaf true))
    as (n & s' & Hmk & Hwf' & Hgrow & Hden & Hroots);
    [done|constructor|constructor|lia|done|done|].
  change (mk u (Leaf false) (Leaf true)) with (Node u (Leaf false) (Leaf true)) in Hden.
  unfold bind, on_reg, on_nodes, ret, get, put. cbn [reg nodes _VARS _BDDS st1 fst snd].
  rewrite Hinit. cbn [fst snd]. rewrite Hmk. cbn [fst snd node_of].
  set (var := OBDDVariable (mkVariable u key.1 key.2) n).
  assert (¬ root_in (nodes st) u) as Hnoroot.
  { intros Hin. destruct (ws_roots st Hwf u Hin) as [? ?]; [lia|congruence]. }
  assert (_BDDS st !! n = None) as Hfresh.
  { destruct (_BDDS st !! n) as [d|] eqn:Hd; [|done]. exfalso.
    destruct (ws_bdds st Hwf n d Hd) as [_ Hlt].
    apply Hnoroot. destruct (lookup_ref _ _ Hlt) as [o Ho].
    exists n, o. split; [done|].
    apply (grows_lookup _ s') in Ho; [|done].
    inversion Hden as [| |? ? l h ? ? ? ? Hobj' ? ?]; subst.
    pose proof (eq_trans (eq_sym Ho) Hobj') as Heq. by injection Heq as ->. }
  apply dpost_intro.
  - split; cbn [reg nodes _VARS _BDDS].
    + done.
    + done.
    + intros n' d Hn'. apply lookup_insert_Some in Hn' as [[<- <-]|[_ Hn']].
      * split; [done|]. by eapply denotes_lt.
      * destruct (ws_bdds st Hwf n' d Hn') as [? ?]. split; [done|].
        pose proof (prefix_length _ _ Hgrow). lia.
    + rewrite lookup_insert_ne; [apply (ws_zero st Hwf)|].
      intros ->. by apply denotes_zero_inv in Hden.
    + rewrite lookup_insert_ne; [apply (ws_one st Hwf)|].
      intros ->. by apply denotes_one_inv in Hden.
    + intros w d Hw. apply lookup_insert_Some in Hw as [[<- <-]|[Hne Hw]].
      * eexists _, n. split_and!; [done|done|lia|done|apply lookup_insert_eq].
      * destruct (ws_vars st Hwf w d Hw) as (bvar & n' & ? & ? & ? & Hd' & Hb').
        exists bvar, n'. split_and!; try done; [by eapply denotes_grows|].
        rewrite lookup_insert_ne; [done|]. intros ->. congruence.
    + intros w Hw Hpos. destruct (Hroots w Hw) as [Hold| ->].
      * rewrite lookup_insert_is_Some. right.
        split; [|by apply (ws_roots st Hwf)]. intros ->. done.
      * rewrite lookup_insert_eq. eauto.
  - split; cbn [reg nodes _VARS _BDDS]; [done|done|..]; by apply insert_subseteq.
  - split.
    + unfold known. cbn. apply lookup_insert_eq.
    + eexists _, n. cbn [reg nodes _VARS _BDDS uniqid].
      split_and!; [done|apply lookup_insert_eq|done|done].
Qed.

(** *** The public operations and the states they reach *)

(** A call of a public operation of the module on diagrams. *)
Inductive call : Type :=
  | Cobddvar (name index : pyval obdd)
  | Cinvert (self : obdd)
  | Cor (self : obdd) (other : pyval obdd)
  | Cand (self : obdd) (other : pyval obdd)
  | Cxor (self : obdd) (other : pyval obdd)
  | Crshift (self : obdd) (other : pyval obdd)
  | Crrshift (self : obdd) (other : pyval obdd)
  | Crestrict (self : obdd) (point : list (obdd * pyval obdd)).

Definition exec (lim : nat) (c : call) : M state obdd :=
  match c with
  | Cobddvar name index => obddvar name index
  | Cinvert self => __invert__ lim self
  | Cor self other => __or__ lim self other
  | Cand self other => __and__ lim self other
  | Cxor self other => __xor__ lim self other
  | Crshift self other => __rshift__ lim self other
  | Crrshift self other => __rrshift__ lim self other
  | Crestrict self point => restrict lim self point
  end.

(** The diagrams a call is given are diagrams the caller holds. *)
Definition args_known (st : state) (c : call) : Prop :=
  match c with
  | Cobddvar _ _ => True
  | Cinvert self => known st self
  | Cor self other | Cand self other | Cxor self other
  | Crshift self other | Crrshift self other =>
      known st self ∧ pv_known st other
  | Crestrict self point => known st self ∧ point_known st point
  end.

(** The states a program reaches from the initial one by calls of the
    public operations, whatever their outcome. *)
Inductive reachable : state → Prop :=
  | reachable_init : reachable state0
  | reachable_step st lim c :
      reachable st → args_known st c → reachable (exec lim c st).2.

Lemma binop_exec_spec st f other
    (op : obdd → pyval obdd → M state obdd)
    (F : bdd → bdd → env → bool) (bound : bdd → bdd → nat) (lb : bdd → bdd → nat) :
  (∀ s, boxed other = None → op f other s = (Raise TypeError, s)) →
  (∀ g tf tg, wf_state st → boxed other = Some g →
     denotes (nodes st) (node_of f) tf → denotes (nodes st) (node_of g) tg →
     dpost st (op f other st) (op_post st (F tf tg) (bound tf tg))
       (limit_exn (lb tf tg) (bound tf tg + 1))) →
  wf_state st → known st f → pv_known st other →
  dpost st (op f other st) (λ d st', known st' d) (λ _, True).
Proof.
  intros Hnone Hspec Hwf Hf Ho.
  destruct (boxed other) as [g|] eqn:Hb.
  - destruct (known_denotes st f Hwf Hf) as (tf & Htf & _).
    destruct (known_denotes st g Hwf (boxed_known st other g Hwf Ho Hb)) as (tg & Htg & _).
    eapply dpost_mono; [apply (Hspec g tf tg); done|..]; [|done].
    by intros d st' _ _ (? & _).
  - rewrite Hnone by done. by apply dpost_intro.
Qed.

Lemma exec_spec lim c st :
  wf_state st → args_known st c →
  dpost st (exec lim c st) (λ d st', known st' d) (λ _, True).
Proof.
  intros Hwf Hc. destruct c as [name index|f|f o|f o|f o|f o|f o|f point]; simpl in *.
  - eapply dpost_mono; [by apply obddvar_spec|..]; [|done].
    by intros d st' _ _ [? _].
  - destruct (known_denotes st f Hwf Hc) as (tf & Htf & _).
    eapply dpost_mono; [by apply (invert_spec lim st f tf)|..]; [|done].
    by intros d st' _ _ (? & _).
  - destruct Hc. apply (binop_exec_spec st f o (__or__ lim)
      (λ tf tg e, interp tf e || interp tg e) (λ tf tg, depth tf + depth tg)
      (λ _ _, lim)); auto.
    + intros s Hb. unfold __or__. by rewrite bind_box, Hb.
    + intros. by eapply or_spec.
  - destruct Hc. apply (binop_exec_spec st f o (__and__ lim)
      (λ tf tg e, interp tf e && interp tg e) (λ tf tg, depth tf + depth tg)
      (λ _ _, lim)); auto.
    + intros s Hb. unfold __and__. by rewrite bind_box, Hb.
    + intros. by eapply and_spec.
  - destruct Hc. apply (binop_exec_spec st f o (__xor__ lim)
      (λ tf tg e, xorb (interp tf e) (interp tg e)) (λ tf tg, depth tf + 2 * depth tg)
      (λ _ _, lim)); auto.
    + intros s Hb. unfold __xor__. by rewrite bind_box, Hb.
    + intros. by eapply xor_spec.
  - destruct Hc. apply (binop_exec_spec st f o (__rshift__ lim)
      (λ tf tg e, implb (interp tf e) (interp tg e)) (λ tf tg, depth tf + depth tg)
      (λ _ _, lim)); auto.
    + intros s Hb. unfold __rshift__. by rewrite bind_box, Hb.
    + intros. by eapply rshift_spec.
  - destruct Hc. apply (binop_exec_spec st f o (__rrshift__ lim)
      (λ tf tg e, implb (interp tg e) (interp tf e)) (λ tf tg, depth tf + depth tg)
      (λ _ _, lim)); auto.
    + intros s Hb. unfold __rrshift__. by rewrite bind_box, Hb.
    + intros. by eapply rrshift_spec.
  - destruct Hc as [Hf Hp].
    destruct (npoint_pure (nodes st) point ∅) as [np|] eqn:Hnp.
    + destruct (known_denotes st f Hwf Hf) as (tf & Htf & _).
      eapply dpost_mono; [by apply (restrict_d_spec lim st f point np tf)|..]; [|done].
      by intros d st' _ _ (? & _).
    + unfold restrict. unfold bind at 1.
      rewrite (npoint_of_eq st point ∅ Hwf Hp), Hnp. by apply dpost_intro.
Qed.

Lemma reachable_wf st : reachable st → wf_state st.
Proof.
  induction 1 as [|st lim c _ IH Hc]; [apply wf_state0|].
  by destruct (exec_spec lim c st IH Hc) as (? & _).
Qed.

(** *** Reduced and ordered *)

(** A node that is not a terminal has two distinct children, a positive
    root, and a root below the root of any child that is not a terminal. *)
Definition reduced_ordered (s : store) : Prop :=
  ∀ (a : ref) o, objs s !! a = Some o → a ≠ BDDNODEZERO → a ≠ BDDNODEONE →
    ∃ l h, lo o = Some l ∧ hi o = Some h ∧ l ≠ h ∧ (0 < root o)%Z ∧
           ∀ (c : ref) oc, c = l ∨ c = h → c ≠ BDDNODEZERO → c ≠ BDDNODEONE →
             objs s !! c = Some oc → (root o < root oc)%Z.

Lemma wf_reduced_ordered s : wf s → reduced_ordered s.
Proof.
  intros Hwf a o Ha Hz Ho.
  destruct (wf_den s Hwf a) as (t & Ht & Hb & Hr); [by eapply lookup_lt_Some|].
  destruct Ht as [| |a v l h tl th _ _ Hobj Hl Hh]; [done..|].
  pose proof (eq_trans (eq_sym Ha) Hobj) as Heq. injection Heq as ->.
  destruct Hb as (Hv & Hbl & Hbh), Hr as (Hne & _ & _).
  exists l, h. simpl. split_and!; try done.
  - intros ->. apply Hne. eapply denotes_fun; eauto.
  - assert (∀ (c : ref) tc oc, denotes s c tc → bounded v tc →
              c ≠ BDDNODEZERO → c ≠ BDDNODEONE → objs s !! c = Some oc →
              (v < root oc)%Z) as Hchild.
    { intros c tc oc Hc Hbc Hcz Hco Hoc.
      destruct Hc as [| |c w cl ch tcl tch _ _ Hobjc _ _]; [done..|].
      pose proof (eq_trans (eq_sym Hoc) Hobjc) as Heq. injection Heq as ->.
      simpl. by destruct Hbc. }
    intros c oc [->| ->]; eauto.
Qed.

(** C4. In every state the public operations reach (variable construction,
    the operators built on [_ite] and [_neg], and [restrict]), each node
    object that is not a terminal has two distinct children and a root
    strictly below the root of each child that is not a terminal. *)
Theorem reduced_ordered_invariant st :
  reachable st → reduced_ordered (nodes st).
Proof.
  intros Hr. apply wf_reduced_ordered. apply (ws_nodes st). by apply reachable_wf.
Qed.

(** The state after [a = obddvar("a")], and the diagram [a]. *)
Definition demo_a : state := (exec 0 (Cobddvar (PyStr "a") PyNone) state0).2.
Definition var_a : obdd := OBDDVariable (mkVariable 1 ["a"%string] []) 2.

Lemma reachable_demo_a : reachable demo_a.
Proof. apply reachable_step; [apply reachable_init|exact I]. Qed.

Lemma reduced_ordered_invariant_witness :
  reachable demo_a ∧ reduced_ordered (nodes demo_a).
Proof.
  split; [apply reachable_demo_a|].
  apply (reduced_ordered_invariant demo_a reachable_demo_a).
Defined.

(** *** Canonicity *)


Lemma known_var_a : known demo_a var_a.
Proof. vm_compute. reflexivity. Qed.


(** *** If-then-else computes if-then-else *)

(** The general case of [_ite] once the splitting variable [root] is
    chosen: the six restrictions, the two recursive calls, the rebuilt
    node. *)
Definition shannon (lim : nat) (root : Z) (f g h : ref) : M store ref :=
  let npoint0 : gmap Z ref := {[ root := BDDNODEZERO ]} in
  let npoint1 : gmap Z ref := {[ root := BDDNODEONE ]} in
  '(fv0, _) <- _restrict lim f npoint0 None;
  '(gv0, _) <- _restrict lim g npoint0 None;
  '(hv0, _) <- _restrict lim h npoint0 None;
  '(fv1, _) <- _restrict lim f npoint1 None;
  '(gv1, _) <- _restrict lim g npoint1 None;
  '(hv1, _) <- _restrict lim h npoint1 None;
  r0 <- _ite lim fv0 gv0 hv0;
  r1 <- _ite lim fv1 gv1 hv1;
  _obddnode root r0 r1.

(** [x] is the least root among the nodes of [f], [g], [h] that are not
    terminals. *)
Definition least_root (s : store) (x : Z) (f g h : ref) : Prop :=
  (∃ (n : ref) o, (n = f ∨ n = g ∨ n = h) ∧ n ≠ BDDNODEZERO ∧ n ≠ BDDNODEONE ∧
                  objs s !! n = Some o ∧ root o = x) ∧
  ∀ (n : ref) o, (n = f ∨ n = g ∨ n = h) → n ≠ BDDNODEZERO → n ≠ BDDNODEONE →
                 objs s !! n = Some o → (x ≤ root o)%Z.

Lemma denotes_node_root s (n : ref) t o :
  denotes s n t → n ≠ BDDNODEZERO → n ≠ BDDNODEONE → objs s !! n = Some o →
  ∃ l h, t = Node (root o) l h.
Proof.
  intros Hn Hz Ho Hobj. destruct Hn as [| |n v l h tl th _ _ Hobj' _ _]; [done..|].
  pose proof (eq_trans (eq_sym Hobj) Hobj') as Heq. injection Heq as ->.
  by exists tl, th.
Qed.

Lemma denotes_troot_pos s (n : ref) t :
  wf s → denotes s n t → (0 < troot t)%Z → n ≠ BDDNODEZERO ∧ n ≠ BDDNODEONE.
Proof.
  intros Hwf Hn Hpos. destruct Hn; simpl in Hpos; [lia..|done].
Qed.

Lemma least_root_of_trees s x f g h tf tg th :
  wf s → denotes s f tf → denotes s g tg → denotes s h th → (0 < x)%Z →
  above x tf → above x tg → above x th →
  troot tf = x ∨ troot tg = x ∨ troot th = x →
  least_root s x f g h.
Proof.
  intros Hwf Hf Hg Hh Hx Haf Hag Hah Hmin. split.
  - destruct Hmin as [Hm|[Hm|Hm]].
    + destruct (denotes_root _ _ _ Hwf Hf) as (o & Ho & Hr).
      destruct (denotes_troot_pos s f tf Hwf Hf) as [? ?]; [lia|].
      exists f, o. split_and!; auto. congruence.
    + destruct (denotes_root _ _ _ Hwf Hg) as (o & Ho & Hr).
      destruct (denotes_troot_pos s g tg Hwf Hg) as [? ?]; [lia|].
      exists g, o. split_and!; auto. congruence.
    + destruct (denotes_root _ _ _ Hwf Hh) as (o & Ho & Hr).
      destruct (denotes_troot_pos s h th Hwf Hh) as [? ?]; [lia|].
      exists h, o. split_and!; auto. congruence.
  - assert (∀ (n : ref) t o, denotes s n t → above x t → n ≠ BDDNODEZERO →
              n ≠ BDDNODEONE → objs s !! n = Some o → (x ≤ root o)%Z) as Hone.
    { intros n t o Hn Ha Hz Ho Hobj.
      destruct (denotes_node_root s n t o Hn Hz Ho Hobj) as (l & r & ->). done. }
    intros n o [->|[->| ->]]; eauto.
Qed.

(** C2. On nodes of a well-formed store, [_ite(f, g, h)] returns, once the
    recursion limit is large enough, a node whose Boolean function is "if f
    then g else h", in a store that is still well formed and keeps every
    object.  The five shortcuts apply in the order of the source, the first
    that matches deciding the result; when none matches, the call is the
    Shannon expansion on the least root among the nodes of [f], [g], [h]
    that are not terminals. *)
Theorem ite_computes_ite (s : store) (f g h : ref) :
  wf s → f < length (objs s) → g < length (objs s) → h < length (objs s) →
  (∃ N, ∀ lim, N ≤ lim →
     ∃ r s', _ite lim f g h s = (Ok r, s') ∧ wf s' ∧ s ⊑ s' ∧
             r < length (objs s') ∧
             ∀ e, eval s' r e = if eval s f e then eval s g e else eval s h e) ∧
  (∀ lim,
     (g = BDDNODEONE ∧ h = BDDNODEZERO → _ite (S lim) f g h s = (Ok f, s)) ∧
     (¬ (g = BDDNODEONE ∧ h = BDDNODEZERO) →
      (g = BDDNODEZERO ∧ h = BDDNODEONE → _ite (S lim) f g h s = _neg lim f s) ∧
      (¬ (g = BDDNODEZERO ∧ h = BDDNODEONE) →
       (f = BDDNODEONE → _ite (S lim) f g h s = (Ok g, s)) ∧
       (f ≠ BDDNODEONE →
        (f = BDDNODEZERO → _ite (S lim) f g h s = (Ok h, s)) ∧
        (f ≠ BDDNODEZERO →
         (g = h → _ite (S lim) f g h s = (Ok g, s)) ∧
         (g ≠ h →
          ∃ x, least_root s x f g h ∧
               _ite (S lim) f g h s = shannon lim x f g h s)))))).
Proof.
  intros Hwf Hf Hg Hh.
  destruct (wf_den s Hwf f Hf) as (tf & Htf & Hrf).
  destruct (wf_den s Hwf g Hg) as (tg & Htg & Hrg).
  destruct (wf_den s Hwf h Hh) as (th & Hth & Hrh).
  split.
  - exists (depth tf + depth tg + depth th + 2). intros lim Hlim.
    pose proof (ite_spec lim s f g h tf tg th Hwf Htf Htg Hth) as (Hwf' & Hext & Hres).
    destruct (_ite lim f g h s) as [[r|e] s'] eqn:Hite; simpl in *.
    + destruct Hres as (tr & Hr & Hsem & _).
      exists r, s'. split_and!; try done; [by eapply denotes_lt|].
      intros e. rewrite (eval_interp s' r tr), (eval_interp s f tf),
        (eval_interp s g tg), (eval_interp s h th) by done. apply Hsem.
    + destruct Hres as [_ ?]. lia.
  - intros lim. cbn [_ite]. split; [intros Hc; by rewrite decide_True|].
    intros H1. rewrite decide_False by exact H1.
    split; [intros Hc; by rewrite decide_True|].
    intros H2. rewrite decide_False by exact H2.
    split; [intros Hc; by rewrite decide_True|].
    intros H3. rewrite decide_False by exact H3.
    split; [intros Hc; by rewrite decide_True|].
    intros H4. rewrite decide_False by exact H4.
    split; [intros Hc; by rewrite decide_True|].
    intros H5. rewrite decide_False by exact H5.
    destruct (denotes_root _ _ _ Hwf Htf) as (obf & Hof & Hrootf).
    destruct (denotes_root _ _ _ Hwf Htg) as (og & Hog & Hrootg).
    destruct (denotes_root _ _ _ Hwf Hth) as (oh & Hoh & Hrooth).
    rewrite (bind_attr_root _ _ _ _ Hof), (bind_attr_root _ _ _ _ Hog),
      (bind_attr_root _ _ _ _ Hoh), Hrootf, Hrootg, Hrooth.
    assert (∃ v l r, tf = Node v l r) as (v & tl & tr & Heq).
    { destruct Htf; [done|done|eauto]. }
    destruct (minroot_spec tf tg th v tl tr Heq Hrf Hrg Hrh)
      as (x & -> & Hx & Haf & Hag & Hah & Hmin).
    exists x. split; [by eapply least_root_of_trees|]. by rewrite bind_lift_ok.
Qed.

Lemma wf_demo_a : wf (nodes demo_a).
Proof. apply (ws_nodes demo_a), reachable_wf, reachable_demo_a. Qed.

Lemma ite_computes_ite_witness :
  wf (nodes demo_a) ∧
  ∃ N, ∀ lim, N ≤ lim →
    ∃ r s', _ite lim 2 1 0 (nodes demo_a) = (Ok r, s') ∧ wf s' ∧
            nodes demo_a ⊑ s' ∧ r < length (objs s') ∧
            ∀ e, eval s' r e = if eval (nodes demo_a) 2 e
                               then eval (nodes demo_a) 1 e
                               else eval (nodes demo_a) 0 e.
Proof.
  split; [apply wf_demo_a|].
  apply (ite_computes_ite (nodes demo_a) 2 1 0 wf_demo_a); vm_compute; lia.
Defined.

(** *** Algebraic laws *)

Lemma bind_eq {S A B} (m : M S A) (k : A → M S B) s a s' :
  m s = (Ok a, s') → bind m k s = k a s'.
Proof. intros H. unfold bind. by rewrite H. Qed.

(** An operator that is given enough recursion depth returns. *)
Lemma run_of_dpost st (out : result obdd * state) F bound lim B :
  dpost st out (op_post st F bound) (limit_exn lim B) → B < lim →
  ∃ d st' t, out = (Ok d, st') ∧ wf_state st' ∧ st ≼ st' ∧
             nodes st ⊑ nodes st' ∧ known st' d ∧
             denotes (nodes st') (node_of d) t ∧
             (∀ e, interp t e = F e) ∧ depth t ≤ bound.
Proof.
  destruct out as [[d|e] st']; intros (Hwf & Hle & Hres) Hlim; simpl in *.
  - destruct Hres as (Hk & Hext & _ & _ & t & Ht & Hsem & Hd).
    exists d, st', t. by split_and!.
  - destruct Hres as [_ ?]. lia.
Qed.

Lemma same_function_same_diagram st d1 d2 t1 t2 :
  wf_state st → known st d1 → known st d2 →
  denotes (nodes st) (node_of d1) t1 → denotes (nodes st) (node_of d2) t2 →
  (∀ e, interp t1 e = interp t2 e) → d1 = d2.
Proof.
  intros Hwf H1 H2 Ht1 Ht2 Hsem. pose proof (ws_nodes st Hwf) as Hwfn.
  destruct (denotes_robdd _ _ _ Hwfn Ht1) as [Hb1 Hr1].
  destruct (denotes_robdd _ _ _ Hwfn Ht2) as [Hb2 Hr2].
  assert (t1 = t2) as -> by (eapply tree_canonical; eauto).
  apply (known_inj st); [done..|]. eapply denotes_inj; eauto.
Qed.

(** Moving what is known about diagrams to a later state. *)
Ltac sfwd :=
  repeat match goal with
  | H : denotes (nodes ?s) ?a ?t, Hs : nodes ?s ⊑ nodes ?s' |- _ =>
      apply (denotes_extends (nodes s) (nodes s') a t Hs) in H
  | H : known ?s ?d, Hs : ?s ≼ ?s' |- _ =>
      apply (known_le s s' d Hs) in H
  end.

(** The two sides of each law, computed one after the other. *)
Definition law_double_negation (lim : nat) (f : obdd) : M state (obdd * obdd) :=
  nf <- __invert__ lim f;
  nnf <- __invert__ lim nf;
  ret (nnf, f).

Definition law_de_morgan (lim : nat) (f g : obdd) : M state (obdd * obdd) :=
  fg <- __or__ lim f (PyObj g);
  l <- __invert__ lim fg;
  nf <- __invert__ lim f;
  ng <- __invert__ lim g;
  r <- __and__ lim nf (PyObj ng);
  ret (l, r).

Definition law_xor_self (lim : nat) (f : obdd) : M state (obdd * obdd) :=
  x <- __xor__ lim f (PyObj f);
  ret (x, BDDZERO).

Definition law_excluded_middle (lim : nat) (f : obdd) : M state (obdd * obdd) :=
  nf <- __invert__ lim f;
  x <- __or__ lim f (PyObj nf);
  ret (x, BDDONE).

Definition law_and_true (lim : nat) (f : obdd) : M state (obdd * obdd) :=
  x <- __and__ lim f (PyObj BDDONE);
  ret (x, f).

Definition law_and_false (lim : nat) (f : obdd) : M state (obdd * obdd) :=
  x <- __and__ lim f (PyObj BDDZERO);
  ret (x, BDDZERO).

(** The program returns, and its two results are the same diagram. *)
Definition agree (p : M state (obdd * obdd)) (st : state) : Prop :=
  ∃ d st', p st = (Ok (d, d), st').

Section laws.
Context (st : state) (f g : obdd) (tf tg : bdd).
Context (Hwf : wf_state st) (Hf : known st f) (Hg : known st g).
Context (Htf : denotes (nodes st) (node_of f) tf).
Context (Htg : denotes (nodes st) (node_of g) tg).

Lemma double_negation_agrees lim :
  depth tf < lim → agree (law_double_negation lim f) st.
Proof.
  intros Hlim. unfold agree, law_double_negation.
  destruct (run_of_dpost _ _ _ _ _ _ (invert_spec lim st f tf Hwf Htf))
    as (nf & st1 & t1 & E1 & Hwf1 & Hle1 & Hx1 & Hk1 & Ht1 & Hs1 & Hd1); [lia|].
  rewrite (bind_eq _ _ _ _ _ E1).
  destruct (run_of_dpost _ _ _ _ _ _ (invert_spec lim st1 nf t1 Hwf1 Ht1))
    as (nnf & st2 & t2 & E2 & Hwf2 & Hle2 & Hx2 & Hk2 & Ht2 & Hs2 & Hd2); [lia|].
  rewrite (bind_eq _ _ _ _ _ E2). sfwd.
  assert (nnf = f) as ->.
  { apply (same_function_same_diagram st2 _ _ t2 tf); try done.
    intros e. rewrite Hs2, Hs1. apply negb_involutive. }
  by exists f, st2.
Qed.

Lemma de_morgan_agrees lim :
  depth tf + depth tg + 1 < lim → agree (law_de_morgan lim f g) st.
Proof.
  intros Hlim. unfold agree, law_de_morgan.
  destruct (run_of_dpost _ _ _ _ _ _
              (or_spec lim st f (PyObj g) g tf tg Hwf eq_refl Htf Htg))
    as (fg & st1 & t1 & E1 & Hwf1 & Hle1 & Hx1 & Hk1 & Ht1 & Hs1 & Hd1); [lia|].
  rewrite (bind_eq _ _ _ _ _ E1). sfwd.
  destruct (run_of_dpost _ _ _ _ _ _ (invert_spec lim st1 fg t1 Hwf1 Ht1))
    as (l & st2 & t2 & E2 & Hwf2 & Hle2 & Hx2 & Hk2 & Ht2 & Hs2 & Hd2); [lia|].
  rewrite (bind_eq _ _ _ _ _ E2). sfwd.
  destruct (run_of_dpost _ _ _ _ _ _ (invert_spec lim st2 f tf Hwf2 Htf))
    as (nf & st3 & t3 & E3 & Hwf3 & Hle3 & Hx3 & Hk3 & Ht3 & Hs3 & Hd3); [lia|].
  rewrite (bind_eq _ _ _ _ _ E3). sfwd.
  destruct (run_of_dpost _ _ _ _ _ _ (invert_spec lim st3 g tg Hwf3 Htg))
    as (ng & st4 & t4 & E4 & Hwf4 & Hle4 & Hx4 & Hk4 & Ht4 & Hs4 & Hd4); [lia|].
  rewrite (bind_eq _ _ _ _ _ E4). sfwd.
  destruct (run_of_dpost _ _ _ _ _ _
              (and_spec lim st4 nf (PyObj ng) ng t3 t4 Hwf4 eq_refl Ht3 Ht4))
    as (r & st5 & t5 & E5 & Hwf5 & Hle5 & Hx5 & Hk5 & Ht5 & Hs5 & Hd5); [lia|].
  rewrite (bind_eq _ _ _ _ _ E5). sfwd.
  assert (l = r) as ->.
  { apply (same_function_same_diagram st5 _ _ t2 t5); try done.
    intros e. rewrite Hs2, Hs1, Hs5, Hs3, Hs4. apply negb_orb. }
  by exists r, st5.
Qed.

Lemma xor_self_agrees lim :
  3 * depth tf + 1 < lim → agree (law_xor_self lim f) st.
Proof.
  intros Hlim. unfold agree, law_xor_self.
  destruct (run_of_dpost _ _ _ _ _ _
              (xor_spec lim st f (PyObj f) f tf tf Hwf eq_refl Htf Htf))
    as (x & st1 & t1 & E1 & Hwf1 & Hle1 & Hx1 & Hk1 & Ht1 & Hs1 & Hd1); [lia|].
  rewrite (bind_eq _ _ _ _ _ E1).
  assert (x = BDDZERO) as ->.
  { apply (same_function_same_diagram st1 _ _ t1 (Leaf false));
      [done|done|by apply known_zero|done|constructor|].
    intros e. rewrite Hs1. apply xorb_nilpotent. }
  by exists BDDZERO, st1.
Qed.

Lemma excluded_middle_agrees lim :
  2 * depth tf + 1 < lim → agree (law_excluded_middle lim f) st.
Proof.
  intros Hlim. unfold agree, law_excluded_middle.
  destruct (run_of_dpost _ _ _ _ _ _ (invert_spec lim st f tf Hwf Htf))
    as (nf & st1 & t1 & E1 & Hwf1 & Hle1 & Hx1 & Hk1 & Ht1 & Hs1 & Hd1); [lia|].
  rewrite (bind_eq _ _ _ _ _ E1). sfwd.
  destruct (run_of_dpost _ _ _ _ _ _
              (or_spec lim st1 f (PyObj nf) nf tf t1 Hwf1 eq_refl Htf Ht1))
    as (x & st2 & t2 & E2 & Hwf2 & Hle2 & Hx2 & Hk2 & Ht2 & Hs2 & Hd2); [lia|].
  rewrite (bind_eq _ _ _ _ _ E2).
  assert (x = BDDONE) as ->.
  { apply (same_function_same_diagram st2 _ _ t2 (Leaf true));
      [done|done|by apply known_one|done|constructor|].
    intros e. rewrite Hs2, Hs1. apply orb_negb_r. }
  by exists BDDONE, st2.
Qed.

Lemma and_true_agrees lim :
  depth tf + 1 < lim → agree (law_and_true lim f) st.
Proof.
  intros Hlim. unfold agree, law_and_true.
  destruct (run_of_dpost _ _ _ _ _ _
              (and_spec lim st f (PyObj BDDONE) BDDONE tf (Leaf true) Hwf eq_refl Htf
                 (denotes_one _)))
    as (x & st1 & t1 & E1 & Hwf1 & Hle1 & Hx1 & Hk1 & Ht1 & Hs1 & Hd1);
    [simpl; lia|].
  rewrite (bind_eq _ _ _ _ _ E1). sfwd.
  assert (x = f) as ->.
  { apply (same_function_same_diagram st1 _ _ t1 tf); try done.
    intros e. rewrite Hs1. apply andb_true_r. }
  by exists f, st1.
Qed.

Lemma and_false_agrees lim :
  depth tf + 1 < lim → agree (law_and_false lim f) st.
Proof.
  intros Hlim. unfold agree, law_and_false.
  destruct (run_of_dpost _ _ _ _ _ _
              (and_spec lim st f (PyObj BDDZERO) BDDZERO tf (Leaf false) Hwf eq_refl Htf
                 (denotes_zero _)))
    as (x & st1 & t1 & E1 & Hwf1 & Hle1 & Hx1 & Hk1 & Ht1 & Hs1 & Hd1);
    [simpl; lia|].
  rewrite (bind_eq _ _ _ _ _ E1).
  assert (x = BDDZERO) as ->.
  { apply (same_function_same_diagram st1 _ _ t1 (Leaf false));
      [done|done|by apply known_zero|done|constructor|].
    intros e. rewrite Hs1. apply andb_false_r. }
  by exists BDDZERO, st1.
Qed.
End laws.

(** C6. For diagrams [f] and [g] the caller holds in a reachable state, and
    a recursion limit that is large enough: [~~f] is [f]; [~(f | g)] is
    [~f & ~g]; [f ^ f] is the constant-false diagram; [f | ~f] is the
    constant-true diagram; [f & 1] is [f]; [f & 0] is the constant-false
    diagram.  Each equation is between diagram objects. *)
Theorem algebraic_laws st f g :
  reachable st → known st f → known st g →
  ∃ N, ∀ lim, N ≤ lim →
    agree (law_double_negation lim f) st ∧
    agree (law_de_morgan lim f g) st ∧
    agree (law_xor_self lim f) st ∧
    agree (law_excluded_middle lim f) st ∧
    agree (law_and_true lim f) st ∧
    agree (law_and_false lim f) st.
Proof.
  intros Hr Hf Hg. pose proof (reachable_wf st Hr) as Hwf.
  destruct (known_denotes st f Hwf Hf) as (tf & Htf & _).
  destruct (known_denotes st g Hwf Hg) as (tg & Htg & _).
  exists (3 * (depth tf + depth tg) + 2). intros lim Hlim. split_and!.
  - eapply double_negation_agrees; eauto. lia.
  - eapply de_morgan_agrees; eauto. lia.
  - eapply xor_self_agrees; eauto. lia.
  - eapply excluded_middle_agrees; eauto. lia.
  - eapply and_true_agrees; eauto. lia.
  - eapply and_false_agrees; eauto. lia.
Qed.

Lemma algebraic_laws_witness :
  reachable demo_a ∧ known demo_a var_a ∧
  ∃ N, ∀ lim, N ≤ lim →
    agree (law_double_negation lim var_a) demo_a ∧
    agree (law_de_morgan lim var_a var_a) demo_a ∧
    agree (law_xor_self lim var_a) demo_a ∧
    agree (law_excluded_middle lim var_a) demo_a ∧
    agree (law_and_true lim var_a) demo_a ∧
    agree (law_and_false lim var_a) demo_a.
Proof.
  split; [apply reachable_demo_a|]. split; [apply known_var_a|].
  apply (algebraic_laws demo_a var_a var_a reachable_demo_a known_var_a known_var_a).
Defined.

(** *** Traversal and support *)

(** [reach s a b]: [b] is [a] or lies below it. *)
Inductive reach (s : store) : ref → ref → Prop :=
  | reach_refl a : reach s a a
  | reach_child (a : ref) o (c b : ref) :
      objs s !! a = Some o → lo o = Some c ∨ hi o = Some c →
      reach s c b → reach s a b.

Lemma reach_le s a b : wf s → reach s a b → b ≤ a.
Proof.
  intros Hwf. induction 1 as [|a o c b Ha Hc _ IH]; [done|].
  pose proof (wf_lower s Hwf a o c Ha Hc). lia.
Qed.

Lemma reach_leaf s (a b : ref) v :
  objs s !! a = Some (mkOBDDNode v None None) → reach s a b → b = a.
Proof.
  intros Ha. destruct 1 as [|a o c b Hobj Hc _]; [done|].
  pose proof (eq_trans (eq_sym Hobj) Ha) as Heq. injection Heq as ->.
  simpl in Hc. by destruct Hc.
Qed.

Lemma reach_node s (a : ref) v (l h b : ref) :
  objs s !! a = Some (mkOBDDNode v (Some l) (Some h)) →
  reach s a b ↔ b = a ∨ reach s l b ∨ reach s h b.
Proof.
  intros Ha. split.
  - destruct 1 as [|a o c b Hobj Hc Hr]; [by left|].
    pose proof (eq_trans (eq_sym Hobj) Ha) as Heq. injection Heq as ->.
    simpl in Hc. destruct Hc as [[= <-]|[= <-]]; auto.
  - intros [->|[Hr|Hr]]; [constructor|..].
    + apply (reach_child s a _ l b Ha); [by left|done].
    + apply (reach_child s a _ h b Ha); [by right|done].
Qed.

Definition dfs_post (s : store) (a : ref) (t : bdd) (lim : nat) (visited : gset ref)
    (out : result (list ref * gset ref) * store) : Prop :=
  out.2 = s ∧
  match out.1 with
  | Ok (ys, visited') =>
      NoDup ys ∧
      (∀ b, b ∈ ys ↔ reach s a b ∧ b ∉ visited) ∧
      (∀ b, b ∈ visited' ↔ b ∈ visited ∨ reach s a b) ∧
      (a ∉ visited → ∃ ys0, ys = ys0 ++ [a])
  | Raise e => e = RecursionError ∧ lim ≤ depth t
  end.

Lemma dfs_leaf s (a : ref) lim visited v t :
  objs s !! a = Some (mkOBDDNode v None None) →
  dfs_post s a t (S lim) visited (_dfs_postorder (S lim) a visited s).
Proof.
  intros Ha. cbn [_dfs_postorder]. rewrite (bind_getobj _ _ _ _ Ha). simpl.
  assert (∀ b, reach s a b ↔ b = a) as Hreach.
  { intros b. split; [by apply (reach_leaf s a b v)|intros ->; constructor]. }
  unfold bind, ret. simpl. destruct (decide (a ∈ visited)) as [Hin|Hnin].
  - split; [done|]. simpl. split_and!.
    + constructor.
    + intros b. rewrite Hreach. split; [by intros ?%elem_of_nil|].
      intros [-> ?]. done.
    + intros b. rewrite Hreach. split; [auto|]. intros [?| ->]; done.
    + done.
  - split; [done|]. simpl. split_and!.
    + apply NoDup_singleton.
    + intros b. rewrite Hreach, list_elem_of_singleton. split; [by intros ->|by intros [? _]].
    + intros b. rewrite Hreach, elem_of_union, elem_of_singleton. tauto.
    + intros _. by exists [].
Qed.

Lemma dfs_spec lim : ∀ s a t visited,
  wf s → denotes s a t →
  dfs_post s a t lim visited (_dfs_postorder lim a visited s).
Proof.
  induction lim as [|lim IH]; intros s a t visited Hwf Ha.
  { split; [done|]. simpl. split; [done|lia]. }
  destruct Ha as [| |a v l h tl th Hz Ho Hobj Hl Hh].
  - eapply dfs_leaf, (wf_zero s Hwf).
  - eapply dfs_leaf, (wf_one s Hwf).
  - cbn [_dfs_postorder]. rewrite (bind_getobj _ _ _ _ Hobj). cbn [lo hi].
    pose proof (IH s l tl visited Hwf Hl) as (Hs1 & H1).
    unfold bind at 1.
    destruct (_dfs_postorder lim l visited s) as [[[ys1 v1]|e] s1]; simpl in Hs1, H1;
      subst s1.
    2:{ split; [done|]. simpl. destruct H1 as [-> ?]. split; [done|lia]. }
    destruct H1 as (Hnd1 & Hys1 & Hv1 & _).
    pose proof (IH s h th v1 Hwf Hh) as (Hs2 & H2).
    unfold bind at 1.
    destruct (_dfs_postorder lim h v1 s) as [[[ys2 v2]|e] s2]; simpl in Hs2, H2;
      subst s2.
    2:{ split; [done|]. simpl. destruct H2 as [-> ?]. split; [done|lia]. }
    destruct H2 as (Hnd2 & Hys2 & Hv2 & _).
    assert (∀ b, reach s l b ∨ reach s h b → b ≠ a) as Hbelow.
    { intros b [Hr|Hr] ->; apply (reach_le s _ _ Hwf) in Hr.
      - assert (l < a) by (apply (wf_lower s Hwf a _ l Hobj); by left). lia.
      - assert (h < a) by (apply (wf_lower s Hwf a _ h Hobj); by right). lia. }
    assert (a ∈ v2 ↔ a ∈ visited) as Hav.
    { rewrite Hv2, Hv1. split; [|auto].
      intros [[?|Hr]|Hr]; [done|..]; exfalso; eapply Hbelow; eauto. }
    assert (NoDup (ys1 ++ ys2)) as Hnd12.
    { apply NoDup_app. split_and!; [done| |done].
      intros b Hb1 Hb2. apply Hys2 in Hb2 as [_ Hb2]. apply Hb2, Hv1.
      apply Hys1 in Hb1. tauto. }
    assert (∀ b, b ∈ ys1 ++ ys2 ↔ (reach s l b ∨ reach s h b) ∧ b ∉ visited) as Hys12.
    { intros b. rewrite elem_of_app, Hys1, Hys2, Hv1. split.
      - intros [[? ?]|[? ?]]; split; auto.
      - intros [[Hr|Hr] Hnv]; [by left|].
        destruct (decide (b ∈ ys1)) as [Hb|Hb].
        + apply Hys1 in Hb. by left.
        + right. split; [done|]. intros [?|Hr']; [done|]. apply Hb, Hys1. done. }
    split; [by destruct (decide (a ∈ v2))|].
    destruct (decide (a ∈ v2)) as [Hin|Hnin]; simpl.
    + split_and!.
      * done.
      * intros b. rewrite Hys12, (reach_node s a v l h b Hobj). split; [tauto|].
        intros [[->|?] Hnv]; [|tauto]. exfalso. apply Hnv. by apply Hav.
      * intros b. rewrite Hv2, Hv1, (reach_node s a v l h b Hobj). split; [tauto|].
        intros [?|[->|[?|?]]]; auto. left. left. by apply Hav.
      * intros Hnv. exfalso. apply Hnv. by apply Hav.
    + split_and!.
      * rewrite app_assoc. apply NoDup_app. split_and!; [done| |apply NoDup_singleton].
        intros b Hb ->%list_elem_of_singleton. apply Hys12 in Hb as [Hb _].
        by eapply Hbelow.
      * intros b. rewrite app_assoc, elem_of_app, Hys12, list_elem_of_singleton,
          (reach_node s a v l h b Hobj). split; [|tauto].
        intros [[? ?]| ->]; [tauto|]. split; [by left|]. intros ?. apply Hnin. by apply Hav.
      * intros b. rewrite elem_of_union, elem_of_singleton, Hv2, Hv1,
          (reach_node s a v l h b Hobj). tauto.
      * intros _. exists (ys1 ++ ys2). by rewrite app_assoc.
Qed.

Lemma reach_valid s a b : wf s → a < length (objs s) → reach s a b → b < length (objs s).
Proof. intros Hwf Ha Hr. apply (reach_le s _ _ Hwf) in Hr. lia. Qed.

(** The variables of the tree are the positive roots below the node. *)
Lemma reach_tvars s a t : wf s → denotes s a t →
  ∀ u, u ∈ tvars t ↔
       ∃ (b : ref) o, reach s a b ∧ objs s !! b = Some o ∧ root o = u ∧ (0 < u)%Z.
Proof.
  intros Hwf. induction 1 as [| |a v l h tl th Hz Ho Hobj Hl IHl Hh IHh]; intros u.
  - simpl. split; [by intros ?%elem_of_nil|]. intros (b & o & Hr & Hobj & Hu & Hpos).
    apply (reach_leaf s _ _ _ (wf_zero s Hwf)) in Hr as ->.
    pose proof (eq_trans (eq_sym Hobj) (wf_zero s Hwf)) as Heq. injection Heq as ->.
    simpl in Hu. lia.
  - simpl. split; [by intros ?%elem_of_nil|]. intros (b & o & Hr & Hobj & Hu & Hpos).
    apply (reach_leaf s _ _ _ (wf_one s Hwf)) in Hr as ->.
    pose proof (eq_trans (eq_sym Hobj) (wf_one s Hwf)) as Heq. injection Heq as ->.
    simpl in Hu. lia.
  - destruct (denotes_robdd s a (Node v tl th) Hwf) as [(Hv & _) _];
      [by econstructor|].
    simpl. rewrite elem_of_cons, elem_of_app, IHl, IHh. split.
    + intros [->|[(b & o & Hr & ?)|(b & o & Hr & ?)]].
      * exists a, (mkOBDDNode v (Some l) (Some h)). split_and!; try done. constructor.
      * exists b, o. split; [|done]. apply (reach_node s a v l h b Hobj). auto.
      * exists b, o. split; [|done]. apply (reach_node s a v l h b Hobj). auto.
    + intros (b & o & Hr & Hb & Hu & Hpos).
      apply (reach_node s a v l h b Hobj) in Hr as [->|[Hr|Hr]].
      * left. pose proof (eq_trans (eq_sym Hb) Hobj) as Heq. injection Heq as ->.
        by simpl in Hu.
      * right. left. by exists b, o.
      * right. right. by exists b, o.
Qed.

(** The variable [inputs] looks up for a node: none for a terminal. *)
Definition var_of (st : state) (node : ref) : option obdd :=
  match objs (nodes st) !! node with
  | Some o => if decide (root o > 0)%Z then _VARS st !! root o else None
  | None => None
  end.

(** The list [inputs_] at the end of the loop. *)
Fixpoint collect_pure (vs : list (option obdd)) (acc : list obdd) : list obdd :=
  match vs with
  | [] => acc
  | None :: vs => collect_pure vs acc
  | Some v :: vs =>
      if decide (v ∈ acc) then collect_pure vs acc
      else collect_pure vs (acc ++ [v])
  end.

Lemma collect_inputs_eq st ys acc :
  wf_state st → (∀ b, b ∈ ys → b < length (objs (nodes st))) →
  collect_inputs ys acc st = (Ok (collect_pure (var_of st <$> ys) acc), st).
Proof.
  intros Hwf. revert acc. induction ys as [|b ys IH]; intros acc Hys; [done|].
  assert (b < length (objs (nodes st))) as Hb by (apply Hys; left).
  destruct (lookup_ref _ _ Hb) as [o Ho].
  cbn [collect_inputs fmap list_fmap collect_pure].
  rewrite (bind_on_nodes_root st b o) by done. unfold var_of at 1. rewrite Ho.
  assert (∀ acc', collect_inputs ys acc' st =
                  (Ok (collect_pure (var_of st <$> ys) acc'), st)) as IH'.
  { intros acc'. apply IH. intros b' Hb'. apply Hys. by right. }
  destruct (decide (root o > 0)%Z) as [Hpos|Hneg]; [|apply IH'].
  unfold bind, get. cbn beta iota.
  destruct (ws_roots st Hwf (root o)) as [v Hv]; [by exists b, o|lia|].
  rewrite Hv. destruct (decide (v ∈ acc)); apply IH'.
Qed.

Lemma collect_pure_app vs1 vs2 acc :
  collect_pure (vs1 ++ vs2) acc = collect_pure vs2 (collect_pure vs1 acc).
Proof.
  revert acc. induction vs1 as [|[v|] vs1 IH]; intros acc; simpl; [done| |done].
  by destruct (decide (v ∈ acc)).
Qed.

Lemma collect_pure_NoDup vs acc : NoDup acc → NoDup (collect_pure vs acc).
Proof.
  revert acc. induction vs as [|[v|] vs IH]; intros acc Hnd; simpl; [done| |auto].
  destruct (decide (v ∈ acc)); [auto|]. apply IH.
  apply NoDup_app. split_and!; [done| |apply NoDup_singleton].
  intros x Hx ->%list_elem_of_singleton. done.
Qed.

Lemma collect_pure_elem vs acc v :
  v ∈ collect_pure vs acc ↔ v ∈ acc ∨ Some v ∈ vs.
Proof.
  revert acc. induction vs as [|[w|] vs IH]; intros acc; simpl.
  - split; [auto|]. intros [?|?%elem_of_nil]; done.
  - destruct (decide (w ∈ acc)) as [Hw|Hw]; rewrite IH, elem_of_cons.
    + split; [tauto|]. intros [?|[[= ->]|?]]; auto.
    + rewrite elem_of_app, list_elem_of_singleton. split.
      * intros [[?| ->]|?]; auto.
      * intros [?|[[= ->]|?]]; auto.
  - rewrite IH, elem_of_cons. split; [tauto|]. intros [?|[?|?]]; auto. done.
Qed.

(** The support [inputs] returns, for the nodes a traversal yields. *)
Lemma inputs_eq lim st d ys visited :
  wf_state st → known st d →
  _dfs_postorder lim (node_of d) ∅ (nodes st) = (Ok (ys, visited), nodes st) →
  (∀ b, b ∈ ys → reach (nodes st) (node_of d) b) →
  inputs lim d st = (Ok (reverse (collect_pure (var_of st <$> ys) [])), st).
Proof.
  intros Hwf Hd Hdfs Hys. unfold inputs. unfold bind at 1. unfold on_nodes.
  rewrite Hdfs. cbn [fst snd]. rewrite state_eta. unfold bind.
  rewrite collect_inputs_eq; [done|done|].
  intros b Hb. eapply reach_valid; [apply (ws_nodes st Hwf)|by apply known_lt|auto].
Qed.

(** [v.uniqid] of a variable diagram. *)
Definition var_uniqid (d : obdd) : Z :=
  match d with
  | OBDDVariable bvar _ => uniqid bvar
  | _ => 0
  end.

(** The Boolean function of [node] depends on the variable [u]. *)
Definition depends_on (s : store) (node : ref) (u : Z) : Prop :=
  ∃ e, eval s node (upd u false e) ≠ eval s node (upd u true e).

Lemma var_uniqid_of st u v : wf_state st → _VARS st !! u = Some v → var_uniqid v = u.
Proof.
  intros Hwf Hv. by destruct (ws_vars st Hwf u v Hv) as (bvar & n & -> & ? & _).
Qed.

Lemma var_of_Some st (b : ref) v :
  var_of st b = Some v ↔
  ∃ o, objs (nodes st) !! b = Some o ∧ (0 < root o)%Z ∧ _VARS st !! root o = Some v.
Proof.
  unfold var_of. destruct (objs (nodes st) !! b) as [o|]; [|split; [done|by intros (? & ? & _)]].
  destruct (decide (root o > 0)%Z); split.
  - intros Hv. exists o. split_and!; [done|lia|done].
  - by intros (? & [= <-] & _ & ?).
  - done.
  - intros (? & [= <-] & ? & _). lia.
Qed.

Lemma depends_on_tvars s a t u :
  wf s → denotes s a t → depends_on s a u ↔ u ∈ tvars t.
Proof.
  intros Hwf Ha. destruct (denotes_robdd s a t Hwf Ha) as [Hb Hr].
  unfold depends_on. split.
  - intros [e He]. rewrite !(eval_interp s a t) in He by done.
    destruct (decide (u ∈ tvars t)) as [|Hn]; [done|].
    by rewrite !interp_upd_notin in He.
  - intros Hu. destruct (tvars_essential t 0 u Hb Hr Hu) as [e He].
    exists e. by rewrite !(eval_interp s a t).
Qed.

Lemma nil_no_elem {A} (l : list A) : (∀ x, x ∉ l) → l = [].
Proof. destruct l as [|x l]; [done|]. intros H. destruct (H x). by left. Qed.

(** The support [inputs] computes, with enough recursion depth. *)
Lemma inputs_spec st d t lim :
  wf_state st → known st d → denotes (nodes st) (node_of d) t → depth t < lim →
    ∃ ys visited vs,
      _dfs_postorder lim (node_of d) ∅ (nodes st) = (Ok (ys, visited), nodes st) ∧
      vs = reverse (collect_pure (var_of st <$> ys) []) ∧
      inputs lim d st = (Ok vs, st) ∧
      top lim d st = (Ok (head vs), st) ∧
      NoDup vs ∧
      (∀ v, v ∈ vs ↔
            ∃ u, _VARS st !! u = Some v ∧ depends_on (nodes st) (node_of d) u) ∧
      (is_zero d || is_one d = true → vs = []) ∧
      (is_zero d || is_one d = false →
       ∃ o v, objs (nodes st) !! node_of d = Some o ∧
              _VARS st !! root o = Some v ∧ head vs = Some v ∧
              ∀ w, w ∈ vs → (var_uniqid v ≤ var_uniqid w)%Z).
Proof.
  intros Hwf Hd Ht Hlim.
  pose proof (ws_nodes st Hwf) as Hwfn.
  destruct (denotes_robdd _ _ _ Hwfn Ht) as (Hbt & Hrt).
  pose proof (dfs_spec lim (nodes st) (node_of d) t ∅ Hwfn Ht) as (Hs & Hres).
  destruct (_dfs_postorder lim (node_of d) ∅ (nodes st)) as [[[ys visited]|e] s'] eqn:Hdfs;
    simpl in Hs, Hres; subst s'; [|destruct Hres; lia].
  destruct Hres as (Hnd & Hys & _ & Hlast).
  assert (∀ b, b ∈ ys ↔ reach (nodes st) (node_of d) b) as Hys'.
  { intros b. rewrite Hys. split; [tauto|]. intros ?. split; [done|]. set_solver. }
  set (L := collect_pure (var_of st <$> ys) []).
  assert (∀ v, v ∈ L ↔ ∃ u, u ∈ tvars t ∧ _VARS st !! u = Some v) as HL.
  { intros v. unfold L. rewrite collect_pure_elem, list_elem_of_fmap. split.
    - intros [?%elem_of_nil|(b & Hb & Hin)]; [done|]. symmetry in Hb.
      apply var_of_Some in Hb as (o & Ho & Hpos & Hv). exists (root o).
      split; [|done]. apply (reach_tvars _ _ _ Hwfn Ht). exists b, o.
      split_and!; try done. by apply Hys'.
    - intros (u & Hu & Hv). right.
      apply (reach_tvars _ _ _ Hwfn Ht) in Hu as (b & o & Hreach & Ho & <- & Hpos).
      exists b. split; [|by apply Hys'].
      symmetry. apply var_of_Some. by exists o. }
  exists ys, visited, (reverse L).
  assert (inputs lim d st = (Ok (reverse L), st)) as Hin.
  { apply (inputs_eq lim st d ys visited Hwf Hd Hdfs). intros b. apply Hys'. }
  split_and!; try done.
  - unfold top, bind. by rewrite Hin.
  - rewrite reverse_Permutation. apply collect_pure_NoDup. constructor.
  - intros v. rewrite elem_of_reverse, HL. split.
    + intros (u & Hu & Hv). exists u. split; [done|]. by apply (depends_on_tvars _ _ t).
    + intros (u & Hv & Hu). exists u. split; [|done]. by apply (depends_on_tvars _ _ t) in Hu.
  - intros Hc. apply orb_true_iff in Hc. unfold is_zero, is_one in Hc.
    rewrite !bool_decide_eq_true in Hc.
    assert (tvars t = []) as Ht0.
    { destruct Hc as [Hc|Hc]; rewrite Hc in Ht;
        [apply denotes_zero_inv in Ht|apply denotes_one_inv in Ht]; by subst t. }
    apply nil_no_elem. intros v Hv. apply elem_of_reverse, HL in Hv as (u & Hu & _).
    rewrite Ht0 in Hu. by apply elem_of_nil in Hu.
  - intros Hc. apply orb_false_iff in Hc as [Hz Ho]. unfold is_zero, is_one in Hz, Ho.
    rewrite bool_decide_eq_false in Hz, Ho.
    destruct (lookup_ref _ _ (known_lt st d Hwf Hd)) as [o Hobj].
    destruct (denotes_node_root _ _ _ _ Ht Hz Ho Hobj) as (tl & th & ->).
    destruct Hbt as (Hpos & Hbl & Hbh).
    destruct (ws_roots st Hwf (root o)) as [v Hv]; [by exists (node_of d), o|done|].
    exists o, v. split; [done|]. split; [done|].
    destruct Hlast as [ys0 ->]; [set_solver|].
    assert (var_of st (node_of d) = Some v) as Hvo.
    { apply var_of_Some. by exists o. }
    assert (v ∉ collect_pure (var_of st <$> ys0) []) as Hfresh.
    { rewrite collect_pure_elem, list_elem_of_fmap.
      intros [?%elem_of_nil|(b & Hb & Hin0)]; [done|]. symmetry in Hb.
      apply var_of_Some in Hb as (ob & Hob & Hposb & Hvb).
      assert (root ob = root o) as Heq.
      { rewrite <- (var_uniqid_of st _ v Hwf Hvb). by apply (var_uniqid_of st). }
      assert (b ≠ node_of d) as Hne.
      { intros ->. apply NoDup_app in Hnd as (_ & Hdis & _).
        apply (Hdis _ Hin0). by left. }
      assert (reach (nodes st) (node_of d) b) as Hrb.
      { apply Hys'. apply elem_of_app. by left. }
      inversion Ht as [| |? ? l h ? ? _ _ Hobj' Hl Hh]; subst.
      apply (reach_node _ _ _ _ _ b Hobj') in Hrb as [?|[Hrb|Hrb]]; [done|..].
      - assert (root ob ∈ tvars tl) as Hin'.
        { apply (reach_tvars _ _ _ Hwfn Hl). by exists b, ob. }
        apply (bounded_tvars _ _ _ Hbl) in Hin'. lia.
      - assert (root ob ∈ tvars th) as Hin'.
        { apply (reach_tvars _ _ _ Hwfn Hh). by exists b, ob. }
        apply (bounded_tvars _ _ _ Hbh) in Hin'. lia. }
    assert (L = collect_pure (var_of st <$> ys0) [] ++ [v]) as HLeq.
    { unfold L. rewrite fmap_app, collect_pure_app. simpl. rewrite Hvo.
      by rewrite decide_False. }
    split.
    + by rewrite HLeq, reverse_snoc.
    + intros w Hw. apply elem_of_reverse, HL in Hw as (u & Hu & Hw).
      rewrite (var_uniqid_of st _ v Hwf Hv), (var_uniqid_of st _ w Hwf Hw).
      simpl in Hu. apply elem_of_cons in Hu as [->|Hu]; [done|].
      apply elem_of_app in Hu as [Hu|Hu];
        [apply (bounded_tvars _ _ _ Hbl) in Hu|apply (bounded_tvars _ _ _ Hbh) in Hu]; lia.
Qed.


(** *** A support that is not in variable order *)

(** [a, b, c = map(obddvar, "abc")] and [f = a & c | ~a & b]. *)
Definition var_b : obdd := OBDDVariable (mkVariable 2 ["b"%string] []) 3.
Definition var_c : obdd := OBDDVariable (mkVariable 3 ["c"%string] []) 4.
Definition demo_b : state := (exec 0 (Cobddvar (PyStr "b") PyNone) demo_a).2.
Definition demo_c : state := (exec 0 (Cobddvar (PyStr "c") PyNone) demo_b).2.
Definition demo_ac : state := (exec 10 (Cand var_a (PyObj var_c)) demo_c).2.
Definition demo_na : state := (exec 10 (Cinvert var_a) demo_ac).2.
Definition demo_nab : state := (exec 10 (Cand (Diagram 6) (PyObj var_b)) demo_na).2.
Definition demo_f : state := (exec 10 (Cor (Diagram 5) (PyObj (Diagram 7))) demo_nab).2.
Definition diagram_f : obdd := Diagram 8.

Lemma reachable_demo_f : reachable demo_f.
Proof.
  apply reachable_step; [|by vm_compute].
  apply reachable_step; [|by vm_compute].
  apply reachable_step; [|by vm_compute].
  apply reachable_step; [|by vm_compute].
  apply reachable_step; [|by vm_compute].
  apply reachable_step; [|by vm_compute].
  apply reachable_demo_a.
Qed.

Lemma known_diagram_f : known demo_f diagram_f.
Proof. by vm_compute. Qed.




(** *** Restriction is idempotent *)

Lemma npoint_pure_single s x val o g :
  objs s !! node_of x = Some o → boxed val = Some g →
  npoint_pure s [(x, val)] ∅ = Some {[ root o := node_of g ]}.
Proof. intros Ho Hg. cbn [npoint_pure]. rewrite Ho, Hg. by rewrite insert_empty. Qed.

Lemma point_known_single st x val :
  known st x → pv_known st val → point_known st [(x, val)].
Proof.
  intros Hx Hv v val' Hin. apply list_elem_of_singleton in Hin. by injection Hin as -> ->.
Qed.

Lemma pv_known_le st st' val : st ≼ st' → pv_known st val → pv_known st' val.
Proof. intros Hle. destruct val; simpl; eauto using known_le. Qed.

Lemma pv_known_one st one :
  wf_state st → boxed one = Some BDDONE → pv_known st one.
Proof.
  intros Hwf. destruct one; simpl; try done. intros [= ->]. by apply known_one.
Qed.

(** C5. For a diagram [f] and a diagram [x] the caller holds in a reachable
    state, and a recursion limit that is large enough: restricting [x] to
    true in [f] returns a diagram [d]; restricting [x] in [d] again, to any
    value [box] accepts, returns the same diagram object [d]; the Boolean
    function of [d] does not depend on the variable of [x], and [x] is not
    in the support [inputs] computes for [d]. *)
Theorem restrict_idempotent st f x one val :
  reachable st → known st f → known st x →
  boxed one = Some BDDONE → pv_known st val → is_Some (boxed val) →
  ∃ N, ∀ lim, N ≤ lim →
    ∃ d st1 st2 o vs,
      restrict lim f [(x, one)] st = (Ok d, st1) ∧
      restrict lim d [(x, val)] st1 = (Ok d, st2) ∧
      objs (nodes st) !! node_of x = Some o ∧
      ¬ depends_on (nodes st1) (node_of d) (root o) ∧
      inputs lim d st1 = (Ok vs, st1) ∧ x ∉ vs.
Proof.
  intros Hr Hf Hx Hone Hval [g Hg]. pose proof (reachable_wf st Hr) as Hwf.
  destruct (known_denotes st f Hwf Hf) as (tf & Htf & _).
  destruct (lookup_ref _ _ (known_lt st x Hwf Hx)) as [o Ho].
  exists (depth tf + 1). intros lim Hlim.
  set (np := ({[ root o := node_of BDDONE ]} : gmap Z ref)).
  set (t1 := trestrict (pt_of np) tf).
  assert (pt_of np (root o) = Some true) as Hpt.
  { unfold pt_of, np. by rewrite lookup_singleton_eq. }
  assert (root o ∉ tvars t1) as Hnotin.
  { intros Hin. apply tvars_trestrict in Hin as [_ Hin]. congruence. }
  pose proof (restrict_d_spec lim st f [(x, one)] np tf Hwf
                (point_known_single st x one Hx (pv_known_one st one Hwf Hone))
                (npoint_pure_single _ x one o BDDONE Ho Hone) Htf) as (Hwf1 & Hle1 & Hres1).
  destruct (restrict lim f [(x, one)] st) as [[d|e] st1] eqn:E1; simpl in Hwf1, Hle1, Hres1.
  2:{ exfalso. destruct Hres1 as [[_ ?]|[_ (v & w & _ & Hv & H0 & H1)]]; [lia|].
      unfold np in Hv. apply lookup_singleton_Some in Hv as [_ <-]. done. }
  destruct Hres1 as (Hd & Hext1 & _ & _ & Ht1). fold t1 in Ht1.
  pose proof (pv_known_le st st1 val Hle1 Hval) as Hval1.
  pose proof (known_le st st1 x Hle1 Hx) as Hx1.
  pose proof (extends_lookup _ _ _ _ Hext1 Ho) as Ho1.
  set (np2 := ({[ root o := node_of g ]} : gmap Z ref)).
  assert (trestrict (pt_of np2) t1 = t1) as Hfix.
  { apply trestrict_fresh.
    - apply reduced_trestrict. by destruct (denotes_robdd _ _ _ (ws_nodes st Hwf) Htf).
    - intros v Hv. unfold pt_of, np2. rewrite lookup_singleton_ne; [done|].
      intros <-. done. }
  pose proof (restrict_d_spec lim st1 d [(x, val)] np2 t1 Hwf1
                (point_known_single st1 x val Hx1 Hval1)
                (npoint_pure_single _ x val o g Ho1 Hg) Ht1) as (Hwf2 & Hle2 & Hres2).
  pose proof (depth_trestrict (pt_of np) tf) as Hdepth. fold t1 in Hdepth.
  destruct (restrict lim d [(x, val)] st1) as [[d2|e] st2] eqn:E2; simpl in Hwf2, Hle2, Hres2.
  2:{ exfalso. destruct Hres2 as [[_ ?]|[_ (v & w & Hin & Hv & _)]]; [lia|].
      unfold np2 in Hv. apply lookup_singleton_Some in Hv as [<- _]. done. }
  destruct Hres2 as (Hd2 & Hext2 & _ & _ & Ht2). rewrite Hfix in Ht2.
  assert (d2 = d) as ->.
  { apply (known_inj st2); [done|by apply (known_le st1)|].
    eapply denotes_inj; [apply (ws_nodes st2 Hwf2)|done|by eapply denotes_extends]. }
  destruct (inputs_spec st1 d t1 lim Hwf1 Hd Ht1)
    as (ys & visited & vs & _ & _ & Hin & _ & _ & Hmem & _); [lia|].
  assert (¬ depends_on (nodes st1) (node_of d) (root o)) as Hindep.
  { intros Hdep. by apply (depends_on_tvars _ _ t1 _ (ws_nodes st1 Hwf1) Ht1) in Hdep. }
  exists d, st1, st2, o, vs. split_and!; try done.
  intros Hxin. apply Hmem in Hxin as (u & Hu & Hdep).
  destruct (ws_vars st1 Hwf1 u x Hu) as (bvar & n & -> & _ & _ & Hden & _).
  simpl in Ho1. inversion Hden as [| |? ? l h ? ? _ _ Hobj' _ _]; subst.
  pose proof (eq_trans (eq_sym Ho1) Hobj') as Heq. injection Heq as ->. done.
Qed.

Lemma restrict_idempotent_witness :
  reachable demo_f ∧ known demo_f diagram_f ∧ known demo_f var_a ∧
  ∃ N, ∀ lim, N ≤ lim →
    ∃ d st1 st2,
      restrict lim diagram_f [(var_a, PyInt 1)] demo_f = (Ok d, st1) ∧
      restrict lim d [(var_a, PyInt 0)] st1 = (Ok d, st2).
Proof.
  assert (known demo_f var_a) as Ha by (by vm_compute).
  split; [apply reachable_demo_f|]. split; [apply known_diagram_f|]. split; [exact Ha|].
  destruct (restrict_idempotent demo_f diagram_f var_a (PyInt 1) (PyInt 0)
              reachable_demo_f known_diagram_f Ha eq_refl I (ex_intro _ BDDZERO eq_refl))
    as [N HN].
  exists N. intros lim Hlim.
  destruct (HN lim Hlim) as (d & st1 & st2 & o & vs & H1 & H2 & _).
  exists d, st1, st2. split; [exact H1|exact H2].
Defined.

(** *** The fallback of [box] *)

Definition is_diagram (obj : pyval obdd) : bool :=
  match obj with PyObj _ => true | _ => false end.

(** C10. [box(obj)] raises [TypeError] for every [obj] that is not a
    diagram and is not equal to [0], ["0"], [1] or ["1"]: the fallback calls
    the module [boolean].  A boolean never reaches the fallback, since
    [False == 0] and [True == 1].  For the same reason [bool()] of the two
    constant diagrams raises [TypeError].  The state is left as it was. *)
Theorem box_fallback_raises (obj : pyval obdd) :
  is_diagram obj = false →
  py_eq_int obj 0 = false → py_eq_str obj "0" = false →
  py_eq_int obj 1 = false → py_eq_str obj "1" = false →
  (∀ s : state, box obj s = (Raise TypeError, s)) ∧
  (∀ (b : bool) (s : state),
     box (PyBool b) s = (Ok (if b then BDDONE else BDDZERO), s)) ∧
  (∀ s : state, BDDConstant__bool__ BDDZERO s = (Raise TypeError, s)) ∧
  (∀ s : state, BDDConstant__bool__ BDDONE s = (Raise TypeError, s)).
Proof.
  intros Hd H0 Hs0 H1 Hs1. split_and!.
  - intros s. unfold box. destruct obj; try done; rewrite H0, Hs0, H1, Hs1; done.
  - intros [|] s; done.
  - done.
  - done.
Qed.

Lemma box_fallback_raises_witness :
  (∀ s : state, box PyNone s = (Raise TypeError, s)) ∧
  (∀ s : state, box (PyInt 2) s = (Raise TypeError, s)) ∧
  (∀ s : state, box (PyStr "a") s = (Raise TypeError, s)).
Proof.
  split_and!.
  - apply (box_fallback_raises PyNone); reflexivity.
  - apply (box_fallback_raises (PyInt 2)); reflexivity.
  - apply (box_fallback_raises (PyStr "a")); reflexivity.
Defined.

(** ** Two threads in [Variable.__init__] *)

(** The statements of [Variable.__init__] up to the end of the [with]
    block, one step each:
    [threading.Lock()], entering the [with] block (acquiring that lock),
    [self.uniqid = _UNIQIDS.get((names, indices), _COUNT)],
    [if self.uniqid == _COUNT:], [_COUNT += 1],
    [_UNIQIDS[(names, indices)] = self.uniqid], leaving the block. *)
Inductive pc : Type :=
  | AtLock | AtAcquire | AtGet | AtTest | AtIncr | AtInsert | AtRelease | AtEnd.

Global Instance pc_eq_dec : EqDecision pc.
Proof. solve_decision. Defined.

(** A thread: where it is, the identity it was called with, the lock object
    it created, and [self.uniqid]. *)
Record thread : Type := mkThread {
  t_pc : pc;
  t_key : list string * list Z;
  t_lock : option nat;
  t_uniqid : option Z
}.

(** The shared state: [_UNIQIDS], [_COUNT], and the lock objects created so
    far, each held or free. *)
Record shared : Type := mkShared {
  sh_uniqids : gmap (list string * list Z) Z;
  sh_count : Z;
  sh_locks : list bool
}.

(** One step of a thread; [None] when it is blocked on a held lock or has
    finished. *)
Definition thread_step (t : thread) (sh : shared) : option (thread * shared) :=
  match t_pc t with
  | AtLock =>
      Some (mkThread AtAcquire (t_key t) (Some (length (sh_locks sh))) (t_uniqid t),
            mkShared (sh_uniqids sh) (sh_count sh) (sh_locks sh ++ [false]))
  | AtAcquire =>
      match t_lock t with
      | Some l =>
          match sh_locks sh !! l with
          | Some false =>
              Some (mkThread AtGet (t_key t) (t_lock t) (t_uniqid t),
                    mkShared (sh_uniqids sh) (sh_count sh) (<[l := true]> (sh_locks sh)))
          | _ => None
          end
      | None => None
      end
  | AtGet =>
      Some (mkThread AtTest (t_key t) (t_lock t)
              (Some (default (sh_count sh) (sh_uniqids sh !! t_key t))),
            sh)
  | AtTest =>
      Some (mkThread (if decide (t_uniqid t = Some (sh_count sh)) then AtIncr else AtRelease)
              (t_key t) (t_lock t) (t_uniqid t),
            sh)
  | AtIncr =>
      Some (mkThread AtInsert (t_key t) (t_lock t) (t_uniqid t),
            mkShared (sh_uniqids sh) (sh_count sh + 1) (sh_locks sh))
  | AtInsert =>
      Some (mkThread AtRelease (t_key t) (t_lock t) (t_uniqid t),
            mkShared (<[t_key t := default 0%Z (t_uniqid t)]> (sh_uniqids sh))
              (sh_count sh) (sh_locks sh))
  | AtRelease =>
      Some (mkThread AtEnd (t_key t) (t_lock t) (t_uniqid t),
            mkShared (sh_uniqids sh) (sh_count sh)
              (match t_lock t with
               | Some l => <[l := false]> (sh_locks sh)
               | None => sh_locks sh
               end))
  | AtEnd => None
  end.

(** Two threads and the state they share. *)
Record conc : Type := mkConc {
  c_first : thread;
  c_second : thread;
  c_shared : shared
}.

(** A schedule names, step by step, the thread that runs: [false] the
    first, [true] the second.  It is refused when the thread it names
    cannot step. *)
Fixpoint run_schedule (sched : list bool) (c : conc) : option conc :=
  match sched with
  | [] => Some c
  | false :: sched =>
      match thread_step (c_first c) (c_shared c) with
      | Some (t, sh) => run_schedule sched (mkConc t (c_second c) sh)
      | None => None
      end
  | true :: sched =>
      match thread_step (c_second c) (c_shared c) with
      | Some (t, sh) => run_schedule sched (mkConc (c_first c) t sh)
      | None => None
      end
  end.

(** Both threads call [Variable(names, indices)] with the same identity, in
    the state after the module is loaded. *)
Definition two_calls (key : list string * list Z) : conc :=
  mkConc (mkThread AtLock key None None) (mkThread AtLock key None None)
    (mkShared ∅ 1 []).

(** A thread that runs alone does what [Variable__init__] does. *)
Lemma thread_alone key r :
  let sh := mkShared (_UNIQIDS r) (_COUNT r) [] in
  let t := mkThread AtLock key None None in
  ∃ n t' sh',
    Nat.iter n (λ c, match c with
                     | Some (t, sh) => thread_step t sh
                     | None => None
                     end) (Some (t, sh)) = Some (t', sh') ∧
    t_pc t' = AtEnd ∧
    (Variable__init__ key.1 key.2 r).1 =
      Ok (mkVariable (default 0%Z (t_uniqid t')) key.1 key.2) ∧
    _UNIQIDS (Variable__init__ key.1 key.2 r).2 = sh_uniqids sh' ∧
    _COUNT (Variable__init__ key.1 key.2 r).2 = sh_count sh'.
Proof.
  cbv zeta. unfold Variable__init__. rewrite <- surjective_pairing.
  destruct (decide (default (_COUNT r) (_UNIQIDS r !! key) = _COUNT r)) as [Heq|Hne].
  - exists 7. eexists _, _. split.
    { cbn. rewrite decide_True by (by rewrite Heq). cbn. reflexivity. }
    cbn. by rewrite Heq.
  - exists 5. eexists _, _. split.
    { cbn. rewrite decide_False by congruence. cbn. reflexivity. }
    done.
Qed.

(** The lock a thread acquires is the one it has just created, which no
    other thread can hold: entering the [with] block never waits. *)
Definition lock_ok (t : thread) (sh : shared) : Prop :=
  match t_pc t with
  | AtLock => t_lock t = None
  | AtAcquire => ∃ l, t_lock t = Some l ∧ sh_locks sh !! l = Some false
  | _ => ∃ l, t_lock t = Some l ∧ l < length (sh_locks sh)
  end.

Definition apart (t1 t2 : thread) : Prop :=
  ∀ l, t_lock t1 = Some l → t_lock t2 ≠ Some l.

Lemma lock_ok_lt t sh l : lock_ok t sh → t_lock t = Some l → l < length (sh_locks sh).
Proof.
  unfold lock_ok. intros H Hl. destruct (t_pc t);
    try (destruct H as (l' & Hl' & H); rewrite Hl in Hl'; injection Hl' as <-; done).
  - congruence.
  - destruct H as (l' & Hl' & H). rewrite Hl in Hl'. injection Hl' as <-.
    by eapply lookup_lt_Some.
Qed.

(** What a step of another thread does to the locks leaves [lock_ok]. *)
Lemma lock_ok_frame o sh sh' :
  lock_ok o sh →
  length (sh_locks sh) ≤ length (sh_locks sh') →
  (∀ l, t_lock o = Some l → sh_locks sh' !! l = sh_locks sh !! l) →
  lock_ok o sh'.
Proof.
  unfold lock_ok. intros H Hlen Hsame. destruct (t_pc o); simpl; try done;
    destruct H as (l & Hl & H); exists l; (split; [done|]); try lia.
  by rewrite (Hsame l Hl).
Qed.

Lemma thread_step_inv t o sh t' sh' :
  lock_ok t sh → lock_ok o sh → apart t o →
  thread_step t sh = Some (t', sh') →
  lock_ok t' sh' ∧ lock_ok o sh' ∧ apart t' o.
Proof.
  intros Ht Ho Hap. unfold thread_step.
  destruct t as [p k lk u]. unfold lock_ok in Ht. unfold apart in Hap. simpl in *.
  destruct p; simpl in *.
  - intros [= <- <-]. split_and!.
    + unfold lock_ok. simpl. exists (length (sh_locks sh)). split; [done|].
      rewrite lookup_app_r by lia. by rewrite Nat.sub_diag.
    + apply (lock_ok_frame o sh); simpl; [done|rewrite length_app; lia|].
      intros l Hl. apply lookup_app_l. by eapply lock_ok_lt.
    + intros l [= <-] Hl. apply (lock_ok_lt o sh) in Hl; [lia|done].
  - destruct Ht as (l & -> & Hfree). rewrite Hfree. intros [= <- <-]. split_and!.
    + unfold lock_ok. simpl. exists l. split; [done|].
      rewrite length_insert. by eapply lookup_lt_Some.
    + apply (lock_ok_frame o sh); simpl; [done|by rewrite length_insert|].
      intros l' Hl'. apply list_lookup_insert_ne. intros ->. by apply (Hap l').
    + done.
  - intros [= <- <-]. split_and!; [|done|done].
    unfold lock_ok. simpl. done.
  - intros [= <- <-]. split_and!; [|done|done].
    unfold lock_ok. simpl. by destruct (decide _).
  - intros [= <- <-]. split_and!; [done| |done].
    by apply (lock_ok_frame o sh).
  - intros [= <- <-]. split_and!; [done| |done].
    by apply (lock_ok_frame o sh).
  - intros [= <- <-]. destruct Ht as (l & -> & Hlt). split_and!.
    + unfold lock_ok. simpl. exists l. split; [done|]. by rewrite length_insert.
    + apply (lock_ok_frame o sh); simpl; [done|by rewrite length_insert|].
      intros l' Hl'. apply list_lookup_insert_ne. intros ->. by apply (Hap l').
    + done.
  - done.
Qed.

Definition locks_apart (c : conc) : Prop :=
  lock_ok (c_first c) (c_shared c) ∧ lock_ok (c_second c) (c_shared c) ∧
  apart (c_first c) (c_second c).

Lemma apart_sym t1 t2 : apart t1 t2 → apart t2 t1.
Proof. intros H l H2 H1. by apply (H l). Qed.

Lemma run_schedule_inv sched : ∀ c c',
  locks_apart c → run_schedule sched c = Some c' → locks_apart c'.
Proof.
  induction sched as [|[|] sched IH]; intros c c' (H1 & H2 & Hap); simpl.
  - by intros [= <-].
  - destruct (thread_step (c_second c) (c_shared c)) as [[t sh]|] eqn:Hs; [|done].
    apply IH.
    destruct (thread_step_inv _ _ _ _ _ H2 H1 (apart_sym _ _ Hap) Hs) as (? & ? & ?).
    split_and!; simpl; [done|done|by apply apart_sym].
  - destruct (thread_step (c_first c) (c_shared c)) as [[t sh]|] eqn:Hs; [|done].
    apply IH.
    destruct (thread_step_inv _ _ _ _ _ H1 H2 Hap Hs) as (? & ? & ?).
    by split_and!.
Qed.

Lemma acquire_steps t sh :
  lock_ok t sh → t_pc t = AtAcquire → is_Some (thread_step t sh).
Proof.
  unfold lock_ok, thread_step. intros H Hpc. rewrite Hpc in *.
  destruct H as (l & -> & ->). eauto.
Qed.

(** X20. Whatever the schedule of two calls of [Variable.__init__], a call
    that is about to enter its [with] block can enter it: the lock it
    acquires is the one it has just created, so the block excludes no
    one. *)
Lemma with_block_never_waits key sched c :
  run_schedule sched (two_calls key) = Some c →
  (t_pc (c_first c) = AtAcquire → is_Some (thread_step (c_first c) (c_shared c))) ∧
  (t_pc (c_second c) = AtAcquire → is_Some (thread_step (c_second c) (c_shared c))).
Proof.
  intros Hrun.
  assert (locks_apart (two_calls key)) as H0.
  { unfold locks_apart, lock_ok, apart, two_calls; simpl.
    split_and!; [done|done|]. intros l Hl. discriminate Hl. }
  destruct (run_schedule_inv sched _ _ H0 Hrun) as (H1 & H2 & _).
  split; by apply acquire_steps.
Qed.

(** The schedule of the race: the first thread runs up to and including
    [_COUNT += 1]; the second runs its whole call; the first finishes. *)
Definition race : list bool :=
  [false; false; false; false; false;
   true; true; true; true; true; true; true;
   false; false].

(** C9 fails on the code.  Two threads that call [Variable.__init__] with
    the same new identity, scheduled as [race], both finish, and hold the
    [uniqid] 1 and the [uniqid] 2: after the first thread's [_COUNT += 1]
    the table has no entry yet, so the second thread reads the new count as
    its default.  Both threads were inside their [with] blocks at once. *)
Theorem fresh_lock_race :
  let key : list string * list Z := (["a"%string], []) in
  ∃ c mid,
    run_schedule (take 8 race) (two_calls key) = Some mid ∧
    t_pc (c_first mid) = AtInsert ∧ t_pc (c_second mid) = AtTest ∧
    run_schedule race (two_calls key) = Some c ∧
    t_pc (c_first c) = AtEnd ∧ t_pc (c_second c) = AtEnd ∧
    t_key (c_first c) = t_key (c_second c) ∧
    t_uniqid (c_first c) = Some 1%Z ∧ t_uniqid (c_second c) = Some 2%Z.
Proof.
  cbv zeta. eexists _, _. split; [by vm_compute|]. split; [done|]. split; [done|].
  split; [by vm_compute|]. by split_and!.
Qed.

(** * Further properties of the code *)

(** ** The node table *)

(** X1. In a state the public operations reach, a node object that is not a
    terminal has two distinct children, and asking [_obddnode] for its
    [(root, lo, hi)] returns that very object and allocates nothing; no
    other object has the same three fields. *)
Theorem obddnode_round_trip st (a : ref) o l h :
  reachable st →
  objs (nodes st) !! a = Some o → lo o = Some l → hi o = Some h →
  l ≠ h ∧
  _obddnode (root o) l h (nodes st) = (Ok a, nodes st) ∧
  (∀ b : ref, objs (nodes st) !! b = Some o → b = a).
Proof.
  intros Hr Ha Hl Hh. pose proof (reachable_wf st Hr) as Hwf.
  pose proof (ws_nodes st Hwf) as Hwfn.
  assert (_NODES (nodes st) !! (root o, Some l, Some h) = Some a) as Hkey.
  { apply (wf_table _ Hwfn). simpl. rewrite <- Hl, <- Hh. by rewrite obj_eta. }
  assert (a ≠ BDDNODEZERO) as Hz.
  { intros ->. pose proof (eq_trans (eq_sym Ha) (wf_zero _ Hwfn)) as Heq.
    injection Heq as ->. done. }
  assert (a ≠ BDDNODEONE) as Ho.
  { intros ->. pose proof (eq_trans (eq_sym Ha) (wf_one _ Hwfn)) as Heq.
    injection Heq as ->. done. }
  destruct (wf_reduced_ordered _ Hwfn a o Ha Hz Ho) as (l' & h' & Hl' & Hh' & Hne & _).
  assert (l' = l) as -> by congruence. assert (h' = h) as -> by congruence.
  split_and!.
  - done.
  - unfold _obddnode. rewrite decide_False by done. by rewrite Hkey.
  - intros b Hb.
    assert (_NODES (nodes st) !! (root o, Some l, Some h) = Some b) as Hkey'.
    { apply (wf_table _ Hwfn). simpl. rewrite <- Hl, <- Hh. by rewrite obj_eta. }
    congruence.
Qed.

Lemma obddnode_round_trip_witness :
  reachable demo_a ∧
  objs (nodes demo_a) !! 2 = Some (mkOBDDNode 1 (Some 0) (Some 1)) ∧
  _obddnode 1 0 1 (nodes demo_a) = (Ok 2, nodes demo_a).
Proof.
  split; [apply reachable_demo_a|]. split; [reflexivity|].
  apply (obddnode_round_trip demo_a 2 (mkOBDDNode 1 (Some 0) (Some 1)) 0 1
           reachable_demo_a eq_refl eq_refl eq_refl).
Defined.

(** ** The traversals *)

(** [dfs_postorder(self)] and [dfs_preorder(self)]: the nodes the generator
    yields. *)
Definition dfs_postorder (lim : nat) (self : obdd) : M state (list ref) :=
  yv <- on_nodes (_dfs_postorder lim (node_of self) ∅);
  ret yv.1.

Definition dfs_preorder (lim : nat) (self : obdd) : M state (list ref) :=
  yv <- on_nodes (_dfs_preorder lim (node_of self) ∅);
  ret yv.1.

Lemma dfs_run lim s a t visited :
  wf s → denotes s a t → depth t < lim →
  ∃ ys visited', _dfs_postorder lim a visited s = (Ok (ys, visited'), s) ∧
    NoDup ys ∧
    (∀ b, b ∈ ys ↔ reach s a b ∧ b ∉ visited) ∧
    (∀ b, b ∈ visited' ↔ b ∈ visited ∨ reach s a b) ∧
    (a ∉ visited → ∃ ys0, ys = ys0 ++ [a]).
Proof.
  intros Hwf Ha Hlim.
  pose proof (dfs_spec lim s a t visited Hwf Ha) as (Hs & Hres).
  destruct (_dfs_postorder lim a visited s) as [[[ys v']|e] s']; simpl in Hs, Hres;
    subst s'; [|destruct Hres; lia].
  by exists ys, v'.
Qed.

(** In post-order every node comes after the nodes below it. *)
Lemma dfs_post_order lim : ∀ s a t visited ys visited',
  wf s → denotes s a t → depth t < lim →
  _dfs_postorder lim a visited s = (Ok (ys, visited'), s) →
  ∀ i b c, ys !! i = Some b → reach s b c →
    c ∈ visited ∨ ∃ j, j ≤ i ∧ ys !! j = Some c.
Proof.
  induction lim as [|lim IH]; intros s a t visited ys visited' Hwf Ha Hlim; [lia|].
  destruct Ha as [| |a v l h tl th Hz Ho Hobj Hl Hh].
  - cbn [_dfs_postorder]. rewrite (bind_getobj _ _ _ _ (wf_zero s Hwf)). simpl.
    unfold bind, ret. simpl. intros Heq i b c Hi Hr.
    destruct (decide (BDDNODEZERO ∈ visited)); injection Heq as <- <-; [done|].
    apply list_lookup_singleton_Some in Hi as [-> <-].
    apply (reach_leaf s _ _ _ (wf_zero s Hwf)) in Hr as ->. right. by exists 0.
  - cbn [_dfs_postorder]. rewrite (bind_getobj _ _ _ _ (wf_one s Hwf)). simpl.
    unfold bind, ret. simpl. intros Heq i b c Hi Hr.
    destruct (decide (BDDNODEONE ∈ visited)); injection Heq as <- <-; [done|].
    apply list_lookup_singleton_Some in Hi as [-> <-].
    apply (reach_leaf s _ _ _ (wf_one s Hwf)) in Hr as ->. right. by exists 0.
  - simpl in Hlim.
    destruct (dfs_run lim s l tl visited Hwf Hl) as (ys1 & v1 & E1 & _ & Hys1 & Hv1 & _);
      [lia|].
    destruct (dfs_run lim s h th v1 Hwf Hh) as (ys2 & v2 & E2 & _ & Hys2 & Hv2 & _);
      [lia|].
    pose proof (IH s l tl visited ys1 v1 Hwf Hl ltac:(lia) E1) as IH1.
    pose proof (IH s h th v1 ys2 v2 Hwf Hh ltac:(lia) E2) as IH2.
    cbn [_dfs_postorder]. rewrite (bind_getobj _ _ _ _ Hobj). cbn [lo hi].
    rewrite (bind_eq _ _ _ _ _ E1). cbn beta iota.
    rewrite (bind_eq _ _ _ _ _ E2). cbn beta iota.
    assert (∀ i b c, (ys1 ++ ys2) !! i = Some b → reach s b c →
              c ∈ visited ∨ ∃ j, j ≤ i ∧ (ys1 ++ ys2) !! j = Some c) as H12.
    { intros i b c Hi Hr. apply lookup_app_Some in Hi as [Hi|[Hlen Hi]].
      - destruct (IH1 i b c Hi Hr) as [?|(j & Hj & Hc)]; [by left|].
        right. exists j. split; [done|]. by apply lookup_app_l_Some.
      - destruct (IH2 _ b c Hi Hr) as [Hc|(j & Hj & Hc)].
        + apply Hv1 in Hc as [?|Hc]; [by left|].
          destruct (decide (c ∈ visited)) as [|Hnv]; [by left|].
          assert (c ∈ ys1) as Hin by (by apply Hys1).
          apply list_elem_of_lookup in Hin as [j Hj].
          right. exists j. split; [|by apply lookup_app_l_Some].
          apply lookup_lt_Some in Hj. lia.
        + right. exists (length ys1 + j). split; [lia|].
          rewrite lookup_app_r by lia. by replace (length ys1 + j - length ys1) with j by lia. }
    destruct (decide (a ∈ v2)) as [Hin|Hnin]; intros [= <- <-]; [exact H12|].
    intros i b c Hi Hr. rewrite app_assoc in Hi |- *.
    apply lookup_app_Some in Hi as [Hi|[Hlen Hi]].
    + destruct (H12 i b c Hi Hr) as [?|(j & Hj & Hc)]; [by left|].
      right. exists j. split; [done|]. by apply lookup_app_l_Some.
    + apply list_lookup_singleton_Some in Hi as [Hi <-].
      apply (reach_node s a v l h c Hobj) in Hr as [->|Hr].
      * right. exists i. split; [done|]. rewrite lookup_app_r by lia.
        by rewrite Hi.
      * destruct (decide (c ∈ visited)) as [|Hnv]; [by left|].
        assert (c ∈ ys1 ++ ys2) as Hin.
        { rewrite elem_of_app, Hys1, Hys2, Hv1. destruct Hr as [Hr|Hr]; [by left|].
          destruct (decide (c ∈ ys1)) as [Hc1|Hc1]; [left; by apply Hys1|].
          right. split; [done|]. intros [?|?]; [done|]. apply Hc1, Hys1. done. }
        apply list_elem_of_lookup in Hin as [j Hj].
        right. exists j. split; [|by apply lookup_app_l_Some].
        apply lookup_lt_Some in Hj. lia.
Qed.

(** X2. [dfs_postorder] of a diagram the caller holds, given enough
    recursion depth, yields every node that can be reached from the
    diagram's node exactly once, each node after all the nodes below it and
    the diagram's own node last; the state is left as it was. *)
Theorem dfs_postorder_visits st d :
  reachable st → known st d →
  ∃ N, ∀ lim, N ≤ lim →
    ∃ ys, dfs_postorder lim d st = (Ok ys, st) ∧
      NoDup ys ∧
      (∀ b, b ∈ ys ↔ reach (nodes st) (node_of d) b) ∧
      last ys = Some (node_of d) ∧
      (∀ i b c, ys !! i = Some b → reach (nodes st) b c →
         ∃ j, j ≤ i ∧ ys !! j = Some c).
Proof.
  intros Hr Hd. pose proof (reachable_wf st Hr) as Hwf.
  pose proof (ws_nodes st Hwf) as Hwfn.
  destruct (known_denotes st d Hwf Hd) as (t & Ht & _).
  exists (depth t + 1). intros lim Hlim.
  destruct (dfs_run lim (nodes st) (node_of d) t ∅ Hwfn Ht) as
    (ys & v' & E & Hnd & Hys & _ & Hlast); [lia|].
  exists ys. split_and!.
  - unfold dfs_postorder, bind, on_nodes. rewrite E. cbn [fst snd]. unfold ret.
    by rewrite state_eta.
  - done.
  - intros b. rewrite Hys. split; [tauto|]. intros ?. split; [done|]. set_solver.
  - destruct Hlast as [ys0 ->]; [set_solver|]. apply last_snoc.
  - intros i b c Hi Hrch.
    destruct (dfs_post_order lim (nodes st) (node_of d) t ∅ ys v' Hwfn Ht ltac:(lia) E
                i b c Hi Hrch) as [?|?]; [set_solver|done].
Qed.

Lemma dfs_postorder_visits_witness :
  reachable demo_f ∧ known demo_f diagram_f ∧
  ∃ N, ∀ lim, N ≤ lim →
    ∃ ys, dfs_postorder lim diagram_f demo_f = (Ok ys, demo_f) ∧ NoDup ys ∧
          last ys = Some (node_of diagram_f).
Proof.
  split; [apply reachable_demo_f|]. split; [apply known_diagram_f|].
  destruct (dfs_postorder_visits demo_f diagram_f reachable_demo_f known_diagram_f)
    as [N HN].
  exists N. intros lim Hlim. destruct (HN lim Hlim) as (ys & H1 & H2 & _ & H3 & _).
  exists ys. split; [exact H1|]. split; [exact H2|exact H3].
Defined.

(** What [_dfs_preorder] does on a well-formed store. *)
Definition dfs_pre (s : store) (a : ref) (t : bdd) (lim : nat) (visited : gset ref)
    (out : result (list ref * gset ref) * store) : Prop :=
  out.2 = s ∧
  match out.1 with
  | Ok (ys, visited') =>
      NoDup ys ∧
      (∀ b, b ∈ ys ↔ reach s a b ∧ b ∉ visited) ∧
      (∀ b, b ∈ visited' ↔ b ∈ visited ∨ reach s a b) ∧
      (a ∉ visited → head ys = Some a) ∧
      (∀ i b, ys !! i = Some b → b = a ∨
         ∃ (p : ref) o, objs s !! p = Some o ∧ (lo o = Some b ∨ hi o = Some b) ∧
                        (p ∈ visited ∨ ∃ j, j < i ∧ ys !! j = Some p))
  | Raise e => e = RecursionError ∧ lim ≤ depth t
  end.

Lemma dfs_pre_leaf s (a : ref) lim visited v t :
  objs s !! a = Some (mkOBDDNode v None None) →
  dfs_pre s a t (S lim) visited (_dfs_preorder (S lim) a visited s).
Proof.
  intros Ha. cbn [_dfs_preorder].
  assert (∀ b, reach s a b ↔ b = a) as Hreach.
  { intros b. split; [by apply (reach_leaf s a b v)|intros ->; constructor]. }
  destruct (decide (a ∈ visited)) as [Hin|Hnin].
  - rewrite bind_ret. cbn beta iota. rewrite (bind_getobj _ _ _ _ Ha). simpl.
    split; [done|]. simpl. split_and!.
    + constructor.
    + intros b. rewrite Hreach. split; [by intros ?%elem_of_nil|].
      intros [-> ?]. done.
    + intros b. rewrite Hreach. split; [auto|]. intros [?| ->]; done.
    + done.
    + intros i b Hi. done.
  - rewrite bind_ret. cbn beta iota. rewrite (bind_getobj _ _ _ _ Ha). simpl.
    split; [done|]. simpl. split_and!.
    + apply NoDup_singleton.
    + intros b. rewrite Hreach, list_elem_of_singleton. split; [by intros ->|by intros [? _]].
    + intros b. rewrite Hreach, elem_of_union, elem_of_singleton. tauto.
    + done.
    + intros i b Hi. apply list_lookup_singleton_Some in Hi as [_ <-]. by left.
Qed.

Lemma dfs_pre_spec lim : ∀ s a t visited,
  wf s → denotes s a t →
  dfs_pre s a t lim visited (_dfs_preorder lim a visited s).
Proof.
  induction lim as [|lim IH]; intros s a t visited Hwf Ha.
  { split; [done|]. simpl. split; [done|lia]. }
  destruct Ha as [| |a v l h tl th Hz Ho Hobj Hl Hh].
  - eapply dfs_pre_leaf, (wf_zero s Hwf).
  - eapply dfs_pre_leaf, (wf_one s Hwf).
  - cbn [_dfs_preorder].
    set (ys0 := if decide (a ∈ visited) then [] else [a]).
    set (v0 := if decide (a ∈ visited) then visited else {[ a ]} ∪ visited).
    assert ((if decide (a ∈ visited) then ret ([], visited)
             else ret ([a], {[ a ]} ∪ visited)) = (ret (ys0, v0) : M store _)) as ->.
    { unfold ys0, v0. by destruct (decide (a ∈ visited)). }
    rewrite bind_ret. cbn beta iota.
    rewrite (bind_getobj _ _ _ _ Hobj). cbn [lo hi].
    assert (∀ b, b ∈ v0 ↔ b ∈ visited ∨ b = a) as Hv0.
    { intros b. unfold v0. destruct (decide (a ∈ visited)); [|set_solver].
      split; [auto|]. intros [?| ->]; done. }
    assert (∀ b, b ∈ ys0 ↔ b = a ∧ a ∉ visited) as Hys0.
    { intros b. unfold ys0. destruct (decide (a ∈ visited)).
      - split; [by intros ?%elem_of_nil|tauto].
      - rewrite list_elem_of_singleton. tauto. }
    pose proof (IH s l tl v0 Hwf Hl) as (Hs1 & H1).
    unfold bind at 1.
    destruct (_dfs_preorder lim l v0 s) as [[[ys1 v1]|e] s1]; simpl in Hs1, H1;
      subst s1.
    2:{ split; [done|]. simpl. destruct H1 as [-> ?]. split; [done|lia]. }
    destruct H1 as (Hnd1 & Hys1 & Hv1 & _ & Hp1).
    pose proof (IH s h th v1 Hwf Hh) as (Hs2 & H2).
    unfold bind at 1.
    destruct (_dfs_preorder lim h v1 s) as [[[ys2 v2]|e] s2]; simpl in Hs2, H2;
      subst s2.
    2:{ split; [done|]. simpl. destruct H2 as [-> ?]. split; [done|lia]. }
    destruct H2 as (Hnd2 & Hys2 & Hv2 & _ & Hp2).
    assert (∀ b, reach s l b ∨ reach s h b → b ≠ a) as Hbelow.
    { intros b [Hr|Hr] ->; apply (reach_le s _ _ Hwf) in Hr.
      - assert (l < a) by (apply (wf_lower s Hwf a _ l Hobj); by left). lia.
      - assert (h < a) by (apply (wf_lower s Hwf a _ h Hobj); by right). lia. }
    assert (length ys0 ≤ 1) as Hlen0.
    { unfold ys0. destruct (decide (a ∈ visited)); simpl; lia. }
    assert (a ∈ visited ∨ ys0 !! 0 = Some a) as Ha0.
    { unfold ys0. destruct (decide (a ∈ visited)); [by left|by right]. }
    split; [done|]. cbn [fst snd]. split_and!.
    + apply NoDup_app. split_and!.
      * unfold ys0. destruct (decide (a ∈ visited)); [constructor|apply NoDup_singleton].
      * intros b Hb0 Hb12. apply Hys0 in Hb0 as [-> _].
        apply elem_of_app in Hb12 as [Hb|Hb].
        -- apply Hys1 in Hb as [Hb _]. eapply Hbelow; [left; exact Hb|done].
        -- apply Hys2 in Hb as [Hb _]. eapply Hbelow; [right; exact Hb|done].
      * apply NoDup_app. split_and!; [done| |done].
        intros b Hb1 Hb2. apply Hys2 in Hb2 as [_ Hb2]. apply Hb2, Hv1.
        apply Hys1 in Hb1. tauto.
    + intros b. rewrite !elem_of_app, Hys0, Hys1, Hys2, Hv1, Hv0,
        (reach_node s a v l h b Hobj). split.
      * intros [[-> ?]|[[? ?]|[? ?]]]; split; auto; tauto.
      * intros [[->|[Hr|Hr]] Hnv]; [by left|..].
        -- right. left. split; [done|]. intros [?| ->]; [done|].
           eapply Hbelow; [left; exact Hr|done].
        -- right. destruct (decide (b ∈ ys1)) as [Hb1|Hb1].
           ++ left. apply Hys1 in Hb1 as [? Hb1]. split; [done|].
              intros Hx. apply Hb1, Hv0, Hx.
           ++ right. split; [done|]. intros [[?| ->]|Hrl]; [done| |].
              ** eapply Hbelow; [right; exact Hr|done].
              ** apply Hb1, Hys1. split; [done|]. intros Hx.
                 apply Hv0 in Hx as [?| ->]; [done|].
                 eapply Hbelow; [left; exact Hrl|done].
    + intros b. rewrite Hv2, Hv1, Hv0, (reach_node s a v l h b Hobj). tauto.
    + intros Hnv. unfold ys0. by rewrite decide_False.
    + intros i b Hi.
      assert (∀ p : ref, p ∈ v0 → p ∈ visited ∨ ∃ j, j < 1 ∧ ys0 !! j = Some p) as Hpar0.
      { intros p Hp. apply Hv0 in Hp as [?| ->]; [by left|].
        destruct Ha0 as [?|?]; [by left|]. right. exists 0. split; [lia|done]. }
      assert (∀ p : ref, p = a → 0 < i → length ys0 ≤ i →
                p ∈ visited ∨ ∃ j, j < i ∧ (ys0 ++ ys1 ++ ys2) !! j = Some p) as Hroot.
      { intros p -> Hpos Hlen. destruct Ha0 as [?|Ha0]; [by left|].
        right. exists 0. split; [done|]. by apply lookup_app_l_Some. }
      apply lookup_app_Some in Hi as [Hi|[Hlen Hi]].
      { left. apply list_elem_of_lookup_2 in Hi. by apply Hys0 in Hi as [-> _]. }
      right.
      assert (a ∈ visited ∨ 0 < i) as Hai.
      { destruct Ha0 as [?|Ha0]; [by left|]. right.
        apply lookup_lt_Some in Ha0. lia. }
      apply lookup_app_Some in Hi as [Hi|[Hlen1 Hi]].
      * destruct (Hp1 _ b Hi) as [->|(p & o & Hpo & Hchild & Hp)].
        -- exists a, (mkOBDDNode v (Some l) (Some h)). split; [done|].
           split; [by left|]. destruct Hai as [?|?]; [by left|]. by apply Hroot.
        -- exists p, o. split; [done|]. split; [done|].
           destruct Hp as [Hp|(j & Hj & Hp)].
           ++ apply Hpar0 in Hp as [?|(j & Hj & Hp)]; [by left|].
              right. exists j. split; [|by apply lookup_app_l_Some].
              apply lookup_lt_Some in Hp. lia.
           ++ right. exists (length ys0 + j). split; [lia|].
              rewrite lookup_app_r by lia.
              replace (length ys0 + j - length ys0) with j by lia.
              by apply lookup_app_l_Some.
      * destruct (Hp2 _ b Hi) as [->|(p & o & Hpo & Hchild & Hp)].
        -- exists a, (mkOBDDNode v (Some l) (Some h)). split; [done|].
           split; [by right|]. destruct Hai as [?|?]; [by left|]. by apply Hroot.
        -- exists p, o. split; [done|]. split; [done|].
           destruct Hp as [Hp|(j & Hj & Hp)].
           ++ destruct (decide (p ∈ v0)) as [Hp0|Hnp0].
              ** apply Hpar0 in Hp0 as [?|(j & Hj & Hp0)]; [by left|].
                 right. exists j. split; [|by apply lookup_app_l_Some].
                 apply lookup_lt_Some in Hp0. lia.
              ** assert (p ∈ ys1) as Hin.
                 { apply Hys1. apply Hv1 in Hp as [?|?]; [done|]. by split. }
                 apply list_elem_of_lookup in Hin as [j Hj].
                 right. exists (length ys0 + j). split.
                 { apply lookup_lt_Some in Hj. lia. }
                 rewrite lookup_app_r by lia.
                 replace (length ys0 + j - length ys0) with j by lia.
                 by apply lookup_app_l_Some.
           ++ right. exists (length ys0 + (length ys1 + j)). split; [lia|].
              rewrite lookup_app_r by lia.
              replace (length ys0 + (length ys1 + j) - length ys0)
                with (length ys1 + j) by lia.
              rewrite lookup_app_r by lia.
              by replace (length ys1 + j - length ys1) with j by lia.
Qed.

(** X3. [dfs_preorder] of a diagram the caller holds, given enough recursion
    depth, yields every node that can be reached from the diagram's node
    exactly once, the diagram's own node first and every other node after
    one of its parents; the state is left as it was. *)
Theorem dfs_preorder_visits st d :
  reachable st → known st d →
  ∃ N, ∀ lim, N ≤ lim →
    ∃ ys, dfs_preorder lim d st = (Ok ys, st) ∧
      NoDup ys ∧
      (∀ b, b ∈ ys ↔ reach (nodes st) (node_of d) b) ∧
      head ys = Some (node_of d) ∧
      (∀ i b, ys !! i = Some b → b ≠ node_of d →
         ∃ (p : ref) o j, objs (nodes st) !! p = Some o ∧
           (lo o = Some b ∨ hi o = Some b) ∧ j < i ∧ ys !! j = Some p).
Proof.
  intros Hr Hd. pose proof (reachable_wf st Hr) as Hwf.
  pose proof (ws_nodes st Hwf) as Hwfn.
  destruct (known_denotes st d Hwf Hd) as (t & Ht & _).
  exists (depth t + 1). intros lim Hlim.
  pose proof (dfs_pre_spec lim (nodes st) (node_of d) t ∅ Hwfn Ht) as (Hs & Hres).
  destruct (_dfs_preorder lim (node_of d) ∅ (nodes st)) as [[[ys v']|e] s'] eqn:E;
    simpl in Hs, Hres; subst s'; [|destruct Hres; lia].
  destruct Hres as (Hnd & Hys & _ & Hhead & Hpar).
  exists ys. split_and!.
  - unfold dfs_preorder, bind, on_nodes. rewrite E. cbn [fst snd]. unfold ret.
    by rewrite state_eta.
  - done.
  - intros b. rewrite Hys. split; [tauto|]. intros ?. split; [done|]. set_solver.
  - apply Hhead. set_solver.
  - intros i b Hi Hne. destruct (Hpar i b Hi) as [?|(p & o & Hp & Hc & [?|(j & ? & ?)])];
      [done|set_solver|]. by exists p, o, j.
Qed.

Lemma dfs_preorder_visits_witness :
  reachable demo_f ∧ known demo_f diagram_f ∧
  ∃ N, ∀ lim, N ≤ lim →
    ∃ ys, dfs_preorder lim diagram_f demo_f = (Ok ys, demo_f) ∧ NoDup ys ∧
          head ys = Some (node_of diagram_f).
Proof.
  split; [apply reachable_demo_f|]. split; [apply known_diagram_f|].
  destruct (dfs_preorder_visits demo_f diagram_f reachable_demo_f known_diagram_f)
    as [N HN].
  exists N. intros lim Hlim. destruct (HN lim Hlim) as (ys & H1 & H2 & _ & H3 & _).
  exists ys. split; [exact H1|]. split; [exact H2|exact H3].
Defined.

(** ** Constant diagrams *)

(** X4. For a diagram the caller holds in a reachable state, [is_zero]
    holds exactly when the Boolean function of the diagram is false under
    every assignment, and [is_one] exactly when it is true under every
    assignment; [equivalent] against the literals [0] and [1] returns the
    same answers. *)
Theorem is_zero_is_one_decide st d :
  reachable st → known st d →
  (is_zero d = true ↔ ∀ e, eval (nodes st) (node_of d) e = false) ∧
  (is_one d = true ↔ ∀ e, eval (nodes st) (node_of d) e = true) ∧
  (∀ s : state, equivalent d (PyInt 0) s = (Ok (is_zero d), s)) ∧
  (∀ s : state, equivalent d (PyInt 1) s = (Ok (is_one d), s)).
Proof.
  intros Hr Hd. pose proof (reachable_wf st Hr) as Hwf.
  pose proof (ws_nodes st Hwf) as Hwfn.
  pose proof (known_lt st d Hwf Hd) as Hlt.
  pose proof (known_lt st _ Hwf (known_zero st Hwf)) as Hlt0.
  pose proof (known_lt st _ Hwf (known_one st Hwf)) as Hlt1.
  assert (∀ e, eval (nodes st) BDDNODEZERO e = false) as H0.
  { intros e. by rewrite (eval_interp _ _ (Leaf false)) by (done || constructor). }
  assert (∀ e, eval (nodes st) BDDNODEONE e = true) as H1.
  { intros e. by rewrite (eval_interp _ _ (Leaf true)) by (done || constructor). }
  split_and!.
  - unfold is_zero. rewrite bool_decide_eq_true. split.
    + intros ->. exact H0.
    + intros He. apply (store_canonical (nodes st)); [done..|].
      intros e. by rewrite He, H0.
  - unfold is_one. rewrite bool_decide_eq_true. split.
    + intros ->. exact H1.
    + intros He. apply (store_canonical (nodes st)); [done..|].
      intros e. by rewrite He, H1.
  - done.
  - done.
Qed.

Lemma is_zero_is_one_decide_witness :
  reachable demo_a ∧ known demo_a var_a ∧
  (is_zero var_a = true ↔ ∀ e, eval (nodes demo_a) (node_of var_a) e = false).
Proof.
  split; [apply reachable_demo_a|]. split; [apply known_var_a|].
  apply (is_zero_is_one_decide demo_a var_a reachable_demo_a known_var_a).
Defined.

(** ** Diagrams are immutable *)

(** X5. A call of a public operation, whether it returns or raises, leaves
    every diagram the caller holds as it was: the caller still holds it, the
    node object it wraps has the same fields, and its Boolean function is
    the same. *)
Theorem held_diagrams_unchanged st lim c d :
  reachable st → args_known st c → known st d →
  known (exec lim c st).2 d ∧
  objs (nodes (exec lim c st).2) !! node_of d = objs (nodes st) !! node_of d ∧
  ∀ e, eval (nodes (exec lim c st).2) (node_of d) e = eval (nodes st) (node_of d) e.
Proof.
  intros Hr Hc Hd. pose proof (reachable_wf st Hr) as Hwf.
  destruct (exec_spec lim c st Hwf Hc) as (Hwf' & Hle & _).
  destruct (known_denotes st d Hwf Hd) as (t & Ht & _).
  pose proof (denotes_grows _ _ _ _ (sl_nodes _ _ Hle) Ht) as Ht'.
  destruct (lookup_ref _ _ (known_lt st d Hwf Hd)) as [o Ho].
  split_and!.
  - by apply (known_le st).
  - rewrite Ho. by apply (grows_lookup (nodes st)); [apply (sl_nodes _ _ Hle)|].
  - intros e. rewrite (eval_interp _ _ t), (eval_interp _ _ t); [done|..]; try done.
    + apply (ws_nodes _ Hwf).
    + apply (ws_nodes _ Hwf').
Qed.

Lemma held_diagrams_unchanged_witness :
  reachable demo_a ∧ known demo_a var_a ∧
  known (exec 5 (Cinvert var_a) demo_a).2 var_a.
Proof.
  split; [apply reachable_demo_a|]. split; [apply known_var_a|].
  apply (held_diagrams_unchanged demo_a 5 (Cinvert var_a) var_a
           reachable_demo_a known_var_a known_var_a).
Defined.

(** ** The operators compute their truth tables *)

(** The outcome of an operator: a diagram the caller holds with the Boolean
    function [F], or [RecursionError] when the recursion limit [lim] is
    below [N]. *)
Definition computes (out : result obdd * state) (F : env → bool) (N lim : nat) : Prop :=
  match out with
  | (Ok d, st') => known st' d ∧ ∀ e, eval (nodes st') (node_of d) e = F e
  | (Raise e, _) => e = RecursionError ∧ lim < N
  end.

Lemma computes_of_dpost st out F F' bound lim B N :
  dpost st out (op_post st F bound) (limit_exn lim B) →
  B < N → (∀ e, F e = F' e) → computes out F' N lim.
Proof.
  destruct out as [[d|e] st']; intros (Hwf' & _ & Hres) HN HF; simpl in *.
  - destruct Hres as (Hk & _ & _ & _ & t & Ht & Hs & _). split; [done|].
    intros e. rewrite (eval_interp _ _ t); [|apply (ws_nodes _ Hwf')|done].
    by rewrite Hs, HF.
  - destruct Hres as [-> ?]. split; [done|lia].
Qed.

(** X6. For diagrams [f] and [g] the caller holds in a reachable state, the
    operators [~f], [f | g], [f & g] and [f ^ g] return a diagram whose
    Boolean function is the negation, disjunction, conjunction and
    exclusive or of the functions of [f] and [g]; the only exception they
    can raise is [RecursionError], and not when the recursion limit is at
    least some bound [N]. *)
Theorem operators_truth_tables st f g :
  reachable st → known st f → known st g →
  ∃ N, ∀ lim,
    let F := eval (nodes st) (node_of f) in
    let G := eval (nodes st) (node_of g) in
    computes (__invert__ lim f st) (λ e, negb (F e)) N lim ∧
    computes (__or__ lim f (PyObj g) st) (λ e, F e || G e) N lim ∧
    computes (__and__ lim f (PyObj g) st) (λ e, F e && G e) N lim ∧
    computes (__xor__ lim f (PyObj g) st) (λ e, xorb (F e) (G e)) N lim.
Proof.
  intros Hr Hf Hg. pose proof (reachable_wf st Hr) as Hwf.
  pose proof (ws_nodes st Hwf) as Hwfn.
  destruct (known_denotes st f Hwf Hf) as (tf & Htf & _).
  destruct (known_denotes st g Hwf Hg) as (tg & Htg & _).
  exists (depth tf + 2 * depth tg + 2). intros lim. cbv zeta.
  assert (∀ e, interp tf e = eval (nodes st) (node_of f) e) as HF.
  { intros e. by rewrite (eval_interp _ _ tf). }
  assert (∀ e, interp tg e = eval (nodes st) (node_of g) e) as HG.
  { intros e. by rewrite (eval_interp _ _ tg). }
  split_and!.
  - eapply computes_of_dpost; [apply (invert_spec lim st f tf Hwf Htf)|lia|].
    intros e. cbn beta. by rewrite HF.
  - eapply computes_of_dpost;
      [apply (or_spec lim st f (PyObj g) g tf tg Hwf eq_refl Htf Htg)|lia|].
    intros e. cbn beta. by rewrite HF, HG.
  - eapply computes_of_dpost;
      [apply (and_spec lim st f (PyObj g) g tf tg Hwf eq_refl Htf Htg)|lia|].
    intros e. cbn beta. by rewrite HF, HG.
  - eapply computes_of_dpost;
      [apply (xor_spec lim st f (PyObj g) g tf tg Hwf eq_refl Htf Htg)|lia|].
    intros e. cbn beta. by rewrite HF, HG.
Qed.

Lemma operators_truth_tables_witness :
  reachable demo_a ∧ known demo_a var_a ∧
  ∃ N, ∀ lim,
    computes (__invert__ lim var_a demo_a)
      (λ e, negb (eval (nodes demo_a) (node_of var_a) e)) N lim.
Proof.
  split; [apply reachable_demo_a|]. split; [apply known_var_a|].
  destruct (operators_truth_tables demo_a var_a var_a
              reachable_demo_a known_var_a known_var_a) as [N HN].
  exists N. intros lim. destruct (HN lim) as [H _]. exact H.
Defined.

(** X7. [f >> g] returns a diagram whose Boolean function is the
    implication from [f] to [g]; the reflected [f.__rrshift__(g)], which
    Python calls for [g >> f] when [g] is not a diagram, returns the
    implication from [g] to [f].  The only exception is [RecursionError],
    and not when the recursion limit is at least some bound [N]. *)
Theorem implication_truth_table st f g :
  reachable st → known st f → known st g →
  ∃ N, ∀ lim,
    let F := eval (nodes st) (node_of f) in
    let G := eval (nodes st) (node_of g) in
    computes (__rshift__ lim f (PyObj g) st) (λ e, implb (F e) (G e)) N lim ∧
    computes (__rrshift__ lim f (PyObj g) st) (λ e, implb (G e) (F e)) N lim ∧
    computes (__rrshift__ lim f (PyInt 1) st) F N lim ∧
    computes (__rrshift__ lim f (PyInt 0) st) (λ _, true) N lim.
Proof.
  intros Hr Hf Hg. pose proof (reachable_wf st Hr) as Hwf.
  pose proof (ws_nodes st Hwf) as Hwfn.
  destruct (known_denotes st f Hwf Hf) as (tf & Htf & _).
  destruct (known_denotes st g Hwf Hg) as (tg & Htg & _).
  exists (depth tf + depth tg + 2). intros lim. cbv zeta.
  assert (∀ e, interp tf e = eval (nodes st) (node_of f) e) as HF.
  { intros e. by rewrite (eval_interp _ _ tf). }
  assert (∀ e, interp tg e = eval (nodes st) (node_of g) e) as HG.
  { intros e. by rewrite (eval_interp _ _ tg). }
  split_and!.
  - eapply computes_of_dpost;
      [apply (rshift_spec lim st f (PyObj g) g tf tg Hwf eq_refl Htf Htg)|lia|].
    intros e. cbn beta. by rewrite HF, HG.
  - eapply computes_of_dpost;
      [apply (rrshift_spec lim st f (PyObj g) g tf tg Hwf eq_refl Htf Htg)|lia|].
    intros e. cbn beta. by rewrite HF, HG.
  - eapply computes_of_dpost;
      [apply (rrshift_spec lim st f (PyInt 1) BDDONE tf (Leaf true) Hwf eq_refl Htf);
       constructor|simpl; lia|].
    intros e. cbn beta. simpl. by rewrite HF.
  - eapply computes_of_dpost;
      [apply (rrshift_spec lim st f (PyInt 0) BDDZERO tf (Leaf false) Hwf eq_refl Htf);
       constructor|simpl; lia|].
    done.
Qed.

Lemma implication_truth_table_witness :
  reachable demo_a ∧ known demo_a var_a ∧
  ∃ N, ∀ lim,
    computes (__rshift__ lim var_a (PyObj var_a) demo_a)
      (λ e, implb (eval (nodes demo_a) (node_of var_a) e)
                  (eval (nodes demo_a) (node_of var_a) e)) N lim.
Proof.
  split; [apply reachable_demo_a|]. split; [apply known_var_a|].
  destruct (implication_truth_table demo_a var_a var_a
              reachable_demo_a known_var_a known_var_a) as [N HN].
  exists N. intros lim. destruct (HN lim) as [H _]. exact H.
Defined.

(** ** Operands that cannot be boxed *)

(** X8. An operator, [equivalent] or [restrict] given an operand that is
    not a diagram and not equal to [0], ["0"], [1] or ["1"] raises
    [TypeError] before it creates anything: the state is left as it was. *)
Theorem operators_reject_operand st lim f (other : pyval obdd) x :
  reachable st → known st x →
  is_diagram other = false →
  py_eq_int other 0 = false → py_eq_str other "0" = false →
  py_eq_int other 1 = false → py_eq_str other "1" = false →
  __or__ lim f other st = (Raise TypeError, st) ∧
  __and__ lim f other st = (Raise TypeError, st) ∧
  __xor__ lim f other st = (Raise TypeError, st) ∧
  __rshift__ lim f other st = (Raise TypeError, st) ∧
  __rrshift__ lim f other st = (Raise TypeError, st) ∧
  equivalent f other st = (Raise TypeError, st) ∧
  restrict lim f [(x, other)] st = (Raise TypeError, st).
Proof.
  intros Hr Hx Hd H0 Hs0 H1 Hs1. pose proof (reachable_wf st Hr) as Hwf.
  assert (boxed other = None) as Hb.
  { unfold boxed. destruct other; try done; by rewrite H0, Hs0, H1, Hs1. }
  unfold __or__, __and__, __xor__, __rshift__, __rrshift__, equivalent.
  rewrite !bind_box, Hb. split_and!; try done.
  unfold restrict. unfold bind at 1.
  rewrite (npoint_of_eq st [(x, other)] ∅ Hwf).
  - destruct (lookup_ref _ _ (known_lt st x Hwf Hx)) as [o Ho].
    cbn [npoint_pure]. by rewrite Ho, Hb.
  - intros v val Hin. apply list_elem_of_singleton in Hin as [= -> ->].
    split; [done|]. by destruct other.
Qed.

Lemma operators_reject_operand_witness :
  reachable demo_a ∧
  __or__ 5 var_a PyNone demo_a = (Raise TypeError, demo_a) ∧
  restrict 5 var_a [(var_a, PyInt 2)] demo_a = (Raise TypeError, demo_a).
Proof.
  split; [apply reachable_demo_a|].
  split.
  - apply (operators_reject_operand demo_a 5 var_a PyNone var_a
             reachable_demo_a known_var_a); reflexivity.
  - apply (operators_reject_operand demo_a 5 var_a (PyInt 2) var_a
             reachable_demo_a known_var_a); reflexivity.
Defined.

(** ** The reflected operators of [boolean.py] *)

(** [Function.__ror__], [__rand__] and [__rxor__]: Python calls them for
    [g | f], [g & f] and [g ^ f] when [g] is not a diagram. *)
Definition __ror__ (lim : nat) (self : obdd) (g : pyval obdd) : M state obdd :=
  __or__ lim self g.
Definition __rand__ (lim : nat) (self : obdd) (g : pyval obdd) : M state obdd :=
  __and__ lim self g.
Definition __rxor__ (lim : nat) (self : obdd) (g : pyval obdd) : M state obdd :=
  __xor__ lim self g.

(** The operator with its operands one way, then the reflected operator
    with the same operands. *)
Definition swapped (op rop : obdd → pyval obdd → M state obdd) (f g : obdd)
    : M state (obdd * obdd) :=
  x <- op g (PyObj f);
  y <- rop f (PyObj g);
  ret (x, y).

Lemma swapped_agree st f g tf tg
    (op rop : nat → obdd → pyval obdd → M state obdd)
    (F : bool → bool → bool) (bound : bdd → bdd → nat) lim :
  (∀ lim st f g tf tg, wf_state st →
     denotes (nodes st) (node_of f) tf → denotes (nodes st) (node_of g) tg →
     dpost st (op lim f (PyObj g) st)
       (op_post st (λ e, F (interp tf e) (interp tg e)) (bound tf tg))
       (limit_exn lim (bound tf tg + 1))) →
  (∀ lim f g, rop lim f g = op lim f g) →
  (∀ a b, F a b = F b a) →
  wf_state st → known st f → known st g →
  denotes (nodes st) (node_of f) tf → denotes (nodes st) (node_of g) tg →
  bound tf tg + 1 < lim → bound tg tf + 1 < lim →
  agree (swapped (op lim) (rop lim) f g) st.
Proof.
  intros Hop Hrop HF Hwf Hf Hg Htf Htg Hlim1 Hlim2. unfold agree, swapped.
  destruct (run_of_dpost _ _ _ _ _ _ (Hop lim st g f tg tf Hwf Htg Htf))
    as (x & st1 & t1 & E1 & Hwf1 & Hle1 & Hx1 & Hk1 & Ht1 & Hs1 & Hd1); [lia|].
  rewrite (bind_eq _ _ _ _ _ E1). sfwd. rewrite Hrop.
  destruct (run_of_dpost _ _ _ _ _ _ (Hop lim st1 f g tf tg Hwf1 Htf Htg))
    as (y & st2 & t2 & E2 & Hwf2 & Hle2 & Hx2 & Hk2 & Ht2 & Hs2 & Hd2); [lia|].
  rewrite (bind_eq _ _ _ _ _ E2). sfwd.
  assert (x = y) as ->.
  { apply (same_function_same_diagram st2 _ _ t1 t2); try done.
    intros e. rewrite Hs1, Hs2. apply HF. }
  by exists y, st2.
Qed.

(** X9. The operators [|], [&] and [^] are commutative on diagram objects,
    so the reflected operators of [Function], which call the operator with
    the operands swapped, return the right diagram: with enough recursion
    depth [g | f] and [f.__ror__(g)] are the same diagram object, and the
    same holds for [&] and [^]. *)
Theorem reflected_operators_commute st f g :
  reachable st → known st f → known st g →
  ∃ N, ∀ lim, N ≤ lim →
    agree (swapped (__or__ lim) (__ror__ lim) f g) st ∧
    agree (swapped (__and__ lim) (__rand__ lim) f g) st ∧
    agree (swapped (__xor__ lim) (__rxor__ lim) f g) st.
Proof.
  intros Hr Hf Hg. pose proof (reachable_wf st Hr) as Hwf.
  destruct (known_denotes st f Hwf Hf) as (tf & Htf & _).
  destruct (known_denotes st g Hwf Hg) as (tg & Htg & _).
  exists (2 * depth tf + 2 * depth tg + 2). intros lim Hlim. split_and!.
  - apply (swapped_agree st f g tf tg __or__ __ror__ orb
             (λ tf tg, depth tf + depth tg)); try done; [| |lia|lia].
    + intros lim' st' f' g' tf' tg' Hwf' Hf' Hg'.
      by apply (or_spec lim' st' f' (PyObj g') g' tf' tg').
    + apply orb_comm.
  - apply (swapped_agree st f g tf tg __and__ __rand__ andb
             (λ tf tg, depth tf + depth tg)); try done; [| |lia|lia].
    + intros lim' st' f' g' tf' tg' Hwf' Hf' Hg'.
      by apply (and_spec lim' st' f' (PyObj g') g' tf' tg').
    + apply andb_comm.
  - apply (swapped_agree st f g tf tg __xor__ __rxor__ xorb
             (λ tf tg, depth tf + 2 * depth tg)); try done; [| |lia|lia].
    + intros lim' st' f' g' tf' tg' Hwf' Hf' Hg'.
      by apply (xor_spec lim' st' f' (PyObj g') g' tf' tg').
    + apply xorb_comm.
Qed.

Lemma reflected_operators_commute_witness :
  reachable demo_f ∧ known demo_f diagram_f ∧ known demo_f var_a ∧
  ∃ N, ∀ lim, N ≤ lim →
    agree (swapped (__or__ lim) (__ror__ lim) diagram_f var_a) demo_f.
Proof.
  assert (known demo_f var_a) as Ha by (by vm_compute).
  split; [apply reachable_demo_f|]. split; [apply known_diagram_f|]. split; [exact Ha|].
  destruct (reflected_operators_commute demo_f diagram_f var_a
              reachable_demo_f known_diagram_f Ha) as [N HN].
  exists N. intros lim Hlim. destruct (HN lim Hlim) as [H _]. exact H.
Defined.

(** ** Variable diagrams and the registry *)

(** Only [obddvar] touches the registry and the table [_VARS]. *)
Definition same_vars (st st' : state) : Prop :=
  reg st' = reg st ∧ _VARS st' = _VARS st.

Lemma same_vars_bind {A B} (m : M state A) (k : A → M state B) :
  (∀ st, same_vars st (m st).2) → (∀ a st, same_vars st (k a st).2) →
  ∀ st, same_vars st (bind m k st).2.
Proof.
  intros Hm Hk st. unfold bind. specialize (Hm st).
  destruct (m st) as [[a|e] st1]; simpl in *; [|done].
  specialize (Hk a st1). unfold same_vars in *. destruct Hk, Hm. split; congruence.
Qed.

Lemma same_vars_on_nodes {A} (m : M store A) st : same_vars st (on_nodes m st).2.
Proof. done. Qed.

Lemma same_vars_obdd n st : same_vars st (_obdd n st).2.
Proof. unfold _obdd. by destruct (_BDDS st !! n). Qed.

Lemma same_vars_box obj (st : state) : same_vars st (box obj st).2.
Proof. rewrite box_eq. by destruct (boxed obj). Qed.

Lemma same_vars_npoint_of items : ∀ acc st, same_vars st (npoint_of items acc st).2.
Proof.
  induction items as [|[v val] items IH]; intros acc; simpl; [done|].
  apply same_vars_bind; [apply same_vars_on_nodes|]. intros k.
  apply same_vars_bind; [apply same_vars_box|]. intros d. apply IH.
Qed.

Ltac same_vars_tac :=
  repeat first
    [ apply same_vars_obdd
    | apply same_vars_on_nodes
    | apply same_vars_box
    | apply same_vars_npoint_of
    | apply same_vars_bind; [|intros ?] ].

Lemma same_vars_exec lim c st :
  (∀ name index, c ≠ Cobddvar name index) → same_vars st (exec lim c st).2.
Proof.
  intros Hc. revert st.
  destruct c as [name index|f|f o|f o|f o|f o|f o|f point]; simpl;
    [by destruct (Hc name index)|..];
    unfold __invert__, __or__, __and__, __xor__, __rshift__, __rrshift__, restrict;
    same_vars_tac.
Qed.

(** [obddvar] on a well-formed request, step by step. *)
Lemma obddvar_run name index st :
  wf_state st → ¬ invalid_identifier name index →
  let key := key_of name index in
  ∃ (v : nat) u r',
    var name index (reg st) = (Ok v, r') ∧ reg_inv r' ∧ reg_le (reg st) r' ∧
    VARIABLES r' !! key = Some v ∧ _UNIQIDS r' !! key = Some u ∧
    (∀ k, k ≠ key → _UNIQIDS r' !! k = _UNIQIDS (reg st) !! k) ∧
    (is_Some (VARIABLES (reg st) !! key) → r' = reg st) ∧
    (_UNIQIDS (reg st) !! key = None → u = _COUNT (reg st)) ∧
    match _VARS st !! u with
    | Some d =>
        obddvar name index st =
          (Ok d, {| reg := r'; nodes := nodes st; _VARS := _VARS st; _BDDS := _BDDS st |})
    | None =>
        ∃ n s', _obddnode u BDDNODEZERO BDDNODEONE (nodes st) = (Ok n, s') ∧
          let d := OBDDVariable (mkVariable u key.1 key.2) n in
          obddvar name index st =
            (Ok d, {| reg := r'; nodes := s'; _VARS := <[u := d]> (_VARS st);
                      _BDDS := <[n := d]> (_BDDS st) |})
    end.
Proof.
  intros Hwf Hv. cbv zeta. pose proof (ws_reg st Hwf) as Hreg.
  destruct (var_spec name index (reg st) Hreg Hv)
    as (v & u & r' & Hvar & Hreg' & Hle' & Hkv & Hku & Hobj & Hother & Hsame & Hnew).
  set (key := key_of name index) in *.
  exists v, u, r'. split_and!; try done.
  destruct (_VARS st !! u) as [d|] eqn:Hd.
  { unfold obddvar. unfold bind at 1. unfold on_reg at 1. rewrite Hvar. cbn [fst snd].
    unfold bind at 1, get. cbn [reg]. rewrite Hobj. cbn [uniqid _VARS]. by rewrite Hd. }
  destruct (Variable_init_spec key.1 key.2 r' Hreg')
    as (u' & r'' & Hinit & _ & _ & Hu' & _ & _ & _ & Hsame' & _).
  rewrite <- surjective_pairing in Hu', Hsame'.
  rewrite (Hsame' (ex_intro _ u Hku)) in Hinit, Hu'.
  assert (u' = u) as -> by congruence.
  destruct (_obddnode u BDDNODEZERO BDDNODEONE (nodes st)) as [[n|e] s'] eqn:Hmk.
  2:{ exfalso. unfold _obddnode in Hmk. rewrite decide_False in Hmk by done.
      by destruct (_NODES (nodes st) !! _). }
  exists n, s'. split; [done|]. cbv zeta.
  unfold obddvar. unfold bind at 1. unfold on_reg at 1. rewrite Hvar. cbn [fst snd].
  unfold bind at 1, get. cbn [reg]. rewrite Hobj. cbn [uniqid _VARS]. rewrite Hd.
  unfold OBDDVariable__init__. cbn [names indices uniqid].
  unfold bind, on_reg, on_nodes, ret, get, put. cbn [reg nodes _VARS _BDDS fst snd].
  rewrite Hinit. cbn [fst snd]. rewrite Hmk. done.
Qed.

(** The identities the registry knows are those of the variable diagrams:
    an identity with a [uniqid] has its [Variable], the names of an identity
    are not empty and its indices are not negative, and a variable diagram
    carries the identity its [uniqid] was given to. *)
Record linked (st : state) : Prop := mkLinked {
  lk_ids : ∀ k u, _UNIQIDS (reg st) !! k = Some u → is_Some (VARIABLES (reg st) !! k);
  lk_valid : ∀ k u, _UNIQIDS (reg st) !! k = Some u →
    k.1 ≠ [] ∧ ∀ i, i ∈ k.2 → (0 ≤ i)%Z;
  lk_vars : ∀ u bvar n, _VARS st !! u = Some (OBDDVariable bvar n) →
    _UNIQIDS (reg st) !! (names bvar, indices bvar) = Some u
}.

Lemma key_of_valid (name index : pyval obdd) :
  ¬ invalid_identifier name index →
  (key_of name index).1 ≠ [] ∧ ∀ i, i ∈ (key_of name index).2 → (0 ≤ i)%Z.
Proof.
  intros Hv. destruct (valid_args name index Hv) as (ns & ix & Hn & Hne & _ & Hi & Hci).
  unfold key_of. rewrite Hn, Hi. simpl. split.
  - destruct ns; [done|]. done.
  - intros i Hin. apply list_elem_of_fmap in Hin as (p & -> & Hp).
    destruct (check_indices_Ok _ Hci p Hp). lia.
Qed.

Lemma linked_obddvar name index st :
  wf_state st → linked st → linked (obddvar name index st).2.
Proof.
  intros Hwf Hlk.
  destruct (var_any name index (reg st) (ws_reg st Hwf)) as (_ & _ & [Hi|Hv] & _).
  { unfold obddvar, bind, on_reg.
    destruct (var_invalid_eq name index (reg st) Hi) as (e & _ & ->).
    cbn [fst snd]. by rewrite state_eta. }
  destruct (obddvar_run name index st Hwf Hv)
    as (v & u & r' & _ & Hreg' & Hle' & Hkv & Hku & Hother & _ & _ & Hrun).
  set (key := key_of name index) in *.
  assert (∀ k w, _UNIQIDS r' !! k = Some w → is_Some (VARIABLES r' !! k)) as Hids.
  { intros k w Hk. destruct (decide (k = key)) as [->|Hne]; [eauto|].
    rewrite (Hother k Hne) in Hk. destruct (lk_ids st Hlk k w Hk) as [x Hx].
    exists x. eapply lookup_weaken; [exact Hx|apply (rl_vars _ _ Hle')]. }
  assert (∀ k w, _UNIQIDS r' !! k = Some w → k.1 ≠ [] ∧ ∀ i, i ∈ k.2 → (0 ≤ i)%Z)
    as Hvalid.
  { intros k w Hk. destruct (decide (k = key)) as [->|Hne]; [by apply key_of_valid|].
    rewrite (Hother k Hne) in Hk. by apply (lk_valid st Hlk k w). }
  assert (∀ w bvar n, _VARS st !! w = Some (OBDDVariable bvar n) →
            _UNIQIDS r' !! (names bvar, indices bvar) = Some w) as Hvars.
  { intros w bvar n Hw. eapply lookup_weaken; [by eapply (lk_vars st Hlk)|].
    apply (rl_ids _ _ Hle'). }
  destruct (_VARS st !! u) as [d|] eqn:Hd.
  - rewrite Hrun. by split.
  - destruct Hrun as (n & s' & _ & ->). split; cbn [snd reg _VARS]; [done|done|].
    intros w bvar n' Hw. apply lookup_insert_Some in Hw as [[<- [= <- <-]]|[_ Hw]].
    + exact Hku.
    + by eapply Hvars.
Qed.

Lemma reachable_linked st : reachable st → linked st.
Proof.
  induction 1 as [|st lim c Hr IH Hc].
  - split; intros ? ? ?; done.
  - destruct c as [name index|f|f o|f o|f o|f o|f o|f point];
      [by apply linked_obddvar; [apply reachable_wf|]|..];
      (match goal with
       | |- linked (exec ?lim ?c ?st).2 =>
           destruct (same_vars_exec lim c st) as [Hreg Hvars]; [by intros ? ?|];
           destruct IH as [H1 H2 H3]; split; rewrite ?Hreg, ?Hvars; done
       end).
Qed.

(** What [obddvar] returns on a well-formed request, and again. *)
Lemma obddvar_memo_run (name index : pyval obdd) st :
  reachable st → ¬ invalid_identifier name index →
  ∃ d st' bvar n,
    obddvar name index st = (Ok d, st') ∧
    d = OBDDVariable bvar n ∧
    names bvar = (key_of name index).1 ∧ indices bvar = (key_of name index).2 ∧
    (0 < uniqid bvar)%Z ∧
    known st' d ∧
    (∀ e, eval (nodes st') n e = e (uniqid bvar)) ∧
    obddvar name index st' = (Ok d, st') ∧
    (∀ name' index' d' st'',
       obddvar name' index' st' = (Ok d', st'') →
       key_of name' index' ≠ key_of name index → d' ≠ d).
Proof.
  intros Hr Hv. pose proof (reachable_wf st Hr) as Hwf.
  pose proof (reachable_linked st Hr) as Hlk.
  pose proof (reachable_step st 0 (Cobddvar name index) Hr I) as Hr'.
  pose proof (obddvar_spec name index st Hwf) as (Hwf' & Hle & Hpost).
  cbn [exec] in Hr'.
  destruct (obddvar name index st) as [[d|e] st'] eqn:Hrun; cbn [fst snd] in *.
  2:{ by destruct Hpost as [_ ?]. }
  destruct Hpost as (Hk & bvar & n & -> & Hvars & Hden & Hid).
  pose proof (reachable_linked st' Hr') as Hlk'.
  pose proof (lk_vars st' Hlk' _ _ _ Hvars) as Hid'.
  assert ((names bvar, indices bvar) = key_of name index) as Hkey.
  { eapply (ri_inj _ (ws_reg st' Hwf')); eauto. }
  destruct (ws_vars st' Hwf' _ _ Hvars) as (bvar' & n' & [= <- <-] & _ & Hpos & _ & _).
  exists (OBDDVariable bvar n), st', bvar, n. split_and!; try done.
  - by rewrite <- Hkey.
  - by rewrite <- Hkey.
  - intros e. rewrite (eval_interp _ _ _ e (ws_nodes st' Hwf') Hden). simpl.
    by destruct (e (uniqid bvar)).
  - destruct (lk_ids st' Hlk' _ _ Hid) as [v Hvv].
    destruct (obddvar_run name index st' Hwf' Hv)
      as (v' & u' & r'' & _ & _ & _ & _ & Hku & _ & Hsame & _ & Hrun').
    rewrite (Hsame (ex_intro _ v Hvv)) in Hku, Hrun'.
    assert (u' = uniqid bvar) as -> by congruence.
    rewrite Hvars in Hrun'. by rewrite state_eta in Hrun'.
  - intros name' index' d' st'' Hrun' Hne ->.
    pose proof (obddvar_spec name' index' st' Hwf') as (Hwf'' & Hle' & Hpost').
    rewrite Hrun' in Hwf'', Hle', Hpost'. cbn [fst snd] in *.
    destruct Hpost' as (_ & bvar' & n' & [= <- <-] & _ & _ & Hid'').
    apply Hne. eapply (ri_inj _ (ws_reg st'' Hwf'')); [exact Hid''|].
    eapply lookup_weaken; [exact Hid|]. apply (rl_ids _ _ (sl_reg _ _ Hle')).
Qed.

(** X10. [obddvar] with a well-formed name and index returns a variable
    diagram that carries the names and indices asked for, whose Boolean
    function is the value of its own variable.  Asking again returns the
    same diagram object and changes nothing, and a request for another
    identity never returns that object. *)
Theorem obddvar_memoised (name index : pyval obdd) st :
  reachable st → ¬ invalid_identifier name index →
  ∃ d st' bvar n,
    obddvar name index st = (Ok d, st') ∧
    d = OBDDVariable bvar n ∧
    names bvar = (key_of name index).1 ∧ indices bvar = (key_of name index).2 ∧
    (0 < uniqid bvar)%Z ∧
    known st' d ∧
    (∀ e, eval (nodes st') n e = e (uniqid bvar)) ∧
    obddvar name index st' = (Ok d, st') ∧
    (∀ name' index' d' st'',
       obddvar name' index' st' = (Ok d', st'') →
       key_of name' index' ≠ key_of name index → d' ≠ d).
Proof. apply obddvar_memo_run. Qed.

Lemma obddvar_memoised_witness :
  reachable demo_a ∧
  ∃ d st', obddvar (PyStr "b") (PyInt 3) demo_a = (Ok d, st') ∧
           obddvar (PyStr "b") (PyInt 3) st' = (Ok d, st').
Proof.
  split; [apply reachable_demo_a|].
  destruct (obddvar_memoised (PyStr "b") (PyInt 3) demo_a reachable_demo_a)
    as (d & st' & bvar & n & H1 & _ & _ & _ & _ & _ & _ & H2 & _).
  - intros [H|[(m & Hm & Hs)|(i & Hi & Hb)]].
    + discriminate H.
    + apply list_elem_of_singleton in Hm as ->. discriminate Hs.
    + apply list_elem_of_singleton in Hi as ->. destruct Hb as [Hb|Hb]; [discriminate Hb|].
      simpl in Hb. lia.
  - exists d, st'. split; [exact H1|exact H2].
Defined.

(** ** [create_variables] of [facades.py] *)

(** [OBDDVar.create_variables(var_names)]: [list(map(obddvar, var_names))]. *)
Fixpoint create_variables (var_names : list (pyval obdd)) : M state (list obdd) :=
  match var_names with
  | [] => ret []
  | name :: var_names =>
      v <- obddvar name PyNone;
      vs <- create_variables var_names;
      ret (v :: vs)
  end.

Lemma str_valid (n : string) : ¬ invalid_identifier (PyStr n : pyval obdd) PyNone.
Proof.
  intros [H|[(m & Hm & Hs)|(i & Hi & Hb)]].
  - discriminate H.
  - apply list_elem_of_singleton in Hm as ->. discriminate Hs.
  - by apply elem_of_nil in Hi.
Qed.

Lemma create_variables_run (ns : list string) : ∀ st,
  reachable st →
  ∃ ds st', create_variables (PyStr <$> ns) st = (Ok ds, st') ∧
    reachable st' ∧ st ≼ st' ∧ length ds = length ns ∧
    ∀ i n, ns !! i = Some n →
      ∃ bvar a, ds !! i = Some (OBDDVariable bvar a) ∧ known st' (OBDDVariable bvar a) ∧
        names bvar = [n] ∧ indices bvar = [] ∧
        _UNIQIDS (reg st') !! ([n], []) = Some (uniqid bvar) ∧
        _VARS st' !! uniqid bvar = Some (OBDDVariable bvar a).
Proof.
  induction ns as [|n ns IH]; intros st Hr.
  { exists [], st. split_and!; try done. }
  destruct (obddvar_memo_run (PyStr n) PyNone st Hr (str_valid n))
    as (d & st1 & bvar & a & Hrun & -> & Hnames & Hidx & _ & Hk & _ & Hagain & _).
  pose proof (reachable_step st 0 (Cobddvar (PyStr n) PyNone) Hr I) as Hr1.
  cbn [exec] in Hr1. rewrite Hrun in Hr1. cbn [snd] in Hr1.
  pose proof (obddvar_spec (PyStr n) PyNone st (reachable_wf st Hr)) as (_ & Hle1 & Hpost).
  rewrite Hrun in Hle1, Hpost. cbn [fst snd] in Hle1, Hpost.
  destruct Hpost as (_ & bvar' & a' & [= <- <-] & Hvs & _ & Hid).
  destruct (IH st1 Hr1) as (ds & st2 & Hrest & Hr2 & Hle2 & Hlen & Hds).
  exists (OBDDVariable bvar a :: ds), st2. split_and!.
  - cbn [fmap list_fmap create_variables]. rewrite (bind_eq _ _ _ _ _ Hrun).
    change (list_fmap _ _ PyStr ns) with (PyStr <$> ns).
    by rewrite (bind_eq _ _ _ _ _ Hrest).
  - done.
  - by etrans.
  - simpl. by rewrite Hlen.
  - intros [|i] m Hm; simpl in Hm.
    + injection Hm as <-. exists bvar, a. split_and!; try done.
      * by apply (known_le st1).
      * eapply lookup_weaken; [exact Hid|]. apply (rl_ids _ _ (sl_reg _ _ Hle2)).
      * eapply lookup_weaken; [exact Hvs|]. apply (sl_vars _ _ Hle2).
    + apply (Hds i m Hm).
Qed.

(** X11. [create_variables] on a list of strings, in a reachable state,
    never raises: it returns one variable diagram for each name, in order,
    each carrying its name and no index; two of them are the same object
    exactly when their names are equal, and with distinct [uniqid]s
    otherwise. *)
Theorem create_variables_spec (ns : list string) st :
  reachable st →
  ∃ ds st', create_variables (PyStr <$> ns) st = (Ok ds, st') ∧
    reachable st' ∧ length ds = length ns ∧
    (∀ i n, ns !! i = Some n →
       ∃ bvar a, ds !! i = Some (OBDDVariable bvar a) ∧
         known st' (OBDDVariable bvar a) ∧ names bvar = [n] ∧ indices bvar = []) ∧
    (∀ i j ni nj di dj,
       ns !! i = Some ni → ns !! j = Some nj → ds !! i = Some di → ds !! j = Some dj →
       (di = dj ↔ ni = nj) ∧ (var_uniqid di = var_uniqid dj ↔ ni = nj)).
Proof.
  intros Hr.
  destruct (create_variables_run ns st Hr) as (ds & st' & Hrun & Hr' & _ & Hlen & Hds).
  pose proof (reachable_wf st' Hr') as Hwf'.
  exists ds, st'. split_and!; try done.
  - intros i n Hn. destruct (Hds i n Hn) as (bvar & a & ? & ? & ? & ? & _).
    by exists bvar, a.
  - intros i j ni nj di dj Hi Hj Hdi Hdj.
    destruct (Hds i ni Hi) as (bi & ai & Hi' & Hki & Hni & _ & Hui & Hvi).
    destruct (Hds j nj Hj) as (bj & aj & Hj' & Hkj & Hnj & _ & Huj & Hvj).
    assert (di = OBDDVariable bi ai) as -> by congruence.
    assert (dj = OBDDVariable bj aj) as -> by congruence.
    cbn [var_uniqid].
    assert (uniqid bi = uniqid bj ↔ ni = nj) as Hu.
    { split.
      - intros Heq. rewrite Heq in Hui.
        pose proof (ri_inj _ (ws_reg st' Hwf') _ _ _ Hui Huj) as Hk. by injection Hk.
      - intros ->. congruence. }
    split; [|done]. split.
    + intros [= -> _]. by apply Hu.
    + intros Heq. apply Hu in Heq. rewrite Heq in Hvi. congruence.
Qed.

Lemma create_variables_spec_witness :
  reachable state0 ∧
  ∃ ds st', create_variables (PyStr <$> ["a"; "b"; "a"]%string) state0 = (Ok ds, st') ∧
            length ds = 3.
Proof.
  split; [apply reachable_init|].
  destruct (create_variables_spec ["a"; "b"; "a"]%string state0 reachable_init)
    as (ds & st' & H1 & _ & H2 & _).
  exists ds, st'. split; [exact H1|exact H2].
Defined.

Lemma create_variables_fresh (ns : list string) : ∀ st,
  reachable st → NoDup ns →
  (∀ n, n ∈ ns → _UNIQIDS (reg st) !! ([n], []) = None) →
  ∃ ds st', create_variables (PyStr <$> ns) st = (Ok ds, st') ∧
    length ds = length ns ∧
    _COUNT (reg st') = (_COUNT (reg st) + Z.of_nat (length ns))%Z ∧
    ∀ i d, ds !! i = Some d → var_uniqid d = (_COUNT (reg st) + Z.of_nat i)%Z.
Proof.
  induction ns as [|n ns IH]; intros st Hr Hnd Hnew.
  { exists [], st. split_and!; try done. simpl. lia. }
  apply NoDup_cons in Hnd as [Hn Hnd].
  pose proof (reachable_wf st Hr) as Hwf.
  destruct (obddvar_run (PyStr n) PyNone st Hwf (str_valid n))
    as (v & u & r' & _ & Hreg' & Hle' & _ & Hku & Hother & _ & Hu & Hrun).
  change (key_of (PyStr n : pyval obdd) PyNone) with ([n], [] : list Z) in *.
  assert (_UNIQIDS (reg st) !! ([n], [] : list Z) = None) as Hnone.
  { apply Hnew. by left. }
  specialize (Hu Hnone). subst u.
  assert (_UNIQIDS r' = <[([n], []) := _COUNT (reg st)]> (_UNIQIDS (reg st))) as Hids.
  { apply map_eq. intros k. destruct (decide (k = ([n], []))) as [->|Hne].
    - by rewrite lookup_insert_eq.
    - rewrite lookup_insert_ne by done. by apply Hother. }
  assert (_COUNT r' = (_COUNT (reg st) + 1)%Z) as Hcount.
  { rewrite (ri_count _ Hreg'), (ri_count _ (ws_reg st Hwf)), Hids.
    rewrite map_size_insert_None by done. lia. }
  pose proof (reachable_step st 0 (Cobddvar (PyStr n) PyNone) Hr I) as Hr1.
  cbn [exec] in Hr1.
  assert (∃ d st1, obddvar (PyStr n) PyNone st = (Ok d, st1) ∧ reg st1 = r' ∧
                   var_uniqid d = _COUNT (reg st)) as (d & st1 & Hd & Hreg1 & Hud).
  { destruct (_VARS st !! _COUNT (reg st)) as [d|] eqn:Hv.
    - eexists _, _. split; [exact Hrun|]. split; [done|].
      by apply (var_uniqid_of st).
    - destruct Hrun as (a & s' & _ & Hrun). eexists _, _. split; [exact Hrun|]. done. }
  rewrite Hd in Hr1. cbn [snd] in Hr1.
  destruct (IH st1 Hr1 Hnd) as (ds & st2 & Hrest & Hlen & Hc2 & Hds).
  { intros m Hm. rewrite Hreg1, Hother; [apply Hnew; by right|].
    intros [= ->]. done. }
  exists (d :: ds), st2. split_and!.
  - cbn [fmap list_fmap create_variables]. rewrite (bind_eq _ _ _ _ _ Hd).
    change (list_fmap _ _ PyStr ns) with (PyStr <$> ns).
    by rewrite (bind_eq _ _ _ _ _ Hrest).
  - simpl. by rewrite Hlen.
  - rewrite Hc2, Hreg1, Hcount. simpl length. lia.
  - intros [|i] d' Hi; simpl in Hi.
    + injection Hi as <-. rewrite Hud. lia.
    + rewrite (Hds i d' Hi), Hreg1, Hcount. lia.
Qed.

(** X12. [create_variables] on distinct names that the registry has not
    seen numbers the variables in list order: the [uniqid] of the variable
    at position [i] is the counter [_COUNT] before the call plus [i], and
    the counter ends that many higher.  Called first in a program, it gives
    the names the [uniqid]s 1, 2, 3, ... in order, which is the variable
    order of the diagrams. *)
Theorem create_variables_numbering (ns : list string) st :
  reachable st → NoDup ns →
  (∀ n, n ∈ ns → _UNIQIDS (reg st) !! ([n], []) = None) →
  ∃ ds st', create_variables (PyStr <$> ns) st = (Ok ds, st') ∧
    length ds = length ns ∧
    _COUNT (reg st') = (_COUNT (reg st) + Z.of_nat (length ns))%Z ∧
    (∀ i d, ds !! i = Some d → var_uniqid d = (_COUNT (reg st) + Z.of_nat i)%Z) ∧
    (st = state0 → ∀ i d, ds !! i = Some d → var_uniqid d = Z.of_nat (S i)).
Proof.
  intros Hr Hnd Hnew.
  destruct (create_variables_fresh ns st Hr Hnd Hnew) as (ds & st' & H1 & H2 & H3 & H4).
  exists ds, st'. split_and!; try done.
  intros -> i d Hi. rewrite (H4 i d Hi). simpl. lia.
Qed.

Lemma create_variables_numbering_witness :
  reachable state0 ∧ NoDup ["a"; "b"; "c"]%string ∧
  ∃ ds st', create_variables (PyStr <$> ["a"; "b"; "c"]%string) state0 = (Ok ds, st') ∧
    ∀ i d, ds !! i = Some d → var_uniqid d = Z.of_nat (S i).
Proof.
  assert (NoDup ["a"; "b"; "c"]%string) as Hnd.
  { apply NoDup_cons. split; [intros H; apply elem_of_cons in H as [H|H];
      [discriminate H|apply list_elem_of_singleton in H; discriminate H]|].
    apply NoDup_cons. split; [intros H; apply list_elem_of_singleton in H; discriminate H|].
    apply NoDup_singleton. }
  split; [apply reachable_init|]. split; [exact Hnd|].
  destruct (create_variables_numbering ["a"; "b"; "c"]%string state0 reachable_init Hnd)
    as (ds & st' & H1 & _ & _ & _ & H2).
  - intros n _. reflexivity.
  - exists ds, st'. split; [exact H1|]. exact (H2 eq_refl).
Defined.

(** ** Restriction *)

(** The key [v.node.root] that [restrict] reads for an item of its point,
    and the truth value of an item's value when [box] turns it into one of
    the two constant diagrams. *)
Definition key_root (s : store) (x : obdd) : Z :=
  match objs s !! node_of x with
  | Some o => root o
  | None => 0
  end.

Definition const_of (val : pyval obdd) : option bool :=
  match boxed val with
  | Some d =>
      if decide (node_of d = BDDNODEONE) then Some true
      else if decide (node_of d = BDDNODEZERO) then Some false
      else None
  | None => None
  end.

(** The assignment [e] after the items of a point, the later ones
    overriding the earlier ones. *)
Definition assign (s : store) (point : list (obdd * pyval obdd)) (e : env) : env :=
  foldl (λ e xv, upd (key_root s xv.1) (default false (const_of xv.2)) e) e point.

Lemma assign_ext s point : ∀ e1 e2,
  (∀ v, e1 v = e2 v) → ∀ v, assign s point e1 v = assign s point e2 v.
Proof.
  unfold assign. induction point as [|[x val] point IH]; intros e1 e2 He v; simpl; [done|].
  apply IH. intros w. unfold upd. by destruct (decide _).
Qed.

Lemma pt_of_insert_term (acc : gmap Z ref) k b v :
  pt_of (<[k := term b]> acc) v = if decide (v = k) then Some b else pt_of acc v.
Proof.
  unfold pt_of. destruct (decide (v = k)) as [->|Hne].
  - rewrite lookup_insert_eq. by destruct b.
  - by rewrite lookup_insert_ne.
Qed.

Lemma const_of_Some val b :
  const_of val = Some b → ∃ d, boxed val = Some d ∧ node_of d = term b.
Proof.
  unfold const_of. destruct (boxed val) as [d|]; [|done].
  repeat case_decide; intros [= <-]; eauto.
Qed.

Lemma npoint_pure_assign s point : ∀ acc,
  (∀ x val, (x, val) ∈ point →
     is_Some (objs s !! node_of x) ∧ is_Some (const_of val)) →
  npoint_ok acc →
  ∃ np, npoint_pure s point acc = Some np ∧ npoint_ok np ∧
        ∀ e v, override (pt_of np) e v = assign s point (override (pt_of acc) e) v.
Proof.
  induction point as [|[x val] point IH]; intros acc Hpt Hacc.
  { exists acc. by split_and!. }
  destruct (Hpt x val) as [[o Ho] [b Hb]]; [by left|].
  destruct (const_of_Some val b Hb) as (d & Hd & Hnd).
  destruct (IH (<[root o := term b]> acc)) as (np & Hnp & Hok & Hsem).
  { intros x' val' Hin. apply Hpt. by right. }
  { intros v w Hv. apply lookup_insert_Some in Hv as [[_ <-]|[_ Hv]]; [|by eapply Hacc].
    destruct b; auto. }
  exists np. split_and!.
  - cbn [npoint_pure]. by rewrite Ho, Hd, Hnd.
  - done.
  - intros e v. rewrite Hsem. unfold assign at 2. cbn [foldl fst snd].
    apply assign_ext. intros w. unfold override at 1. rewrite pt_of_insert_term.
    unfold upd, key_root. rewrite Ho, Hb. simpl. by destruct (decide (w = root o)).
Qed.

(** [restrict] on a point of constants, given enough recursion depth. *)
Lemma restrict_run lim st f point tf :
  wf_state st → known st f → denotes (nodes st) (node_of f) tf →
  (∀ x val, (x, val) ∈ point →
     known st x ∧ pv_known st val ∧ is_Some (const_of val)) →
  depth tf < lim →
  ∃ d st' t, restrict lim f point st = (Ok d, st') ∧ wf_state st' ∧ st ≼ st' ∧
             nodes st ⊑ nodes st' ∧ known st' d ∧
             denotes (nodes st') (node_of d) t ∧ depth t ≤ depth tf ∧
             ∀ e, interp t e = interp tf (assign (nodes st) point e).
Proof.
  intros Hwf Hf Htf Hpt Hlim.
  destruct (npoint_pure_assign (nodes st) point ∅) as (np & Hnp & Hok & Hsem).
  { intros x val Hin. destruct (Hpt x val Hin) as (Hx & _ & Hc). split; [|done].
    apply lookup_lt_is_Some_2. by apply known_lt. }
  { intros v w Hv. by rewrite lookup_empty in Hv. }
  assert (point_known st point) as Hpk.
  { intros x val Hin. destruct (Hpt x val Hin) as (? & ? & _). done. }
  pose proof (restrict_d_spec lim st f point np tf Hwf Hpk Hnp Htf) as (Hwf' & Hle & Hres).
  destruct (restrict lim f point st) as [[d|e] st'] eqn:E; simpl in Hwf', Hle, Hres.
  2:{ exfalso. destruct Hres as [[_ ?]|[_ (v & w & _ & Hv & H0 & H1)]]; [lia|].
      destruct (Hok v w Hv); done. }
  destruct Hres as (Hd & Hext & _ & _ & Ht).
  exists d, st', (trestrict (pt_of np) tf). split_and!; try done.
  - apply depth_trestrict.
  - intros e. rewrite interp_trestrict. apply interp_ext. intros v _.
    rewrite Hsem. apply assign_ext. intros w. unfold override, pt_of.
    by rewrite lookup_empty.
Qed.

(** X13. [restrict] with a point whose values are all constants ([0], [1],
    ["0"], ["1"], a boolean or a constant diagram) returns, given enough
    recursion depth, a diagram whose Boolean function is that of [f] with
    the variables of the point fixed to their values, a later item
    overriding an earlier one for the same variable. *)
Theorem restrict_fixes_variables st f point :
  reachable st → known st f →
  (∀ x val, (x, val) ∈ point →
     known st x ∧ pv_known st val ∧ is_Some (const_of val)) →
  ∃ N, ∀ lim, N ≤ lim →
    ∃ d st', restrict lim f point st = (Ok d, st') ∧ known st' d ∧
      ∀ e, eval (nodes st') (node_of d) e =
           eval (nodes st) (node_of f) (assign (nodes st) point e).
Proof.
  intros Hr Hf Hpt. pose proof (reachable_wf st Hr) as Hwf.
  destruct (known_denotes st f Hwf Hf) as (tf & Htf & _).
  exists (depth tf + 1). intros lim Hlim.
  destruct (restrict_run lim st f point tf Hwf Hf Htf Hpt)
    as (d & st' & t & E & Hwf' & _ & _ & Hd & Ht & _ & Hsem); [lia|].
  exists d, st'. split_and!; try done.
  intros e. rewrite (eval_interp _ _ t), (eval_interp _ _ tf);
    [apply Hsem|apply (ws_nodes _ Hwf)|done|apply (ws_nodes _ Hwf')|done].
Qed.

Lemma restrict_fixes_variables_witness :
  reachable demo_f ∧ known demo_f diagram_f ∧
  ∃ N, ∀ lim, N ≤ lim →
    ∃ d st', restrict lim diagram_f [(var_a, PyInt 1); (var_b, PyBool false)] demo_f
               = (Ok d, st') ∧ known st' d.
Proof.
  assert (known demo_f var_a) as Ha by (by vm_compute).
  assert (known demo_f var_b) as Hb by (by vm_compute).
  split; [apply reachable_demo_f|]. split; [apply known_diagram_f|].
  destruct (restrict_fixes_variables demo_f diagram_f
              [(var_a, PyInt 1); (var_b, PyBool false)]
              reachable_demo_f known_diagram_f) as [N HN].
  - intros x val Hin. apply elem_of_cons in Hin as [Hin|Hin].
    + injection Hin as -> ->. split; [exact Ha|]. split; [exact I|]. by exists true.
    + apply list_elem_of_singleton in Hin. injection Hin as -> ->.
      split; [exact Hb|]. split; [exact I|]. by exists false.
  - exists N. intros lim Hlim. destruct (HN lim Hlim) as (d & st' & H1 & H2 & _).
    exists d, st'. split; [exact H1|exact H2].
Defined.

(** X14. [restrict] on a variable the Boolean function of [f] does not
    depend on returns the diagram [f] itself, whatever value [box] accepts
    the point gives the variable, a diagram that is not a constant
    included; so does [restrict] on the empty point. *)
Theorem restrict_outside_support st f x val :
  reachable st → known st f → known st x →
  pv_known st val → is_Some (boxed val) →
  ¬ depends_on (nodes st) (node_of f) (key_root (nodes st) x) →
  ∃ N, ∀ lim, N ≤ lim →
    (∃ st', restrict lim f [(x, val)] st = (Ok f, st')) ∧
    (∃ st', restrict lim f [] st = (Ok f, st')).
Proof.
  intros Hr Hf Hx Hval [g Hg] Hindep. pose proof (reachable_wf st Hr) as Hwf.
  pose proof (ws_nodes st Hwf) as Hwfn.
  destruct (known_denotes st f Hwf Hf) as (tf & Htf & Hrob).
  destruct (lookup_ref _ _ (known_lt st x Hwf Hx)) as [o Ho].
  assert (key_root (nodes st) x = root o) as Hkey by (unfold key_root; by rewrite Ho).
  rewrite Hkey in Hindep.
  assert (root o ∉ tvars tf) as Hnotin.
  { intros Hin. apply Hindep. by apply (depends_on_tvars _ _ tf). }
  exists (depth tf + 1). intros lim Hlim.
  assert (∀ point np, point_known st point → npoint_pure (nodes st) point ∅ = Some np →
            (∀ v, v ∈ tvars tf → np !! v = None) →
            ∃ st', restrict lim f point st = (Ok f, st')) as Hgen.
  { intros point np Hpk Hnp Hfresh.
    assert (trestrict (pt_of np) tf = tf) as Hfix.
    { apply trestrict_fresh; [by destruct Hrob|].
      intros v Hv. unfold pt_of. by rewrite (Hfresh v Hv). }
    pose proof (restrict_d_spec lim st f point np tf Hwf Hpk Hnp Htf) as (Hwf' & Hle & Hres).
    destruct (restrict lim f point st) as [[d|e] st'] eqn:E; simpl in Hwf', Hle, Hres.
    2:{ exfalso. destruct Hres as [[_ ?]|[_ (v & w & Hin & Hv & _)]]; [lia|].
        rewrite (Hfresh v Hin) in Hv. done. }
    destruct Hres as (Hd & Hext & _ & _ & Ht). rewrite Hfix in Ht.
    exists st'. f_equal. f_equal.
    apply (known_inj st'); [done|by apply (known_le st)|].
    eapply denotes_inj; [apply (ws_nodes st' Hwf')|done|by eapply denotes_extends]. }
  split.
  - apply (Hgen _ {[ root o := node_of g ]}).
    + by apply point_known_single.
    + by apply npoint_pure_single.
    + intros v Hv. apply lookup_singleton_ne. by intros <-.
  - apply (Hgen _ ∅); [by intros ? ? ?%elem_of_nil|done|done].
Qed.

Lemma restrict_outside_support_witness :
  reachable demo_c ∧ known demo_c var_a ∧ known demo_c var_b ∧
  ∃ N, ∀ lim, N ≤ lim →
    ∃ st', restrict lim var_a [(var_b, PyObj var_c)] demo_c = (Ok var_a, st').
Proof.
  assert (reachable demo_c) as Hr.
  { apply reachable_step; [|exact I]. apply reachable_step; [|exact I].
    apply reachable_demo_a. }
  assert (known demo_c var_a) as Ha by (by vm_compute).
  assert (known demo_c var_b) as Hb by (by vm_compute).
  assert (known demo_c var_c) as Hc by (by vm_compute).
  split; [exact Hr|]. split; [exact Ha|]. split; [exact Hb|].
  destruct (restrict_outside_support demo_c var_a var_b (PyObj var_c) Hr Ha Hb Hc
              (ex_intro _ var_c eq_refl)) as [N HN].
  - intros [e He]. apply He. vm_compute. reflexivity.
  - exists N. intros lim Hlim. destruct (HN lim Hlim) as [H _]. exact H.
Defined.

(** *** A value that is not a constant *)

(** The nodes a cache of [_restrict] holds denote trees without [x]. *)
Definition xfree (s : store) (x : Z) (cache : gmap ref ref) : Prop :=
  ∀ a r, cache !! a = Some r → ∃ t, denotes s a t ∧ x ∉ tvars t.

Lemma xfree_grows s s' x cache : grows s s' → xfree s x cache → xfree s' x cache.
Proof.
  intros Hs Hc a r Ha. destruct (Hc a r Ha) as (t & ? & ?).
  exists t. split; [by eapply denotes_grows|done].
Qed.

Lemma obddnode_grows v l h s :
  ∃ r s', _obddnode v l h s = (Ok r, s') ∧ grows s s'.
Proof.
  unfold _obddnode.
  destruct (decide (l = h)); [eexists _, _; split; [done|by unfold grows]|].
  destruct (_NODES s !! _); [eexists _, _; split; [done|by unfold grows]|].
  eexists _, _. split; [done|]. unfold grows. simpl. by apply prefix_app_r.
Qed.

Lemma bind_bind_eq {S A B C} (m : M S A) (k1 : A → M S B) (k2 : B → M S C) s a s' :
  m s = (Ok a, s') → bind (bind m k1) k2 s = bind (k1 a) k2 s'.
Proof. intros H. unfold bind. by rewrite H. Qed.

Lemma bind_bind_raise {S A B C} (m : M S A) (k1 : A → M S B) (k2 : B → M S C) s e s' :
  m s = (Raise e, s') → bind (bind m k1) k2 s = (Raise e, s').
Proof. intros H. unfold bind. by rewrite H. Qed.

(** [_restrict] on a point that gives the single variable [x] a node that
    is not a terminal: [KeyError] exactly when [x] labels a node of the
    diagram. *)
Lemma restrict_raises (x : Z) (val : ref) lim :
  val ≠ BDDNODEZERO → val ≠ BDDNODEONE →
  ∀ s a t cache, denotes s a t → depth t < lim → xfree s x (default ∅ cache) →
  ∃ s', grows s s' ∧
    if decide (x ∈ tvars t)
    then _restrict lim a {[ x := val ]} cache s = (Raise KeyError, s')
    else ∃ r c', _restrict lim a {[ x := val ]} cache s = (Ok (r, c'), s') ∧
                 xfree s' x c'.
Proof.
  intros Hv0 Hv1. induction lim as [|lim IH]; intros s a t cache Ha Hlim Hc; [lia|].
  destruct Ha as [| |a v l h tl th Hz Ho Hobj Hl Hh].
  - exists s. split; [by unfold grows|]. rewrite decide_False by (by intros ?%elem_of_nil).
    eexists _, _. split; [|exact Hc]. cbn [_restrict]. by rewrite decide_True by auto.
  - exists s. split; [by unfold grows|]. rewrite decide_False by (by intros ?%elem_of_nil).
    eexists _, _. split; [|exact Hc]. cbn [_restrict]. by rewrite decide_True by auto.
  - simpl in Hlim. cbn [_restrict]. rewrite decide_False by (intros [?|?]; done).
    set (cache0 := default ∅ cache) in *.
    destruct (cache0 !! a) as [r|] eqn:Hca.
    { destruct (Hc a r Hca) as (t' & Ht' & Hx').
      assert (t' = Node v tl th) as -> by (eapply denotes_fun; [done|by econstructor]).
      exists s. split; [by unfold grows|]. rewrite decide_False by done.
      by eexists _, _. }
    rewrite (bind_getobj _ _ _ _ Hobj). cbn [root lo hi].
    destruct (decide (v = x)) as [->|Hne].
    { exists s. split; [by unfold grows|]. rewrite decide_True by (simpl; set_solver).
      rewrite lookup_singleton_eq. cbn beta iota.
      rewrite !decide_False by done. reflexivity. }
    rewrite lookup_singleton_ne by done. cbn beta iota.
    rewrite (bind_bind_eq _ _ _ s l s eq_refl).
    destruct (IH s l tl (Some cache0) Hl ltac:(lia) Hc) as (s1 & Hg1 & H1).
    destruct (decide (x ∈ tvars tl)) as [Hxl|Hxl].
    { exists s1. split; [done|]. rewrite decide_True by (simpl; set_solver).
      by rewrite (bind_bind_raise _ _ _ _ _ _ H1). }
    destruct H1 as (nl & c1 & E1 & Hc1).
    rewrite (bind_bind_eq _ _ _ _ _ _ E1). cbn beta iota.
    rewrite (bind_bind_eq _ _ _ s1 h s1 eq_refl).
    destruct (IH s1 h th (Some c1) (denotes_grows _ _ _ _ Hg1 Hh) ltac:(lia) Hc1)
      as (s2 & Hg2 & H2).
    destruct (decide (x ∈ tvars th)) as [Hxh|Hxh].
    { exists s2. split; [unfold grows in *; by etrans|].
      rewrite decide_True by (simpl; set_solver).
      by rewrite (bind_bind_raise _ _ _ _ _ _ H2). }
    destruct H2 as (nh & c2 & E2 & Hc2).
    rewrite (bind_bind_eq _ _ _ _ _ _ E2). cbn beta iota.
    destruct (obddnode_grows v nl nh s2) as (r & s3 & E3 & Hg3).
    rewrite (bind_bind_eq _ _ _ _ _ _ E3).
    assert (grows s s3) as Hg by (unfold grows in *; etrans; [|done]; by etrans).
    exists s3. split; [done|].
    rewrite decide_False by (simpl; set_solver).
    eexists r, _. split; [reflexivity|].
    intros a' r' Hl'. apply lookup_insert_Some in Hl' as [[<- <-]|[_ Hl']].
    + exists (Node v tl th). split; [|simpl; set_solver].
      eapply denotes_grows; [exact Hg|]. by econstructor.
    + by apply (xfree_grows s2 s3 x c2 Hg3 Hc2 a' r').
Qed.

(** X15. [restrict] with a point that gives a variable the Boolean function
    of [f] depends on a diagram that is not a constant raises [KeyError],
    given enough recursion depth. *)
Theorem restrict_rejects_diagram_value st f x g :
  reachable st → known st f → known st x → known st g →
  is_zero g = false → is_one g = false →
  depends_on (nodes st) (node_of f) (key_root (nodes st) x) →
  ∃ N, ∀ lim, N ≤ lim →
    ∃ st', restrict lim f [(x, PyObj g)] st = (Raise KeyError, st').
Proof.
  intros Hr Hf Hx Hg Hgz Hgo Hdep. pose proof (reachable_wf st Hr) as Hwf.
  pose proof (ws_nodes st Hwf) as Hwfn.
  destruct (known_denotes st f Hwf Hf) as (tf & Htf & Hrob).
  destruct (lookup_ref _ _ (known_lt st x Hwf Hx)) as [o Ho].
  assert (key_root (nodes st) x = root o) as Hkey by (unfold key_root; by rewrite Ho).
  rewrite Hkey in Hdep. apply (depends_on_tvars _ _ tf _ Hwfn Htf) in Hdep.
  exists (depth tf + 1). intros lim Hlim.
  unfold is_zero in Hgz. unfold is_one in Hgo.
  apply bool_decide_eq_false in Hgz, Hgo.
  destruct (restrict_raises (root o) (node_of g) lim Hgz Hgo (nodes st) (node_of f) tf None
              Htf ltac:(lia)) as (s' & _ & Hres).
  { intros a r Ha. simpl in Ha. by rewrite lookup_empty in Ha. }
  rewrite decide_True in Hres by done.
  unfold restrict. unfold bind at 1.
  rewrite (npoint_of_eq st [(x, PyObj g)] ∅ Hwf (point_known_single st x (PyObj g) Hx Hg)).
  rewrite (npoint_pure_single _ x (PyObj g) o g Ho eq_refl).
  unfold bind, on_nodes. rewrite Hres. by eexists.
Qed.

Lemma restrict_rejects_diagram_value_witness :
  reachable demo_f ∧ known demo_f diagram_f ∧
  ∃ N, ∀ lim, N ≤ lim →
    ∃ st', restrict lim diagram_f [(var_a, PyObj var_b)] demo_f = (Raise KeyError, st').
Proof.
  assert (known demo_f var_a) as Ha by (by vm_compute).
  assert (known demo_f var_b) as Hb by (by vm_compute).
  split; [apply reachable_demo_f|]. split; [apply known_diagram_f|].
  apply (restrict_rejects_diagram_value demo_f diagram_f var_a var_b
           reachable_demo_f known_diagram_f Ha Hb eq_refl eq_refl).
  exists (λ v, bool_decide (v = 2%Z)). by vm_compute.
Defined.

(** *** Shannon expansion *)

(** [x & f.restrict({x: 1}) | ~x & f.restrict({x: 0})], and [f]. *)
Definition shannon_expansion (lim : nat) (f x : obdd) : M state (obdd * obdd) :=
  f1 <- restrict lim f [(x, PyInt 1)];
  f0 <- restrict lim f [(x, PyInt 0)];
  a <- __and__ lim x (PyObj f1);
  nx <- __invert__ lim x;
  b <- __and__ lim nx (PyObj f0);
  r <- __or__ lim a (PyObj b);
  ret (r, f).

Lemma single_const st x (b : bool) :
  known st x →
  ∀ y val, (y, val) ∈ [(x, PyInt (Z.b2z b))] →
    known st y ∧ pv_known st val ∧ is_Some (const_of val).
Proof.
  intros Hx y val Hin. apply list_elem_of_singleton in Hin. injection Hin as -> ->.
  split; [done|]. split; [done|]. exists b. by destruct b.
Qed.

Lemma assign_single s x (b : bool) u e v :
  wf s → denotes s (node_of x) (Node u (Leaf false) (Leaf true)) →
  assign s [(x, PyInt (Z.b2z b))] e v = upd u b e v.
Proof.
  intros Hwf Hx. destruct (denotes_root s _ _ Hwf Hx) as (o & Ho & Hroot).
  unfold assign, key_root. simpl. rewrite Ho, Hroot. simpl. by destruct b.
Qed.

(** X16. For a diagram [f] and a variable diagram [x] the caller holds,
    [x & f.restrict({x: 1}) | ~x & f.restrict({x: 0})] is, given enough
    recursion depth, the diagram object [f]. *)
Theorem shannon_expansion_is_identity st f x u :
  reachable st → known st f → _VARS st !! u = Some x →
  ∃ N, ∀ lim, N ≤ lim → agree (shannon_expansion lim f x) st.
Proof.
  intros Hr Hf Hxu. pose proof (reachable_wf st Hr) as Hwf.
  destruct (known_denotes st f Hwf Hf) as (tf & Htf & _).
  destruct (ws_vars st Hwf u x Hxu) as (bvar & n & Hxeq & Hu & Hpos & Htx & Hkx).
  assert (known st x) as Hx by (subst x; exact Hkx).
  assert (denotes (nodes st) (node_of x) (Node u (Leaf false) (Leaf true))) as Hdx
    by (by subst x).
  clear Hxeq Hkx Htx. set (tx := Node u (Leaf false) (Leaf true)) in *.
  exists (2 * depth tf + 6). intros lim Hlim. unfold agree, shannon_expansion.
  destruct (restrict_run lim st f [(x, PyInt 1)] tf Hwf Hf Htf (single_const st x true Hx))
    as (f1 & st1 & t1 & E1 & Hwf1 & Hle1 & Hx1 & Hk1 & Ht1 & Hd1 & Hs1); [lia|].
  rewrite (bind_eq _ _ _ _ _ E1).
  assert (∀ e, interp t1 e = interp tf (upd u true e)) as Hs1'.
  { intros e. rewrite Hs1. apply interp_ext. intros v _.
    apply (assign_single _ x true); [apply (ws_nodes _ Hwf)|done]. }
  clear Hs1. sfwd.
  destruct (restrict_run lim st1 f [(x, PyInt 0)] tf Hwf1 Hf Htf (single_const st1 x false Hx))
    as (f0 & st2 & t0 & E2 & Hwf2 & Hle2 & Hx2 & Hk2 & Ht2 & Hd2 & Hs2); [lia|].
  rewrite (bind_eq _ _ _ _ _ E2).
  assert (∀ e, interp t0 e = interp tf (upd u false e)) as Hs2'.
  { intros e. rewrite Hs2. apply interp_ext. intros v _.
    apply (assign_single _ x false); [apply (ws_nodes _ Hwf1)|done]. }
  clear Hs2. sfwd.
  destruct (run_of_dpost _ _ _ _ _ _
              (and_spec lim st2 x (PyObj f1) f1 tx t1 Hwf2 eq_refl Hdx Ht1))
    as (a & st3 & ta & E3 & Hwf3 & Hle3 & Hx3 & Hk3 & Ht3 & Hs3 & Hd3); [simpl; lia|].
  rewrite (bind_eq _ _ _ _ _ E3). sfwd.
  destruct (run_of_dpost _ _ _ _ _ _ (invert_spec lim st3 x tx Hwf3 Hdx))
    as (nx & st4 & tnx & E4 & Hwf4 & Hle4 & Hx4 & Hk4 & Ht4 & Hs4 & Hd4); [simpl; lia|].
  rewrite (bind_eq _ _ _ _ _ E4). sfwd.
  destruct (run_of_dpost _ _ _ _ _ _
              (and_spec lim st4 nx (PyObj f0) f0 tnx t0 Hwf4 eq_refl Ht4 Ht2))
    as (b & st5 & tb & E5 & Hwf5 & Hle5 & Hx5 & Hk5 & Ht5 & Hs5 & Hd5);
    [simpl in *; lia|].
  rewrite (bind_eq _ _ _ _ _ E5). sfwd.
  destruct (run_of_dpost _ _ _ _ _ _
              (or_spec lim st5 a (PyObj b) b ta tb Hwf5 eq_refl Ht3 Ht5))
    as (r & st6 & tr & E6 & Hwf6 & Hle6 & Hx6 & Hk6 & Ht6 & Hs6 & Hd6);
    [simpl in *; lia|].
  rewrite (bind_eq _ _ _ _ _ E6). sfwd.
  assert (r = f) as ->.
  { apply (same_function_same_diagram st6 _ _ tr tf); try done.
    intros e. rewrite Hs6, Hs3, Hs5, Hs4, Hs1', Hs2'. simpl.
    assert (interp tf (upd u (e u) e) = interp tf e) as Hsame.
    { apply interp_ext. intros v _. unfold upd. by case_decide; subst. }
    destruct (e u); simpl; rewrite <- Hsame; by rewrite ?orb_false_r. }
  by exists f, st6.
Qed.

Lemma shannon_expansion_is_identity_witness :
  reachable demo_f ∧ known demo_f diagram_f ∧ _VARS demo_f !! 1%Z = Some var_a ∧
  ∃ N, ∀ lim, N ≤ lim → agree (shannon_expansion lim diagram_f var_a) demo_f.
Proof.
  assert (_VARS demo_f !! 1%Z = Some var_a) as Ha by (by vm_compute).
  split; [apply reachable_demo_f|]. split; [apply known_diagram_f|]. split; [exact Ha|].
  apply (shannon_expansion_is_identity demo_f diagram_f var_a 1
           reachable_demo_f known_diagram_f Ha).
Defined.

(** ** Paths *)

(** [_find_path(start, end, path=tuple())] *)
Fixpoint _find_path (lim : nat) (start end_ : ref) (path : list ref)
    : M store (option (list ref)) :=
  match lim with
  | O => raise RecursionError
  | S lim =>
      let path := path ++ [start] in
      if decide (start = end_) then ret (Some path)
      else
        o <- getobj start;
        ret_ <-
          match lo o with
          | Some l => _find_path lim l end_ path
          | None => ret None
          end;
        match ret_, hi o with
        | None, Some h => _find_path lim h end_ path
        | _, _ => ret ret_
        end
  end.

(** [_iter_all_paths(start, end, rand=False, path=tuple())]: the paths the
    generator yields, in order, when [rand] is false. *)
Fixpoint _iter_all_paths (lim : nat) (start end_ : ref) (path : list ref)
    : M store (list (list ref)) :=
  match lim with
  | O => raise RecursionError
  | S lim =>
      let path := path ++ [start] in
      if decide (start = end_) then ret [path]
      else
        o <- getobj start;
        ys1 <-
          match lo o with
          | Some l => _iter_all_paths lim l end_ path
          | None => ret []
          end;
        ys2 <-
          match hi o with
          | Some h => _iter_all_paths lim h end_ path
          | None => ret []
          end;
        ret (ys1 ++ ys2)
  end.

(** [is_path s p a b]: [p] lists the nodes of a walk from [a] to [b] along
    [lo] and [hi] links. *)
Inductive is_path (s : store) : list ref → ref → ref → Prop :=
  | path_end a : is_path s [a] a a
  | path_step (a : ref) o (c b : ref) p :
      objs s !! a = Some o → lo o = Some c ∨ hi o = Some c →
      is_path s p c b → is_path s (a :: p) a b.

Lemma is_path_reach s p a b : is_path s p a b → reach s a b.
Proof. induction 1; [constructor|]. by eapply reach_child. Qed.

Lemma reach_is_path s a b : reach s a b → ∃ p, is_path s p a b.
Proof.
  induction 1 as [a|a o c b Ha Hc _ [p Hp]]; [exists [a]; constructor|].
  exists (a :: p). by eapply path_step.
Qed.

Lemma is_path_head s p a b : is_path s p a b → ∃ q, p = a :: q.
Proof. destruct 1; eauto. Qed.

Lemma is_path_self s p a : wf s → is_path s p a a → p = [a].
Proof.
  intros Hwf. inversion 1 as [|? o c ? q Ha Hc Hq]; subst; [done|].
  apply is_path_reach, (reach_le s _ _ Hwf) in Hq.
  pose proof (wf_lower s Hwf a o c Ha Hc). lia.
Qed.

Lemma is_path_leaf s p (a b : ref) v :
  objs s !! a = Some (mkOBDDNode v None None) → is_path s p a b → p = [a] ∧ b = a.
Proof.
  intros Ha. inversion 1 as [|? o c ? q Ha' Hc Hq]; subst; [done|].
  pose proof (eq_trans (eq_sym Ha') Ha) as Heq. injection Heq as ->.
  simpl in Hc. by destruct Hc.
Qed.

Lemma is_path_node s p (a : ref) v (l h b : ref) :
  wf s → objs s !! a = Some (mkOBDDNode v (Some l) (Some h)) → a ≠ b →
  is_path s p a b ↔ ∃ q, p = a :: q ∧ (is_path s q l b ∨ is_path s q h b).
Proof.
  intros Hwf Ha Hne. split.
  - inversion 1 as [|? o c ? q Ha' Hc Hq]; subst; [done|].
    pose proof (eq_trans (eq_sym Ha') Ha) as Heq. injection Heq as ->.
    exists q. split; [done|]. simpl in Hc. destruct Hc as [[= <-]|[= <-]]; auto.
  - intros (q & -> & [Hq|Hq]).
    + apply (path_step s a _ l b q Ha); [by left|done].
    + apply (path_step s a _ h b q Ha); [by right|done].
Qed.

(** The two searches on a well-formed store. *)
Lemma paths_spec (b : ref) lim : ∀ s a t path,
  wf s → denotes s a t → depth t < lim →
  ∃ qs, _iter_all_paths lim a b path s = (Ok ((path ++.) <$> qs), s) ∧
        _find_path lim a b path s = (Ok (head ((path ++.) <$> qs)), s) ∧
        NoDup qs ∧ ∀ q, q ∈ qs ↔ is_path s q a b.
Proof.
  induction lim as [|lim IH]; intros s a t path Hwf Ha Hlim; [lia|].
  cbn [_iter_all_paths _find_path].
  destruct (decide (a = b)) as [->|Hne].
  { exists [[b]]. split_and!; try done.
    - apply NoDup_singleton.
    - intros q. rewrite list_elem_of_singleton. split; [intros ->; constructor|].
      by apply is_path_self. }
  assert (∀ v, objs s !! a = Some (mkOBDDNode v None None) →
            ∃ qs, bind (getobj a) (λ o,
                    ys1 <- match lo o with
                           | Some l => _iter_all_paths lim l b (path ++ [a])
                           | None => ret []
                           end;
                    ys2 <- match hi o with
                           | Some h => _iter_all_paths lim h b (path ++ [a])
                           | None => ret []
                           end;
                    ret (ys1 ++ ys2)) s = (Ok ((path ++.) <$> qs), s) ∧
                  bind (getobj a) (λ o,
                    ret_ <- match lo o with
                            | Some l => _find_path lim l b (path ++ [a])
                            | None => ret None
                            end;
                    match ret_, hi o with
                    | None, Some h => _find_path lim h b (path ++ [a])
                    | _, _ => ret ret_
                    end) s = (Ok (head ((path ++.) <$> qs)), s) ∧
                  NoDup qs ∧ ∀ q, q ∈ qs ↔ is_path s q a b) as Hleaf.
  { intros v Hobj. exists []. rewrite !(bind_getobj _ _ _ _ Hobj). split_and!; try done.
    - constructor.
    - intros q. split; [by intros ?%elem_of_nil|].
      intros Hq. by destruct (is_path_leaf s q a b v Hobj Hq) as [_ ->]. }
  destruct Ha as [| |a v l h tl th Hz Ho Hobj Hl Hh].
  - apply (Hleaf _ (wf_zero s Hwf)).
  - apply (Hleaf _ (wf_one s Hwf)).
  - clear Hleaf. simpl in Hlim. rewrite !(bind_getobj _ _ _ _ Hobj). cbn [lo hi].
    destruct (IH s l tl (path ++ [a]) Hwf Hl ltac:(lia)) as (qs1 & E1 & F1 & Hnd1 & Hq1).
    destruct (IH s h th (path ++ [a]) Hwf Hh ltac:(lia)) as (qs2 & E2 & F2 & Hnd2 & Hq2).
    assert (l ≠ h) as Hlh.
    { destruct (wf_reduced_ordered s Hwf a _ Hobj Hz Ho) as (l' & h' & Hl' & Hh' & ? & _).
      simpl in Hl', Hh'. congruence. }
    assert (∀ qs : list (list ref),
              ((path ++ [a]) ++.) <$> qs = (path ++.) <$> ((a ::.) <$> qs)) as Hshift.
    { intros qs. rewrite <- list_fmap_compose. apply list_fmap_ext.
      intros _ q _. simpl. by rewrite <- app_assoc. }
    exists ((a ::.) <$> (qs1 ++ qs2)). split_and!.
    + rewrite (bind_eq _ _ _ _ _ E1), (bind_eq _ _ _ _ _ E2). unfold ret.
      by rewrite <- Hshift, fmap_app.
    + rewrite (bind_eq _ _ _ _ _ F1). rewrite <- Hshift, fmap_app.
      destruct qs1 as [|q1 qs1]; simpl; [exact F2|done].
    + apply NoDup_fmap_2; [by intros ? ? [= ->]|].
      apply NoDup_app. split_and!; [done| |done].
      intros q H1 H2. apply Hq1 in H1. apply Hq2 in H2.
      destruct (is_path_head _ _ _ _ H1) as [q1 ->].
      destruct (is_path_head _ _ _ _ H2) as [q2 [= ? _]]. done.
    + intros q. rewrite (is_path_node s q a v l h b Hwf Hobj Hne), list_elem_of_fmap.
      split.
      * intros (q' & -> & Hin). exists q'. split; [done|].
        apply elem_of_app in Hin as [Hin|Hin]; [left; by apply Hq1|right; by apply Hq2].
      * intros (q' & -> & Hq'). exists q'. split; [done|].
        apply elem_of_app. destruct Hq' as [?|?]; [left; by apply Hq1|right; by apply Hq2].
Qed.

(** X17. On the node store of a reachable state, given enough recursion
    depth, [_find_path(start, end)] returns a path exactly when [end] can be
    reached from [start] along [lo] and [hi] links, and [None] otherwise;
    the path it returns starts at [start], follows links and ends at [end].
    The store is left as it was. *)
Theorem find_path_spec st (a b : ref) :
  reachable st → a < length (objs (nodes st)) →
  ∃ N, ∀ lim, N ≤ lim →
    ∃ r, _find_path lim a b [] (nodes st) = (Ok r, nodes st) ∧
      (∀ p, r = Some p → is_path (nodes st) p a b) ∧
      (r = None ↔ ¬ reach (nodes st) a b).
Proof.
  intros Hr Ha. pose proof (ws_nodes st (reachable_wf st Hr)) as Hwf.
  destruct (wf_den _ Hwf a Ha) as (t & Ht & _).
  exists (depth t + 1). intros lim Hlim.
  destruct (paths_spec b lim (nodes st) a t [] Hwf Ht ltac:(lia))
    as (qs & _ & F & _ & Hqs).
  assert ((([] : list ref) ++.) <$> qs = qs) as Hid.
  { etrans; [|apply list_fmap_id]. by apply list_fmap_ext. }
  rewrite Hid in F. exists (head qs). split_and!; [done| |].
  - intros p Hp. apply Hqs. destruct qs as [|q qs]; [done|].
    injection Hp as ->. by left.
  - split.
    + intros Hnone Hreach. destruct (reach_is_path _ _ _ Hreach) as [p Hp].
      apply Hqs in Hp. destruct qs; [by apply elem_of_nil in Hp|done].
    + intros Hno. destruct qs as [|q qs]; [done|]. exfalso. apply Hno.
      apply (is_path_reach _ q), Hqs. by left.
Qed.

Lemma find_path_spec_witness :
  reachable demo_f ∧
  ∃ N, ∀ lim, N ≤ lim →
    ∃ r, _find_path lim 8 1 [] (nodes demo_f) = (Ok r, nodes demo_f).
Proof.
  split; [apply reachable_demo_f|].
  destruct (find_path_spec demo_f 8 1 reachable_demo_f) as [N HN].
  - vm_compute. lia.
  - exists N. intros lim Hlim. destruct (HN lim Hlim) as (r & H & _).
    exists r. exact H.
Defined.

(** X18. On the node store of a reachable state, given enough recursion
    depth, [_iter_all_paths(start, end)] without shuffling yields every
    path from [start] to [end] along [lo] and [hi] links exactly once, and
    nothing else; [_find_path] returns the first of them. *)
Theorem iter_all_paths_spec st (a b : ref) :
  reachable st → a < length (objs (nodes st)) →
  ∃ N, ∀ lim, N ≤ lim →
    ∃ ps, _iter_all_paths lim a b [] (nodes st) = (Ok ps, nodes st) ∧
      NoDup ps ∧
      (∀ p, p ∈ ps ↔ is_path (nodes st) p a b) ∧
      _find_path lim a b [] (nodes st) = (Ok (head ps), nodes st).
Proof.
  intros Hr Ha. pose proof (ws_nodes st (reachable_wf st Hr)) as Hwf.
  destruct (wf_den _ Hwf a Ha) as (t & Ht & _).
  exists (depth t + 1). intros lim Hlim.
  destruct (paths_spec b lim (nodes st) a t [] Hwf Ht ltac:(lia))
    as (qs & E & F & Hnd & Hqs).
  assert ((([] : list ref) ++.) <$> qs = qs) as Hid.
  { etrans; [|apply list_fmap_id]. by apply list_fmap_ext. }
  rewrite Hid in E, F. by exists qs.
Qed.

Lemma iter_all_paths_spec_witness :
  reachable demo_f ∧
  ∃ N, ∀ lim, N ≤ lim →
    ∃ ps, _iter_all_paths lim 8 1 [] (nodes demo_f) = (Ok ps, nodes demo_f) ∧ NoDup ps.
Proof.
  split; [apply reachable_demo_f|].
  destruct (iter_all_paths_spec demo_f 8 1 reachable_demo_f) as [N HN].
  - vm_compute. lia.
  - exists N. intros lim Hlim. destruct (HN lim Hlim) as (ps & H1 & H2 & _).
    exists ps. split; [exact H1|exact H2].
Defined.

(** ** The order of variables *)

(** [<] on tuples, given [<] on their items: the first items that differ
    decide, and a tuple is below every proper extension of it. *)
Fixpoint tuple_lt {A} `{EqDecision A} (lt : A → A → bool) (l1 l2 : list A) : bool :=
  match l1, l2 with
  | _, [] => false
  | [], _ :: _ => true
  | x :: l1, y :: l2 => if decide (x = y) then tuple_lt lt l1 l2 else lt x y
  end.

(** [<] on strings is [<] on the sequences of their characters; a string is
    held as its UTF-8 bytes, whose order is that of the code points. *)
Definition char_lt (a b : Ascii.ascii) : bool :=
  (Ascii.N_of_ascii a <? Ascii.N_of_ascii b)%N.

Definition str_lt (s1 s2 : string) : bool :=
  tuple_lt char_lt (String.list_ascii_of_string s1) (String.list_ascii_of_string s2).

(** [Variable.__lt__(self, other)] *)
Definition Variable__lt__ (self other : BoolVariable) : bool :=
  if decide (names self = names other)
  then tuple_lt Z.ltb (indices self) (indices other)
  else tuple_lt str_lt (names self) (names other).

Section tuple_order.
Context {A : Type} `{EqDecision A} (lt : A → A → bool).
Context (lt_irrefl : ∀ x, lt x x = false).
Context (lt_trans : ∀ x y z, lt x y = true → lt y z = true → lt x z = true).
Context (lt_total : ∀ x y, x ≠ y → lt x y = true ∨ lt y x = true).

Lemma tuple_lt_irrefl l : tuple_lt lt l l = false.
Proof. induction l as [|x l IH]; simpl; [done|]. by rewrite decide_True. Qed.

Lemma tuple_lt_trans l1 : ∀ l2 l3,
  tuple_lt lt l1 l2 = true → tuple_lt lt l2 l3 = true → tuple_lt lt l1 l3 = true.
Proof.
  induction l1 as [|x l1 IH]; intros [|y l2] [|z l3]; simpl; try done.
  destruct (decide (x = y)) as [->|Hxy]; destruct (decide (y = z)) as [->|Hyz];
    rewrite ?decide_True by done; rewrite ?decide_False by done; try done.
  - apply IH.
  - intros H1 H2. destruct (decide (x = z)) as [->|Hxz].
    + pose proof (lt_trans _ _ _ H1 H2) as H. by rewrite lt_irrefl in H.
    + by eapply lt_trans.
Qed.

Lemma tuple_lt_total l1 : ∀ l2,
  l1 ≠ l2 → tuple_lt lt l1 l2 = true ∨ tuple_lt lt l2 l1 = true.
Proof.
  induction l1 as [|x l1 IH]; intros [|y l2] Hne; simpl; [done|by left|by right|].
  destruct (decide (x = y)) as [->|Hxy].
  - rewrite decide_True by done. apply IH. congruence.
  - rewrite (decide_False (P := y = x)) by done. by apply lt_total.
Qed.
End tuple_order.

Lemma char_lt_irrefl a : char_lt a a = false.
Proof. unfold char_lt. apply N.ltb_irrefl. Qed.

Lemma char_lt_trans a b c : char_lt a b = true → char_lt b c = true → char_lt a c = true.
Proof. unfold char_lt. rewrite !N.ltb_lt. lia. Qed.

Lemma char_lt_total a b : a ≠ b → char_lt a b = true ∨ char_lt b a = true.
Proof.
  intros Hne. unfold char_lt. rewrite !N.ltb_lt.
  destruct (N.lt_total (Ascii.N_of_ascii a) (Ascii.N_of_ascii b)) as [?|[Heq|?]]; auto.
  destruct Hne. rewrite <- (Ascii.ascii_N_embedding a), <- (Ascii.ascii_N_embedding b).
  by rewrite Heq.
Qed.

Lemma str_lt_irrefl s : str_lt s s = false.
Proof. unfold str_lt. apply (tuple_lt_irrefl char_lt). Qed.

Lemma str_lt_trans s1 s2 s3 :
  str_lt s1 s2 = true → str_lt s2 s3 = true → str_lt s1 s3 = true.
Proof.
  unfold str_lt. apply (tuple_lt_trans char_lt char_lt_irrefl char_lt_trans).
Qed.

Lemma str_lt_total s1 s2 : s1 ≠ s2 → str_lt s1 s2 = true ∨ str_lt s2 s1 = true.
Proof.
  intros Hne. unfold str_lt. apply (tuple_lt_total char_lt char_lt_total).
  intros Heq. apply Hne.
  rewrite <- (String.string_of_list_ascii_of_string s1),
    <- (String.string_of_list_ascii_of_string s2). by rewrite Heq.
Qed.

Lemma Z_ltb_trans (x y z : Z) : (x <? y)%Z = true → (y <? z)%Z = true → (x <? z)%Z = true.
Proof. rewrite !Z.ltb_lt. lia. Qed.

Lemma Z_ltb_total (x y : Z) : x ≠ y → (x <? y)%Z = true ∨ (y <? x)%Z = true.
Proof. rewrite !Z.ltb_lt. lia. Qed.

(** X19. [Variable.__lt__] is a strict total order on variable identities:
    no variable is below itself or below a variable with the same names and
    indices; it is transitive; and of two variables with different
    identities exactly one is below the other.  It compares the names, and
    the indices when the names are equal. *)
Theorem variable_lt_strict_total_order (a b c : BoolVariable) :
  Variable__lt__ a a = false ∧
  (names a = names b → indices a = indices b → Variable__lt__ a b = false) ∧
  (Variable__lt__ a b = true → Variable__lt__ b c = true → Variable__lt__ a c = true) ∧
  (Variable__lt__ a b = true → Variable__lt__ b a = false) ∧
  ((names a, indices a) ≠ (names b, indices b) →
     Variable__lt__ a b = true ∨ Variable__lt__ b a = true) ∧
  (names a ≠ names b → Variable__lt__ a b = tuple_lt str_lt (names a) (names b)).
Proof.
  assert (∀ x y z, Variable__lt__ x y = true → Variable__lt__ y z = true →
            Variable__lt__ x z = true) as Htrans.
  { intros x y z. unfold Variable__lt__.
    destruct (decide (names x = names y)) as [Hxy|Hxy],
      (decide (names y = names z)) as [Hyz|Hyz].
    - rewrite decide_True by congruence.
      apply (tuple_lt_trans Z.ltb Z.ltb_irrefl Z_ltb_trans).
    - rewrite decide_False by congruence. rewrite Hxy. done.
    - rewrite decide_False by congruence. rewrite <- Hyz. done.
    - intros H1 H2.
      pose proof (tuple_lt_trans str_lt str_lt_irrefl str_lt_trans _ _ _ H1 H2) as H.
      destruct (decide (names x = names z)) as [Hxz|Hxz]; [|done].
      rewrite Hxz in H. by rewrite (tuple_lt_irrefl str_lt) in H. }
  assert (∀ x, Variable__lt__ x x = false) as Hirr.
  { intros x. unfold Variable__lt__. rewrite decide_True by done.
    apply (tuple_lt_irrefl Z.ltb). }
  split_and!.
  - apply Hirr.
  - intros Hn Hi. unfold Variable__lt__. rewrite decide_True by done. rewrite Hi.
    apply (tuple_lt_irrefl Z.ltb).
  - apply Htrans.
  - intros Hab. destruct (Variable__lt__ b a) eqn:Hba; [|done].
    pose proof (Htrans a b a Hab Hba) as H. by rewrite Hirr in H.
  - intros Hne. unfold Variable__lt__.
    destruct (decide (names a = names b)) as [Hn|Hn].
    + rewrite decide_True by done. apply (tuple_lt_total Z.ltb Z_ltb_total).
      intros Hi. apply Hne. by rewrite Hn, Hi.
    + rewrite decide_False by done. by apply (tuple_lt_total str_lt str_lt_total).
  - intros Hn. unfold Variable__lt__. by rewrite decide_False.
Qed.

(** ** The lock of [Variable.__init__] *)

Lemma with_block_never_waits_witness :
  ∃ c, run_schedule [false; true; true; false] (two_calls (["a"%string], [])) = Some c ∧
       (t_pc (c_first c) = AtAcquire →
        is_Some (thread_step (c_first c) (c_shared c))).
Proof.
  eexists. split; [reflexivity|].
  apply (with_block_never_waits (["a"%string], []) [false; true; true; false] _ eq_refl).
Defined.

(** ** Conversion of an expression *)

(** [_expr2obddnode(expr)] and [expr2obdd(expr)], for an expression that is
    a diagram: the class of this repository that has [is_zero], [is_one],
    [top] and [restrict]. *)
Fixpoint _expr2obddnode (lim : nat) (expr : obdd) : M state ref :=
  match lim with
  | O => raise RecursionError
  | S lim =>
      if is_zero expr then ret BDDNODEZERO
      else if is_one expr then ret BDDNODEONE
      else
        top_ <- top lim expr;
        match top_ with
        | Some (OBDDVariable bvar n) =>
            let topv := OBDDVariable bvar n in
            _ <- obddvar (PyTuple (PyStr <$> names bvar))
                         (PyTuple (PyInt <$> indices bvar));
            let root := uniqid bvar in
            e0 <- restrict lim expr [(topv, PyInt 0)];
            lo <- _expr2obddnode lim e0;
            e1 <- restrict lim expr [(topv, PyInt 1)];
            hi <- _expr2obddnode lim e1;
            on_nodes (_obddnode root lo hi)
        | _ => raise AttributeError
        end
  end.

Definition expr2obdd (lim : nat) (expr : obdd) : M state obdd :=
  n <- _expr2obddnode lim expr;
  _obdd n.

Lemma tuple_identifier_valid (ns : list string) (ix : list Z) :
  ns ≠ [] → (∀ i, i ∈ ix → (0 ≤ i)%Z) →
  ¬ invalid_identifier (PyTuple (PyStr <$> ns) : pyval obdd) (PyTuple (PyInt <$> ix)) ∧
  key_of (PyTuple (PyStr <$> ns) : pyval obdd) (PyTuple (PyInt <$> ix)) = (ns, ix).
Proof.
  intros Hne Hpos. split.
  - unfold invalid_identifier. simpl.
    intros [H|[(m & Hm & Hs)|(i & Hi & Hb)]].
    + destruct ns; [done|discriminate H].
    + apply list_elem_of_fmap in Hm as (n & -> & _). discriminate Hs.
    + apply list_elem_of_fmap in Hi as (z & -> & Hz). simpl in Hb.
      destruct Hb as [Hb|Hb]; [discriminate Hb|]. specialize (Hpos z Hz). lia.
  - unfold key_of. simpl. f_equal.
    + rewrite <- list_fmap_compose. etrans; [|apply list_fmap_id]. by apply list_fmap_ext.
    + rewrite <- list_fmap_compose. etrans; [|apply list_fmap_id]. by apply list_fmap_ext.
Qed.

Lemma linked_same_vars st st' : same_vars st st' → linked st → linked st'.
Proof. intros [Hreg Hvars] [H1 H2 H3]. split; rewrite ?Hreg, ?Hvars; done. Qed.

(** [obddvar] on the names and indices of a variable diagram returns that
    diagram and changes nothing. *)
Lemma obddvar_of_variable st u bvar n :
  wf_state st → linked st → _VARS st !! u = Some (OBDDVariable bvar n) →
  obddvar (PyTuple (PyStr <$> names bvar)) (PyTuple (PyInt <$> indices bvar)) st =
    (Ok (OBDDVariable bvar n), st).
Proof.
  intros Hwf Hlk Hx.
  pose proof (lk_vars st Hlk _ _ _ Hx) as Hid.
  destruct (lk_valid st Hlk _ _ Hid) as [Hne Hpos]. simpl in Hne, Hpos.
  destruct (tuple_identifier_valid (names bvar) (indices bvar) Hne Hpos) as [Hv Hkey].
  destruct (obddvar_run _ _ st Hwf Hv)
    as (v' & u' & r' & _ & _ & _ & _ & Hku & _ & Hsame & _ & Hrun).
  rewrite Hkey in Hku, Hsame.
  rewrite (Hsame (lk_ids st Hlk _ _ Hid)) in Hku, Hrun.
  assert (u' = u) as -> by congruence.
  rewrite Hx in Hrun. by rewrite state_eta in Hrun.
Qed.

(** The cofactor [restrict] returns for the root variable of a diagram. *)
Lemma restrict_root_cofactor lim st f x (b : bool) (a : ref) v (l h : ref) tl th :
  wf_state st → known st f → known st x →
  denotes (nodes st) (node_of x) (Node v (Leaf false) (Leaf true)) →
  denotes (nodes st) (node_of f) (Node v tl th) →
  denotes (nodes st) l tl → denotes (nodes st) h th →
  S (Nat.max (depth tl) (depth th)) < lim →
  ∃ d st', restrict lim f [(x, PyInt (Z.b2z b))] st = (Ok d, st') ∧
    wf_state st' ∧ st ≼ st' ∧ known st' d ∧
    same_vars st st' ∧ node_of d = if b then h else l.
Proof.
  intros Hwf Hf Hx Hdx Ht Hl Hh Hlim.
  pose proof (ws_nodes st Hwf) as Hwfn.
  destruct (denotes_robdd _ _ _ Hwfn Ht) as [(Hv & Hbl & Hbh) (Hne & Hrl & Hrh)].
  destruct (restrict_run lim st f [(x, PyInt (Z.b2z b))] (Node v tl th) Hwf Hf Ht
              (single_const st x b Hx) Hlim)
    as (d & st' & t' & E & Hwf' & Hle & Hext & Hd & Ht' & _ & Hsem).
  pose proof (ws_nodes st' Hwf') as Hwfn'.
  assert (t' = if b then th else tl) as ->.
  { destruct (denotes_robdd _ _ _ Hwfn' Ht') as [Hb' Hr'].
    apply (tree_canonical _ _ 0 v); [done|done|by destruct b|by destruct b|].
    intros e. rewrite Hsem.
    rewrite (interp_ext _ _ (upd v b e)) by (intros w _; by apply assign_single).
    simpl. unfold upd at 1. rewrite decide_True by done.
    destruct b; apply interp_upd_notin; intros Hin;
      [apply (bounded_tvars v th v) in Hin|apply (bounded_tvars v tl v) in Hin];
      done || lia. }
  exists d, st'. split_and!; try done.
  - pose proof (same_vars_exec lim (Crestrict f [(x, PyInt (Z.b2z b))]) st) as Hsv.
    cbn [exec] in Hsv. rewrite E in Hsv. apply Hsv. by intros ? ?.
  - destruct b.
    + eapply denotes_inj; [exact Hwfn'|exact Ht'|by eapply denotes_extends].
    + eapply denotes_inj; [exact Hwfn'|exact Ht'|by eapply denotes_extends].
Qed.

Lemma expr2obddnode_run lim : ∀ st f t,
  wf_state st → linked st → known st f →
  denotes (nodes st) (node_of f) t → depth t + 1 < lim →
  ∃ st', _expr2obddnode lim f st = (Ok (node_of f), st') ∧
         wf_state st' ∧ linked st' ∧ st ≼ st'.
Proof.
  induction lim as [|lim IH]; intros st f t Hwf Hlk Hf Ht Hlim; [lia|].
  cbn [_expr2obddnode]. unfold is_zero, is_one.
  destruct (decide (node_of f = BDDNODEZERO)) as [H0|H0].
  { rewrite bool_decide_eq_true_2 by done. rewrite H0. by exists st. }
  rewrite (bool_decide_eq_false_2 _ H0).
  destruct (decide (node_of f = BDDNODEONE)) as [H1|H1].
  { rewrite bool_decide_eq_true_2 by done. rewrite H1. by exists st. }
  rewrite (bool_decide_eq_false_2 _ H1).
  pose proof (ws_nodes st Hwf) as Hwfn.
  inversion Ht as [Hz|Ho|a v l h tl th _ _ Hobj Hl Hh Ha Heq]; [congruence..|].
  subst t. simpl in Hlim.
  destruct (inputs_spec st f (Node v tl th) lim Hwf Hf Ht)
    as (ys & visited & vs & _ & _ & _ & Htop & _ & _ & _ & Hroot); [simpl; lia|].
  destruct Hroot as (o & x & Ho & Hx & Hhead & _).
  { unfold is_zero, is_one.
    by rewrite (bool_decide_eq_false_2 _ H0), (bool_decide_eq_false_2 _ H1). }
  pose proof (eq_trans (eq_sym Ho) Hobj) as Hoeq. injection Hoeq as ->.
  cbn [root] in Hx.
  destruct (ws_vars st Hwf v x Hx) as (bvar & n & -> & Hu & Hpos & Hdx & Hkx).
  rewrite Hhead in Htop. rewrite (bind_eq _ _ _ _ _ Htop). cbn beta iota zeta.
  rewrite (bind_eq _ _ _ _ _ (obddvar_of_variable st v bvar n Hwf Hlk Hx)).
  rewrite Hu.
  set (x := OBDDVariable bvar n) in *.
  assert (known st x) as Hkx' by exact Hkx.
  destruct (restrict_root_cofactor lim st f x false (node_of f) v l h tl th
              Hwf Hf Hkx' Hdx Ht Hl Hh ltac:(lia))
    as (e0 & st1 & E0 & Hwf1 & Hle1 & Hk0 & Hsv1 & Hn0).
  change (Z.b2z false) with 0%Z in E0. rewrite (bind_eq _ _ _ _ _ E0).
  pose proof (linked_same_vars _ _ Hsv1 Hlk) as Hlk1.
  destruct (IH st1 e0 tl Hwf1 Hlk1 Hk0) as (st2 & E2 & Hwf2 & Hlk2 & Hle2).
  { rewrite Hn0. eapply denotes_grows; [apply (sl_nodes _ _ Hle1)|done]. }
  { lia. }
  rewrite (bind_eq _ _ _ _ _ E2). rewrite Hn0.
  assert (st ≼ st2) as Hle02 by (by etrans).
  destruct (restrict_root_cofactor lim st2 f x true (node_of f) v l h tl th Hwf2)
    as (e1 & st3 & E1 & Hwf3 & Hle3 & Hk1 & Hsv3 & Hn1);
    [by apply (known_le st)|by apply (known_le st)
    |eapply denotes_grows; [apply (sl_nodes _ _ Hle02)|done]..|lia|].
  change (Z.b2z true) with 1%Z in E1. rewrite (bind_eq _ _ _ _ _ E1).
  pose proof (linked_same_vars _ _ Hsv3 Hlk2) as Hlk3.
  assert (st ≼ st3) as Hle03 by (by etrans).
  destruct (IH st3 e1 th Hwf3 Hlk3 Hk1) as (st4 & E4 & Hwf4 & Hlk4 & Hle4).
  { rewrite Hn1. eapply denotes_grows; [apply (sl_nodes _ _ Hle03)|done]. }
  { lia. }
  rewrite (bind_eq _ _ _ _ _ E4). rewrite Hn1.
  assert (st ≼ st4) as Hle04 by (by etrans).
  exists st4. split_and!; try done.
  pose proof (ws_nodes st4 Hwf4) as Hwfn4.
  pose proof (grows_lookup _ _ _ _ (sl_nodes _ _ Hle04) Hobj) as Hobj4.
  assert (l ≠ h) as Hlh.
  { destruct (wf_reduced_ordered _ Hwfn (node_of f) _ Hobj H0 H1)
      as (l' & h' & Hl' & Hh' & ? & _). simpl in Hl', Hh'. congruence. }
  assert (_NODES (nodes st4) !! (v, Some l, Some h) = Some (node_of f)) as Hkey.
  { by apply (wf_table _ Hwfn4). }
  unfold on_nodes, _obddnode. rewrite decide_False by done. rewrite Hkey.
  cbn [fst snd]. by rewrite state_eta.
Qed.

(** X21. [expr2obdd] of a diagram the caller holds is, given enough
    recursion depth, that diagram object itself: the conversion rebuilds
    every node of the diagram from its cofactors on the top variable and
    finds it in the node table. *)
Theorem expr2obdd_round_trip st f :
  reachable st → known st f →
  ∃ N, ∀ lim, N ≤ lim → ∃ st', expr2obdd lim f st = (Ok f, st').
Proof.
  intros Hr Hf. pose proof (reachable_wf st Hr) as Hwf.
  destruct (known_denotes st f Hwf Hf) as (t & Ht & _).
  exists (depth t + 2). intros lim Hlim.
  destruct (expr2obddnode_run lim st f t Hwf (reachable_linked st Hr) Hf Ht ltac:(lia))
    as (st' & E & Hwf' & _ & Hle).
  unfold expr2obdd. rewrite (bind_eq _ _ _ _ _ E).
  pose proof (known_le st st' f Hle Hf) as Hf'. unfold known in Hf'.
  unfold _obdd. rewrite Hf'. by exists st'.
Qed.

Lemma expr2obdd_round_trip_witness :
  reachable demo_f ∧ known demo_f diagram_f ∧
  ∃ N, ∀ lim, N ≤ lim → ∃ st', expr2obdd lim diagram_f demo_f = (Ok diagram_f, st').
Proof.
  split; [apply reachable_demo_f|]. split; [apply known_diagram_f|].
  apply (expr2obdd_round_trip demo_f diagram_f reachable_demo_f known_diagram_f).
Defined.
